(** * Schema generator: extraction, generation and comparison pipeline

    A shallow embedding of the core of [app.py] and [json-id-generator.py]:
    the text sanitizer, the static and the dynamic content extractor, the
    JSON passthrough extractor, the schema generator (plain and retrying) and
    the schema comparator, followed by the properties proved about them.

    Modelling conventions.
    - A Python [str] that is program text (a prompt, a model response, an
      uploaded document) is a [list ascii]: one character per code point
      below 256.  Strings decoded from JSON are lists of code points
      ([list N]), since a [\uXXXX] escape reaches beyond that range.
    - Python exceptions are the subclasses of [Exception]; an exception
      carries its class name and its [str(e)].
    - The outside world (the LLM endpoint, the HTTP server, the headless
      browser) is an oracle that answers each call from the trace of the
      events so far; every effect of the code is recorded in that trace.
    - [json.loads] and [json.dumps] follow [Lib/json] of CPython, with
      integers of any size and nesting of any depth; floating point is left
      abstract behind the interface [FloatModel]. *)

From Stdlib Require Import Ascii String List ZArith NArith QArith Zpow_facts.
From Stdlib Require Import Lia Lqa Bool Arith.
Import ListNotations.
Close Scope Q_scope.

Set Implicit Arguments.
Set Warnings "-register-all".

(* ================================================================== *)
(** * Python strings *)

Definition str := list ascii.

Definition lit (s : string) : str := list_ascii_of_string s.

(** Code points of a text, for strings held inside Python values. *)
Definition cps (s : str) : list N := map N_of_ascii s.

Definition dquote : ascii := "034"%char.
Definition newline : ascii := "010"%char.
Definition backslash : ascii := "\"%char.

Definition str_eqb (a b : str) : bool :=
  if list_eq_dec ascii_dec a b then true else false.

Fixpoint starts_with (p s : str) : bool :=
  match p, s with
  | [], _ => true
  | a :: p', b :: s' => Ascii.eqb a b && starts_with p' s'
  | _ :: _, [] => false
  end.

(** [s.find(c)] for a one-character needle: the least index, or -1. *)
Fixpoint find_from (c : ascii) (s : str) (i : Z) : Z :=
  match s with
  | [] => (-1)%Z
  | a :: s' => if Ascii.eqb a c then i else find_from c s' (i + 1)%Z
  end.

Definition find (s : str) (c : ascii) : Z := find_from c s 0%Z.

(** [s.rfind(c)]: the greatest index, or -1. *)
Fixpoint rfind_from (c : ascii) (s : str) (i : Z) (last : Z) : Z :=
  match s with
  | [] => last
  | a :: s' => rfind_from c s' (i + 1)%Z (if Ascii.eqb a c then i else last)
  end.

Definition rfind (s : str) (c : ascii) : Z := rfind_from c s 0%Z (-1)%Z.

(** [s[a:b]] with Python's treatment of negative and out-of-range bounds. *)
Definition slice_bound (len i : Z) : Z :=
  if (i <? 0)%Z then Z.max 0 (i + len) else Z.min i len.

Definition slice (s : str) (a b : Z) : str :=
  let len := Z.of_nat (length s) in
  let a' := slice_bound len a in
  let b' := slice_bound len b in
  firstn (Z.to_nat (b' - a')) (skipn (Z.to_nat a') s).

(** [sep.join(parts)]. *)
Fixpoint join (sep : str) (parts : list str) : str :=
  match parts with
  | [] => []
  | [p] => p
  | p :: rest => p ++ sep ++ join sep rest
  end.

(** Whitespace in the sense of [str.isspace], [str.split()] and
    [str.strip()], for code points below 256. *)
Definition py_isspace (c : ascii) : bool :=
  let n := nat_of_ascii c in
  ((9 <=? n) && (n <=? 13)) || ((28 <=? n) && (n <=? 32))
  || (n =? 133) || (n =? 160).

(** [s.split()]: the maximal runs of non-whitespace characters. *)
Fixpoint split_ws_aux (s : str) (cur : str) : list str :=
  match s with
  | [] => match cur with [] => [] | _ => [rev cur] end
  | c :: s' =>
      if py_isspace c
      then match cur with
           | [] => split_ws_aux s' []
           | _ => rev cur :: split_ws_aux s' []
           end
      else split_ws_aux s' (c :: cur)
  end.

Definition split_ws (s : str) : list str := split_ws_aux s [].

Fixpoint lstrip (s : str) : str :=
  match s with
  | c :: s' => if py_isspace c then lstrip s' else s
  | [] => []
  end.

(** [s.strip()]. *)
Definition strip (s : str) : str := rev (lstrip (rev (lstrip s))).

Definition is_digit (c : ascii) : bool :=
  let n := nat_of_ascii c in (48 <=? n) && (n <=? 57).

Definition digit_val (c : ascii) : N := N_of_ascii c - 48.

Definition digit_char (d : N) : ascii := ascii_of_N (48 + d).

(** The maximal prefix of decimal digits, and what follows it. *)
Fixpoint span_digits (s : str) : str * str :=
  match s with
  | c :: s' =>
      if is_digit c
      then let (ds, rest) := span_digits s' in (c :: ds, rest)
      else ([], s)
  | [] => ([], [])
  end.

(** The number denoted by a sequence of decimal digits. *)
Definition digits_value (ds : str) : N :=
  fold_left (fun acc c => 10 * acc + digit_val c)%N ds 0%N.

(** Decimal digits of a natural number, most significant first. *)
Fixpoint N_digits (fuel : nat) (n : N) : str :=
  match fuel with
  | O => [digit_char (n mod 10)]
  | S fuel' =>
      if (n <? 10)%N then [digit_char n]
      else N_digits fuel' (n / 10) ++ [digit_char (n mod 10)]
  end.

Definition N_to_str (n : N) : str := N_digits (N.size_nat n) n.

(** [int.__repr__]. *)
Definition Z_to_str (z : Z) : str :=
  match z with
  | Z0 => lit "0"
  | Zpos p => N_to_str (Npos p)
  | Zneg p => "-"%char :: N_to_str (Npos p)
  end.

Definition nat_to_str (n : nat) : str := N_to_str (N.of_nat n).

Definition hex_char (d : N) : ascii :=
  if (d <? 10)%N then ascii_of_N (48 + d) else ascii_of_N (87 + d).

Definition hex_val (c : ascii) : option N :=
  let n := N_of_ascii c in
  if ((48 <=? n) && (n <=? 57))%N then Some (n - 48)%N
  else if ((97 <=? n) && (n <=? 102))%N then Some (n - 87)%N
  else if ((65 <=? n) && (n <=? 70))%N then Some (n - 55)%N
  else None.

(* ================================================================== *)
(** * Python values and the [json] module *)

(** What the code needs of Python's [float]: [float(text)] on a decimal
    literal, [float.__repr__], the three non-finite constants and the tests
    [o != o], [o == inf], [o == -inf] of the encoder. *)
Inductive float_class := FFinite | FPosInf | FNegInf | FNaN.

Class FloatModel := {
  float : Type;
  float_of_literal : str -> float;
  float_repr : float -> str;
  float_inf : float;
  float_neg_inf : float;
  float_nan : float;
  classify : float -> float_class
}.

Section Json.

Context {FM : FloatModel}.

(** The Python objects that [json.loads] builds; a [dict] keeps its items in
    insertion order. *)
Inductive pyval :=
| PyNone
| PyBool (b : bool)
| PyInt (z : Z)
| PyFloat (f : float)
| PyStr (s : list N)
| PyList (items : list pyval)
| PyDict (items : list (list N * pyval)).

(** [d[k] = v] on an insertion-ordered dict. *)
Fixpoint dict_set (d : list (list N * pyval)) (k : list N) (v : pyval)
  : list (list N * pyval) :=
  match d with
  | [] => [(k, v)]
  | (k', v') :: d' =>
      if list_eq_dec N.eq_dec k k' then (k, v) :: d'
      else (k', v') :: dict_set d' k v
  end.

(** [dict(pairs)]. *)
Definition dict_of_pairs (pairs : list (list N * pyval))
  : list (list N * pyval) :=
  fold_left (fun d kv => dict_set d (fst kv) (snd kv)) pairs [].

(** [key in d] and [d[key]]. *)
Fixpoint dict_get (d : list (list N * pyval)) (k : list N) : option pyval :=
  match d with
  | [] => None
  | (k', v) :: d' =>
      if list_eq_dec N.eq_dec k k' then Some v else dict_get d' k
  end.

(** ** Decoding ([json/decoder.py], [json/scanner.py])

    The scanner works on the suffix of the document that is still to be
    read.  A [JSONDecodeError] is reported with the number of characters
    that remained at the position Python reports; [json_loads] turns that
    into the position.  A [StopIteration] of the scanner is reported as the
    [Expecting value] error every caller turns it into.  [OutOfFuel] is an
    artefact of the embedding that [json_loads] never meets
    ([json_loads_fuel]). *)
Inductive scan (A : Type) :=
| Scanned (a : A) (rest : str)
| DecodeError (msg : str) (remaining : nat)
| OutOfFuel.

Arguments DecodeError {A}.
Arguments OutOfFuel {A}.

Definition is_json_ws (c : ascii) : bool :=
  let n := nat_of_ascii c in
  (n =? 32) || (n =? 9) || (n =? 10) || (n =? 13).

(** [WHITESPACE.match(s, end).end()]. *)
Fixpoint skip_ws (s : str) : str :=
  match s with
  | c :: s' => if is_json_ws c then skip_ws s' else s
  | [] => []
  end.

(** The table [BACKSLASH]. *)
Definition backslash_escape (esc : ascii) : option N :=
  match esc with
  | "034"%char => Some 34%N
  | "\"%char => Some 92%N
  | "/"%char => Some 47%N
  | "b"%char => Some 8%N
  | "f"%char => Some 12%N
  | "n"%char => Some 10%N
  | "r"%char => Some 13%N
  | "t"%char => Some 9%N
  | _ => None
  end.

(** [_decode_uXXXX] on the four characters after [\u], with the strictness
    of the C scanner (hexadecimal digits only). *)
Definition hex4 (h1 h2 h3 h4 : ascii) : option N :=
  match hex_val h1, hex_val h2, hex_val h3, hex_val h4 with
  | Some a, Some b, Some c, Some d => Some (((a * 16 + b) * 16 + c) * 16 + d)%N
  | _, _, _, _ => None
  end.

Definition is_high_surrogate (u : N) : bool :=
  ((55296 <=? u) && (u <=? 56319))%N.

Definition is_low_surrogate (u : N) : bool :=
  ((56320 <=? u) && (u <=? 57343))%N.

Definition join_surrogates (uni uni2 : N) : N :=
  (65536 + N.lor (N.shiftl (uni - 55296) 10) (uni2 - 56320))%N.

Definition unterminated : str := lit "Unterminated string starting at".
Definition invalid_uXXXX : str := lit "Invalid \uXXXX escape".

(** [scanstring(s, end, strict=True)]: [s] is what follows the opening
    quote, [begin] the number of characters remaining at that quote.  The
    two errors on which [py_scanstring] and the C scanner that CPython runs
    differ in wording and position are reported as the C scanner does. *)
Fixpoint scanstring_from (s : str) (begin : nat) (chunks : list N)
  : scan (list N) :=
  match s with
  | [] => DecodeError unterminated begin
  | c :: s1 =>
      if Ascii.eqb c dquote then Scanned (rev chunks) s1
      else if Ascii.eqb c backslash then
        match s1 with
        | [] => DecodeError unterminated begin
        | esc :: s2 =>
            if negb (Ascii.eqb esc "u") then
              match backslash_escape esc with
              | Some ch => scanstring_from s2 begin (ch :: chunks)
              | None => DecodeError (lit "Invalid \escape") (S (length s1))
              end
            else
              match s2 with
              | h1 :: h2 :: h3 :: h4 :: s3 =>
                  match hex4 h1 h2 h3 h4 with
                  | None => DecodeError invalid_uXXXX (length s1)
                  | Some uni =>
                      if is_high_surrogate uni then
                        match s3 with
                        | b :: u :: s4 =>
                            if Ascii.eqb b backslash && Ascii.eqb u "u" then
                              match s4 with
                              | g1 :: g2 :: g3 :: g4 :: s5 =>
                                  match hex4 g1 g2 g3 g4 with
                                  | None =>
                                      DecodeError invalid_uXXXX
                                                  (S (length s4))
                                  | Some uni2 =>
                                      if is_low_surrogate uni2
                                      then scanstring_from s5 begin
                                             (join_surrogates uni uni2
                                              :: chunks)
                                      else scanstring_from s3 begin
                                             (uni :: chunks)
                                  end
                              | _ => DecodeError invalid_uXXXX (S (length s4))
                              end
                            else scanstring_from s3 begin (uni :: chunks)
                        | _ => scanstring_from s3 begin (uni :: chunks)
                        end
                      else scanstring_from s3 begin (uni :: chunks)
                  end
              | _ => DecodeError invalid_uXXXX (length s1)
              end
        end
      else if (N_of_ascii c <? 32)%N then
        DecodeError (lit "Invalid control character at") (S (length s1))
      else scanstring_from s1 begin (N_of_ascii c :: chunks)
  end.

Definition scanstring (s : str) (begin : nat) : scan (list N) :=
  scanstring_from s begin [].

(** [NUMBER_RE.match]: the groups [integer], [frac], [exp] (an absent group
    is empty) and what follows the match. *)
Definition match_unsigned (sign s1 : str) : option (str * str) :=
  match s1 with
  | c :: t =>
      if Ascii.eqb c "0" then Some (sign ++ [c], t)
      else if is_digit c
           then let (ds, t') := span_digits t in Some (sign ++ c :: ds, t')
           else None
  | [] => None
  end.

Definition match_integer (s : str) : option (str * str) :=
  match s with
  | c :: t => if Ascii.eqb c "-" then match_unsigned [c] t else match_unsigned [] s
  | [] => None
  end.

Definition match_frac (s : str) : str * str :=
  match s with
  | c :: t =>
      if Ascii.eqb c "." then
        match span_digits t with
        | ([], _) => ([], s)
        | (ds, t') => (c :: ds, t')
        end
      else ([], s)
  | [] => ([], s)
  end.

Definition match_exp (s : str) : str * str :=
  match s with
  | e :: t =>
      if Ascii.eqb e "e" || Ascii.eqb e "E" then
        let (sg, t1) :=
          match t with
          | c :: t1' =>
              if Ascii.eqb c "-" || Ascii.eqb c "+" then ([c], t1')
              else ([], t)
          | [] => ([], t)
          end in
        match span_digits t1 with
        | ([], _) => ([], s)
        | (ds, t2) => (e :: sg ++ ds, t2)
        end
      else ([], s)
  | [] => ([], s)
  end.

Definition match_number (s : str) : option (str * str * str * str) :=
  match match_integer s with
  | None => None
  | Some (integer, s2) =>
      let (frac, s3) := match_frac s2 in
      let (exp, s4) := match_exp s3 in
      Some (integer, frac, exp, s4)
  end.

(** [int(integer)] on a text matched by the [integer] group. *)
Definition parse_int (integer : str) : Z :=
  match integer with
  | c :: ds =>
      if Ascii.eqb c "-" then (- Z.of_N (digits_value ds))%Z
      else Z.of_N (digits_value integer)
  | [] => 0%Z
  end.

Definition expecting_value : str := lit "Expecting value".
Definition expecting_comma : str := lit "Expecting ',' delimiter".
Definition expecting_colon : str := lit "Expecting ':' delimiter".
Definition expecting_name : str :=
  lit "Expecting property name enclosed in double quotes".

(** [_scan_once], [JSONArray] and [JSONObject].  [array_items] is the loop
    of [JSONArray] and [object_items] the loop of [JSONObject], entered
    after the opening quote of a key; both collect in reverse. *)
Fixpoint scan_once (fuel : nat) (s : str) {struct fuel} : scan pyval :=
  match fuel with
  | O => OutOfFuel
  | S fuel' =>
      match s with
      | [] => DecodeError expecting_value 0
      | nextchar :: t =>
          if Ascii.eqb nextchar dquote then
            match scanstring t (length s) with
            | Scanned k rest => Scanned (PyStr k) rest
            | DecodeError m r => DecodeError m r
            | OutOfFuel => OutOfFuel
            end
          else if Ascii.eqb nextchar "{" then
            match skip_ws t with
            | c :: t1 =>
                if Ascii.eqb c dquote then object_items fuel' t1 []
                else if Ascii.eqb c "}" then Scanned (PyDict []) t1
                else DecodeError expecting_name (length (c :: t1))
            | [] => DecodeError expecting_name 0
            end
          else if Ascii.eqb nextchar "[" then
            match skip_ws t with
            | c :: t1 =>
                if Ascii.eqb c "]" then Scanned (PyList []) t1
                else array_items fuel' (c :: t1) []
            | [] => array_items fuel' [] []
            end
          else if starts_with (lit "null") s then
            Scanned PyNone (skipn 4 s)
          else if starts_with (lit "true") s then
            Scanned (PyBool true) (skipn 4 s)
          else if starts_with (lit "false") s then
            Scanned (PyBool false) (skipn 5 s)
          else
            match match_number s with
            | Some (integer, frac, exp, rest) =>
                match frac, exp with
                | [], [] => Scanned (PyInt (parse_int integer)) rest
                | _, _ =>
                    Scanned (PyFloat (float_of_literal (integer ++ frac ++ exp)))
                            rest
                end
            | None =>
                if starts_with (lit "NaN") s then
                  Scanned (PyFloat float_nan) (skipn 3 s)
                else if starts_with (lit "Infinity") s then
                  Scanned (PyFloat float_inf) (skipn 8 s)
                else if starts_with (lit "-Infinity") s then
                  Scanned (PyFloat float_neg_inf) (skipn 9 s)
                else DecodeError expecting_value (length s)
            end
      end
  end

with array_items (fuel : nat) (s : str) (values : list pyval) {struct fuel}
  : scan pyval :=
  match fuel with
  | O => OutOfFuel
  | S fuel' =>
      match scan_once fuel' s with
      | Scanned value rest =>
          match skip_ws rest with
          | c :: r =>
              if Ascii.eqb c "]" then Scanned (PyList (rev (value :: values))) r
              else if Ascii.eqb c ","
                   then array_items fuel' (skip_ws r) (value :: values)
                   else DecodeError expecting_comma (length (c :: r))
          | [] => DecodeError expecting_comma 0
          end
      | DecodeError m r => DecodeError m r
      | OutOfFuel => OutOfFuel
      end
  end

with object_items (fuel : nat) (s : str) (pairs : list (list N * pyval))
  {struct fuel} : scan pyval :=
  match fuel with
  | O => OutOfFuel
  | S fuel' =>
      match scanstring s (S (length s)) with
      | Scanned key rest =>
          match skip_ws rest with
          | c :: r =>
              if Ascii.eqb c ":" then
                match scan_once fuel' (skip_ws r) with
                | Scanned value rest1 =>
                    match skip_ws rest1 with
                    | c1 :: r1 =>
                        if Ascii.eqb c1 "}" then
                          Scanned
                            (PyDict (dict_of_pairs (rev ((key, value) :: pairs))))
                            r1
                        else if Ascii.eqb c1 "," then
                          match skip_ws r1 with
                          | c2 :: r2 =>
                              if Ascii.eqb c2 dquote
                              then object_items fuel' r2 ((key, value) :: pairs)
                              else DecodeError expecting_name (length (c2 :: r2))
                          | [] => DecodeError expecting_name 0
                          end
                        else DecodeError expecting_comma (length (c1 :: r1))
                    | [] => DecodeError expecting_comma 0
                    end
                | DecodeError m r' => DecodeError m r'
                | OutOfFuel => OutOfFuel
                end
              else DecodeError expecting_colon (length (c :: r))
          | [] => DecodeError expecting_colon 0
          end
      | DecodeError m r => DecodeError m r
      | OutOfFuel => OutOfFuel
      end
  end.

(** [JSONDecodeError(msg, doc, pos)]; [str(e)] is the formatted message. *)
Record JSONDecodeError := {
  err_msg : str;
  err_doc : str;
  err_pos : nat
}.

Definition count_char (c : ascii) (s : str) : nat :=
  length (filter (Ascii.eqb c) s).

Definition str_JSONDecodeError (e : JSONDecodeError) : str :=
  let before := firstn (err_pos e) (err_doc e) in
  let lineno := count_char newline before + 1 in
  let colno := (Z.of_nat (err_pos e) - rfind before newline)%Z in
  err_msg e ++ lit ": line " ++ nat_to_str lineno
  ++ lit " column " ++ Z_to_str colno
  ++ lit " (char " ++ nat_to_str (err_pos e) ++ lit ")".

(** The fuel that [scan_once] is run with: two steps for each character of
    the document and one more (see [scan_once_fuel]). *)
Definition decode_fuel (s : str) : nat := 2 * length s + 1.

(** [json.loads(s)] for a [str]: [JSONDecoder.decode].  The left summand is
    the raised [JSONDecodeError].  (A leading U+FEFF, which [loads] rejects,
    is not a character of the modelled texts.) *)
Definition json_loads (s : str) : JSONDecodeError + pyval :=
  let at_remaining msg r :=
    inl {| err_msg := msg; err_doc := s; err_pos := length s - r |} in
  match scan_once (decode_fuel s) (skip_ws s) with
  | Scanned obj rest =>
      match skip_ws rest with
      | [] => inr obj
      | extra => at_remaining (lit "Extra data") (length extra)
      end
  | DecodeError msg r => at_remaining msg r
  | OutOfFuel => at_remaining (lit "out of fuel") 0
  end.

(** ** Encoding ([json/encoder.py]) *)

Definition hex4_digits (n : N) : str :=
  [hex_char (n / 4096); hex_char ((n / 256) mod 16);
   hex_char ((n / 16) mod 16); hex_char (n mod 16)].

(** The replacement of one character by [py_encode_basestring_ascii]. *)
Definition escape_char (n : N) : str :=
  if (n =? 92)%N then lit "\\"
  else if (n =? 34)%N then [backslash; dquote]
  else if (n =? 8)%N then lit "\b"
  else if (n =? 12)%N then lit "\f"
  else if (n =? 10)%N then lit "\n"
  else if (n =? 13)%N then lit "\r"
  else if (n =? 9)%N then lit "\t"
  else if ((32 <=? n) && (n <=? 126))%N then [ascii_of_N n]
  else if (n <? 65536)%N then lit "\u" ++ hex4_digits n
  else
    let n' := (n - 65536)%N in
    let s1 := N.lor 55296 (N.land (N.shiftr n' 10) 1023) in
    let s2 := N.lor 56320 (N.land n' 1023) in
    lit "\u" ++ hex4_digits s1 ++ lit "\u" ++ hex4_digits s2.

Definition encode_basestring_ascii (s : list N) : str :=
  dquote :: flat_map escape_char s ++ [dquote].

(** [floatstr] with [allow_nan=True]. *)
Definition floatstr (o : float) : str :=
  match classify o with
  | FNaN => lit "NaN"
  | FPosInf => lit "Infinity"
  | FNegInf => lit "-Infinity"
  | FFinite => float_repr o
  end.

(** ['\n' + _indent * level] with [_indent = '  ']. *)
Definition newline_indent (level : nat) : str :=
  newline :: concat (repeat (lit "  ") level).

(** [_iterencode(o, level)] with [indent=2], the separators [','] and
    [': '] and no key sorting, joined into one string. *)
Fixpoint iterencode (o : pyval) (level : nat) {struct o} : str :=
  match o with
  | PyStr s => encode_basestring_ascii s
  | PyNone => lit "null"
  | PyBool true => lit "true"
  | PyBool false => lit "false"
  | PyInt z => Z_to_str z
  | PyFloat f => floatstr f
  | PyList [] => lit "[]"
  | PyList lst =>
      lit "[" ++ newline_indent (S level)
      ++ join (lit "," ++ newline_indent (S level))
              (map (fun value => iterencode value (S level)) lst)
      ++ newline_indent level ++ lit "]"
  | PyDict [] => lit "{}"
  | PyDict dct =>
      lit "{" ++ newline_indent (S level)
      ++ join (lit "," ++ newline_indent (S level))
              (map (fun kv =>
                      encode_basestring_ascii (fst kv) ++ lit ": "
                      ++ iterencode (snd kv) (S level)) dct)
      ++ newline_indent level ++ lit "}"
  end.

(** [json.dumps(obj, indent=2)]. *)
Definition json_dumps (obj : pyval) : str := iterencode obj 0.

End Json.

Arguments pyval : clear implicits.
Arguments DecodeError {A}.
Arguments OutOfFuel {A}.

(* ================================================================== *)
(** * Effects: exceptions, the event trace and the outside world *)

Record exn := { exn_class : str; exn_str : str }.

Definition ValueError (msg : str) : exn :=
  {| exn_class := lit "ValueError"; exn_str := msg |}.
Definition AttributeError (msg : str) : exn :=
  {| exn_class := lit "AttributeError"; exn_str := msg |}.
Definition TypeError (msg : str) : exn :=
  {| exn_class := lit "TypeError"; exn_str := msg |}.

(** A handle on a DOM element of the live page. *)
Definition web_element := nat.

(** The keyword arguments of [client.chat.completions.create]. *)
Record completion_request := {
  req_model : str;
  req_messages : list (str * str);
  req_max_tokens : Z;
  req_temperature : Q;
  req_top_p : Q;
  req_frequency_penalty : Q;
  req_presence_penalty : Q;
  req_stream : bool
}.

Inductive event :=
| ChatCompletion (request : completion_request)
| Sleep (seconds : Q)
| LogError (msg : str)
| Print (msg : str)
| HttpGet (url : str) (headers : list (str * str)) (timeout : Z)
| ChromeStart (arguments : list str)
| DriverGet (url : str)
| FindElements (xpath : str)
| ExecuteScript (script : str) (element : web_element)
| PageSource
| DriverQuit.

Definition trace := list event.

Inductive result (A : Type) :=
| Return (a : A)
| Raise (e : exn).

Arguments Raise {A}.

(** A computation reads the trace so far and extends it. *)
Definition M (A : Type) : Type := trace -> result A * trace.

Definition ret {A} (a : A) : M A := fun t => (Return a, t).

Definition raise {A} (e : exn) : M A := fun t => (Raise e, t).

Definition bind {A B} (m : M A) (k : A -> M B) : M B :=
  fun t =>
    match m t with
    | (Return a, t') => k a t'
    | (Raise e, t') => (Raise e, t')
    end.

Declare Scope py_scope.
Delimit Scope py_scope with py.
Notation "x <- m ;; k" := (bind m (fun x => k))
  (at level 61, m at next level, right associativity) : py_scope.
Notation "m ;; k" := (bind m (fun _ => k))
  (at level 61, right associativity) : py_scope.
Open Scope py_scope.

Definition emit (ev : event) : M unit := fun t => (Return tt, t ++ [ev]).

(** [try: body  except Exception as e: handler e]. *)
Definition try_except {A} (body : M A) (handler : exn -> M A) : M A :=
  fun t =>
    match body t with
    | (Return a, t') => (Return a, t')
    | (Raise e, t') => handler e t'
    end.

(** [try: body  finally: final]: [final] runs on every exit of [body]; the
    outcome of [body] stands unless [final] itself raises. *)
Definition try_finally {A} (body : M A) (final : M unit) : M A :=
  fun t =>
    match body t with
    | (r, t') =>
        match final t' with
        | (Return _, t'') => (r, t'')
        | (Raise e, t'') => (Raise e, t'')
        end
    end.

(** [for x in xs: body x], for a body that falls through or raises. *)
Fixpoint for_each {A} (xs : list A) (body : A -> M unit) : M unit :=
  match xs with
  | [] => ret tt
  | x :: xs' => body x ;; for_each xs' body
  end.

Definition sleep (seconds : Q) : M unit := emit (Sleep seconds).
Definition logging_error (msg : str) : M unit := emit (LogError msg).
Definition print (msg : str) : M unit := emit (Print msg).

(** ** The LLM endpoint *)

(** What a completion request leads to: an exception of the request, or the
    value of [completion.choices[0].message.content], a [str] or [None]. *)
Inductive completion :=
| RequestFails (e : exn)
| Content (content : option str).

(** An Azure OpenAI client: its answer to a request, given what happened
    before. *)
Definition llm_client := trace -> completion_request -> completion.

Definition chat_completions_create (client : llm_client)
           (request : completion_request) : M (option str) :=
  fun t =>
    let t' := t ++ [ChatCompletion request] in
    match client t request with
    | RequestFails e => (Raise e, t')
    | Content c => (Return c, t')
    end.

(** ** The HTTP server *)

(** [requests.get] followed by [raise_for_status]: the body, or the
    connection or status error. *)
Definition http_server := trace -> str -> exn + str.

Definition requests_get (web : http_server) (url : str)
           (headers : list (str * str)) (timeout : Z) : M str :=
  fun t =>
    let t' := t ++ [HttpGet url headers timeout] in
    match web t url with
    | inl e => (Raise e, t')
    | inr body => (Return body, t')
    end.

(** ** The headless browser *)

Record web_driver := {
  drv_get : trace -> str -> option exn;
  drv_find_elements : trace -> str -> exn + list web_element;
  drv_execute_script : trace -> str -> web_element -> option exn;
  drv_page_source : trace -> exn + str;
  drv_quit : trace -> option exn
}.

Definition outcome (r : option exn) (t : trace) : result unit * trace :=
  match r with
  | Some e => (Raise e, t)
  | None => (Return tt, t)
  end.

Definition driver_get (d : web_driver) (url : str) : M unit :=
  fun t => outcome (drv_get d t url) (t ++ [DriverGet url]).

Definition driver_find_elements (d : web_driver) (xpath : str)
  : M (list web_element) :=
  fun t =>
    let t' := t ++ [FindElements xpath] in
    match drv_find_elements d t xpath with
    | inl e => (Raise e, t')
    | inr elements => (Return elements, t')
    end.

Definition driver_execute_script (d : web_driver) (script : str)
           (element : web_element) : M unit :=
  fun t =>
    outcome (drv_execute_script d t script element)
            (t ++ [ExecuteScript script element]).

Definition driver_page_source (d : web_driver) : M str :=
  fun t =>
    let t' := t ++ [PageSource] in
    match drv_page_source d t with
    | inl e => (Raise e, t')
    | inr html => (Return html, t')
    end.

Definition driver_quit (d : web_driver) : M unit :=
  fun t => outcome (drv_quit d t) (t ++ [DriverQuit]).

(* ================================================================== *)
(** * Parsed HTML *)

(** A document as [BeautifulSoup(markup, 'html.parser')] presents it, for
    markup made of elements and text: a text node is a [NavigableString],
    an element a [Tag] with its attributes in source order. *)
Inductive node :=
| Text (s : str)
| Element (name : str) (attrs : list (str * str)) (children : list node).

(** The HTML parser itself is outside the code under study. *)
Definition html_parser := str -> list node.

(** [tag.name]: [None] on a [NavigableString]. *)
Definition node_name (n : node) : option str :=
  match n with
  | Text _ => None
  | Element name _ _ => Some name
  end.

Definition name_is (n : node) (name : str) : bool :=
  match node_name n with
  | Some nm => str_eqb nm name
  | None => false
  end.

Fixpoint attr_get (attrs : list (str * str)) (key : str) : option str :=
  match attrs with
  | [] => None
  | (k, v) :: rest => if str_eqb k key then Some v else attr_get rest key
  end.

(** [soup.find_all(text=True)]: every string of the tree, in document
    order. *)
Fixpoint strings_of (n : node) : list node :=
  match n with
  | Text s => [Text s]
  | Element _ _ children => flat_map strings_of children
  end.

Definition find_all_text (soup : list node) : list node :=
  flat_map strings_of soup.

(** [soup.find_all(...)] with a test on tags: the matching descendants in
    document order. *)
Fixpoint tags_of (test : node -> bool) (n : node) : list node :=
  match n with
  | Text _ => []
  | Element name attrs children =>
      (if test n then [n] else []) ++ flat_map (tags_of test) children
  end.

Definition find_all (soup : list node) (test : node -> bool) : list node :=
  flat_map (tags_of test) soup.

(** [node.get_text()]: the strings below the node, concatenated. *)
Fixpoint get_text (n : node) : str :=
  match n with
  | Text s => s
  | Element _ _ children => flat_map get_text children
  end.

(** [node.get_text(strip=True)]: each string stripped, the empty ones
    dropped. *)
Fixpoint get_text_strip (n : node) : str :=
  match n with
  | Text s => strip s
  | Element _ _ children => flat_map get_text_strip children
  end.
(** The built-in instructions of [app.py] (lines 64-76). *)
Definition default_prompt_app (text_content : str) : str :=
  join [newline]
    [lit "Generate a detailed, SEO-optimized schema in JSON-LD format following schema.org guidelines.";
     lit "Ensure that the schema is generic enough to cover diverse content types but also includes the following aspects where applicable:";
     lit " ";
     lit "- Use the most relevant schema type (e.g., `Article`, `Recipe`, `Event`, `Product`) based on the provided content.";
     lit "- Include key properties specific to the schema type (e.g., `author`, `datePublished`, `headline` for `Article`; `prepTime`, `cookTime`, `recipeIngredient`, `rating` for `Recipe`).";
     lit "-Make sure that you do not add anything extra other than the content or modify the content.";
     lit "- Include at least 15 SEO-friendly keywords extracted from the content.";
     lit "- Ensure that the schema includes `@context`, `@type`, `url`, and `description` fields at a minimum.";
     lit "- Include additional fields such as `mainEntityOfPage`, `image`, `publisher`, or `offers` when relevant.";
     lit "- The output MUST be valid JSON-LD with proper syntax and double quotes.";
     lit " ";
     lit "Extract all relevant information from this content";
     lit "    " ++ text_content].

(** The built-in instructions of [json-id-generator.py] (lines 189-201). *)
Definition default_prompt_retry (text_content : str) : str :=
  join [newline]
    [lit "Generate a detailed, SEO-optimized schema in JSON-LD format following schema.org guidelines.";
     lit "                    Ensure that the schema is generic enough to cover diverse content types but also includes the following aspects where applicable:";
     lit "                    ";
     lit "                    - Use the most relevant schema type (e.g., `Article`, `Recipe`, `Event`, `Product`) based on the provided content.";
     lit "                    - Include key properties specific to the schema type (e.g., `author`, `datePublished`, `headline` for `Article`; `prepTime`, `cookTime`, `recipeIngredient`, `rating` for `Recipe`).";
     lit "                    -Make sure that you do not add anything extra other than the content or modify the content.";
     lit "                    - Include at least 15 SEO-friendly keywords extracted from the content.";
     lit "                    - Ensure that the schema includes `@context`, `@type`, `url`, and `description` fields at a minimum.";
     lit "                    - Include additional fields such as `mainEntityOfPage`, `image`, `publisher`, or `offers` when relevant.";
     lit "                    - The output MUST be valid JSON-LD with proper syntax and double quotes.";
     lit "                    ";
     lit "                    Extract all relevant information from this content";
     lit "                        " ++ text_content].

(** The comparison prompt of [app.py] (lines 122-132). *)
Definition compare_prompt_app (user_schema : str) (generated_schema : str) : str :=
  join [newline]
    [lit "Compare the following two JSON-LD schemas and provide an accuracy score. ";
     lit "            The accuracy score should reflect how closely the user schema matches the generated schema.";
     lit "            Provide the score as a percentage and list the missing or additional fields in the user schema compared to the generated schema.";
     [];
     lit "        User Schema:";
     lit "        " ++ user_schema;
     [];
     lit "        Generated Schema:";
     lit "        " ++ generated_schema;
     [];
     lit "        Return the accuracy score as a percentage and list the missing or additional fields."].

(** The comparison prompt of [json-id-generator.py] (lines 249-259). *)
Definition compare_prompt_retry (user_schema : str) (generated_schema : str) : str :=
  join [newline]
    [lit "Compare the following two JSON-LD schemas and provide an accuracy score.";
     lit "            The accuracy score should reflect how closely the user schema matches the generated schema.";
     lit "            Provide the score as a percentage and list the missing or additional fields in the user schema compared to the generated schema.";
     lit " ";
     lit "        User Schema:";
     lit "        " ++ user_schema;
     lit " ";
     lit "        Generated Schema:";
     lit "        " ++ generated_schema;
     lit " ";
     lit "        Return the accuracy score as a percentage and list the missing or additional fields."].

(* ================================================================== *)
(** * The code of the repository *)

(** ** Text sanitizer ([sanitize_text], both files) *)

(** [text.encode('utf-8', 'ignore')]: every character of a modelled text is
    encodable, in one byte below 128 and in two from there on. *)
Definition encode_utf8_ignore (text : str) : list N :=
  flat_map (fun c =>
              let n := N_of_ascii c in
              if (n <? 128)%N then [n]
              else [192 + n / 64; 128 + n mod 64]%N) text.

Definition UnicodeDecodeError : exn :=
  {| exn_class := lit "UnicodeDecodeError";
     exn_str := lit "'utf-8' codec can't decode bytes" |}.

(** [bytes.decode('utf-8')] on sequences of one and two bytes that denote
    a code point below 256; anything else is reported as an error. *)
Fixpoint decode_utf8 (bytes : list N) : exn + str :=
  match bytes with
  | [] => inr []
  | b :: rest =>
      if (b <? 128)%N then
        match decode_utf8 rest with
        | inr s => inr (ascii_of_N b :: s)
        | inl e => inl e
        end
      else
        match rest with
        | b2 :: rest' =>
            if ((194 <=? b) && (b <=? 195) && (128 <=? b2) && (b2 <=? 191))%N
            then match decode_utf8 rest' with
                 | inr s => inr (ascii_of_N ((b - 192) * 64 + (b2 - 128)) :: s)
                 | inl e => inl e
                 end
            else inl UnicodeDecodeError
        | [] => inl UnicodeDecodeError
        end
  end.

Definition sanitize_text (text : str) : M str :=
  match decode_utf8 (encode_utf8_ignore text) with
  | inr s => ret s
  | inl e => raise e
  end.

(** ** Token counter ([json-id-generator.py], [calculate_tokens]) *)

(** [len(text.split())]. *)
Definition calculate_tokens (text : str) : nat := length (split_ws text).

(** ** Static content extractor ([app.py], [extract_text_from_web]) *)

Definition user_agent_app : str :=
  lit "Mozilla/5.0 (Windows NT 10.0; Win64; x64) AppleWebKit/537.36 (KHTML, like Gecko) Chrome/58.0.3029.110 Safari/537.3".

(** The body of [for tag in soup.find_all(text=True)]. *)
Definition append_tag_text (formatted_text : str) (tag : node) : M str :=
  if name_is tag (lit "p") then
    text <- sanitize_text (get_text tag) ;;
    ret (formatted_text ++ [newline] ++ text ++ [newline])
  else
    text <- sanitize_text (get_text tag) ;;
    let formatted_text2 := join (lit " ") (split_ws text) in
    ret (formatted_text ++ formatted_text2).

Fixpoint fold_tags (tags : list node) (formatted_text : str) : M str :=
  match tags with
  | [] => ret formatted_text
  | tag :: rest =>
      formatted_text' <- append_tag_text formatted_text tag ;;
      fold_tags rest formatted_text'
  end.

(** [[img['src'] for img in soup.find_all('img') if 'src' in img.attrs]]. *)
Definition image_sources (soup : list node) : list str :=
  flat_map (fun img =>
              match img with
              | Element _ attrs _ =>
                  match attr_get attrs (lit "src") with
                  | Some src => [src]
                  | None => []
                  end
              | Text _ => []
              end)
           (find_all soup (fun n => name_is n (lit "img"))).

Definition extract_text_from_web (web : http_server) (parse : html_parser)
           (url : str) : M str :=
  let headers := [(lit "User-Agent", user_agent_app)] in
  content <- requests_get web url headers 10 ;;
  let soup := parse content in
  let images := image_sources soup in
  formatted_text <- fold_tags (find_all_text soup) [] ;;
  ret (formatted_text ++ join (lit " ") images).

Section Pipeline.

Context {FM : FloatModel}.

(** ** JSON passthrough extractor ([extract_text_from_json], both files) *)

Definition extract_text_from_json (json_content : str) : M (option str) :=
  match json_loads json_content with
  | inr content => ret (Some (json_dumps content))
  | inl e =>
      logging_error (lit "Error parsing JSON: " ++ str_JSONDecodeError e) ;;
      ret None
  end.

(** ** Schema generator *)

(** The error-marker form of a result: [{"error": msg}]. *)
Definition error_marker (msg : str) : pyval FM :=
  PyDict [(cps (lit "error"), PyStr (cps msg))].

(** Truth value of [user_prompt], a [str] or [None]. *)
Definition truthy (s : option str) : bool :=
  match s with
  | Some (_ :: _) => true
  | _ => false
  end.

Definition text_of (s : option str) : str :=
  match s with
  | Some t => t
  | None => lit "None"
  end.

Definition user_prompt_template (user_prompt text_content : str) : str :=
  user_prompt ++ [newline; newline]
  ++ lit "Extract all relevant information from this content:" ++ [newline]
  ++ text_content ++ [newline; newline]
  ++ lit "Return ONLY the JSON-LD schema, nothing else. Ensure all JSON is properly formatted with double quotes.".

Definition schema_system_message : str :=
  lit "You are a 20+ years experienced schema generator for better SEO for websites. ".

Definition compare_system_message : str :=
  lit "You are an AI assistant that compares JSON-LD schemas and provides an accuracy score and detailed comparision.".

(** The request both generators and both comparators send: the sampling
    parameters are fixed, only the messages vary. *)
Definition make_request (deployment system prompt : str) : completion_request :=
  {| req_model := deployment;
     req_messages := [(lit "system", system); (lit "user", prompt)];
     req_max_tokens := 3000;
     req_temperature := 0;
     req_top_p := 0.95;
     req_frequency_penalty := 0;
     req_presence_penalty := 0;
     req_stream := false |}.

(** Lines 89-114 of [app.py] and 214-239 of [json-id-generator.py]: the
    request and the handling of the response, inside the enclosing [try]. *)
Definition request_and_parse (client : llm_client) (deployment prompt : str)
  : M (pyval FM) :=
  completion <- chat_completions_create client
                  (make_request deployment schema_system_message prompt) ;;
  match completion with
  | None => raise (AttributeError (lit "'NoneType' object has no attribute 'find'"))
  | Some response =>
      let json_start := find response "{" in
      let json_end := (rfind response "}" + 1)%Z in
      if (json_start =? -1)%Z || (json_end =? 0)%Z then
        raise (ValueError (lit "No valid JSON found in response"))
      else
        let schema_json := slice response json_start json_end in
        match json_loads schema_json with
        | inr schema => ret schema
        | inl e =>
            logging_error (lit "Error parsing JSON: " ++ str_JSONDecodeError e) ;;
            ret (error_marker (lit "Invalid JSON format in response"))
        end
  end.

End Pipeline.

(** ** Schema comparator: reading the narrative
    (lines 157-175 of [app.py], 284-302 of [json-id-generator.py]) *)

(** A match of [(\d+(\.\d+)?)%] that starts at the head of [s]: group 1. *)
Definition match_percentage_at (s : str) : option str :=
  match span_digits s with
  | ([], _) => None
  | (ds, "%"%char :: _) => Some ds
  | (ds, "."%char :: r1) =>
      match span_digits r1 with
      | ((_ :: _) as fs, "%"%char :: _) => Some (ds ++ "."%char :: fs)
      | _ => None
      end
  | _ => None
  end.

(** [re.search(r'(\d+(\.\d+)?)%', s)]: group 1 of the leftmost match. *)
Fixpoint re_search_percentage (s : str) : option str :=
  match s with
  | [] => None
  | _ :: s' =>
      match match_percentage_at s with
      | Some g => Some g
      | None => re_search_percentage s'
      end
  end.

(** The characters up to the end of the line: what [.+] can take. *)
Fixpoint rest_of_line (s : str) : str :=
  match s with
  | c :: s' => if Ascii.eqb c newline then [] else c :: rest_of_line s'
  | [] => []
  end.

(** [re.findall(prefix + '(.+)', s)] for a literal [prefix]: the rest of
    the line after each match of the prefix; the search resumes after the
    match, which [skip] counts down to. *)
Fixpoint findall_from (prefix : str) (s : str) (skip : nat) : list str :=
  match s with
  | [] => []
  | _ :: s' =>
      match skip with
      | S k => findall_from prefix s' k
      | O =>
          if starts_with prefix s then
            match rest_of_line (skipn (length prefix) s) with
            | [] => findall_from prefix s' 0
            | line =>
                line :: findall_from prefix s' (length prefix + length line - 1)
            end
          else findall_from prefix s' 0
      end
  end.

Definition re_findall_line (prefix : str) (s : str) : list str :=
  findall_from prefix s 0.

Section Comparator.

Context {FM : FloatModel}.

Definition str_list (l : list str) : pyval FM :=
  PyList (map (fun s => PyStr (cps s)) l).

Definition read_comparison (completion : option str) : M (pyval FM) :=
  match completion with
  | None =>
      raise (TypeError (lit "expected string or bytes-like object, got 'NoneType'"))
  | Some response =>
      match re_search_percentage response with
      | Some group1 =>
          let accuracy := float_of_literal group1 in
          let missing_fields := re_findall_line (lit "Missing fields: ") response in
          let additional_fields :=
            re_findall_line (lit "Additional fields: ") response in
          ret (PyDict
                 [(cps (lit "accuracy"), PyFloat accuracy);
                  (cps (lit "missing_fields"), str_list missing_fields);
                  (cps (lit "additional_fields"), str_list additional_fields);
                  (cps (lit "detailed_comparison"), PyStr (cps response))])
      | None =>
          raise (ValueError (lit "No valid accuracy score found in response"))
      end
  end.

(** [compare_schemas] of either file, given the file's prompt. *)
Definition compare_schemas_with (prompt : str -> str -> str)
           (client : llm_client) (deployment user_schema generated_schema : str)
  : M (pyval FM) :=
  try_except
    (completion <- chat_completions_create client
                     (make_request deployment compare_system_message
                                   (prompt user_schema generated_schema)) ;;
     read_comparison completion)
    (fun e =>
       logging_error (lit "Error comparing schemas: " ++ exn_str e) ;;
       ret (error_marker (exn_str e))).

End Comparator.

(** ** [app.py] *)
Module App.
Section WithFloat.

Context {FM : FloatModel}.

(** [generate_schema]: one request, every exception turned into an
    error marker. *)
Definition generate_schema (client : llm_client) (deployment text_content : str)
           (url user_prompt : option str) : M (pyval FM) :=
  try_except
    (let prompt :=
       if truthy user_prompt
       then user_prompt_template (text_of user_prompt) text_content
       else default_prompt_app text_content in
     request_and_parse client deployment prompt)
    (fun e =>
       logging_error (lit "Error generating schema: " ++ exn_str e) ;;
       ret (error_marker (exn_str e))).

Definition compare_schemas : llm_client -> str -> str -> str -> M (pyval FM) :=
  compare_schemas_with compare_prompt_app.

End WithFloat.
End App.

(** ** [json-id-generator.py] *)
Module JsonIdGenerator.
Section WithFloat.

Context {FM : FloatModel}.

(** The loop [for attempt in range(retries)]: an attempt either returns
    from the function or fails, is logged, waits and falls through. *)
Fixpoint attempts_loop (client : llm_client) (deployment text_content : str)
         (user_prompt : option str) (attempts : list Z) : M (pyval FM) :=
  match attempts with
  | [] =>
      ret (error_marker (lit "Failed to generate schema after multiple attempts"))
  | attempt :: rest =>
      returned <-
        try_except
          (let prompt :=
             if truthy user_prompt
             then user_prompt_template (text_of user_prompt) text_content
             else default_prompt_retry text_content in
           schema <- request_and_parse client deployment prompt ;;
           ret (Some schema))
          (fun e =>
             logging_error (lit "Attempt " ++ Z_to_str (attempt + 1)
                            ++ lit " failed: " ++ exn_str e) ;;
             sleep 2 ;;
             ret None) ;;
      match returned with
      | Some schema => ret schema
      | None => attempts_loop client deployment text_content user_prompt rest
      end
  end.

(** [range(n)]. *)
Definition range (n : Z) : list Z := map Z.of_nat (seq 0 (Z.to_nat n)).

Definition generate_schema (client : llm_client) (deployment text_content : str)
           (url user_prompt : option str) (retries : Z) : M (pyval FM) :=
  attempts_loop client deployment text_content user_prompt (range retries).

(** The default [retries=3]. *)
Definition default_retries : Z := 3.

Definition compare_schemas : llm_client -> str -> str -> str -> M (pyval FM) :=
  compare_schemas_with compare_prompt_retry.

End WithFloat.
End JsonIdGenerator.

(** ** Dynamic content extractor ([AdvancedWebContentExtractor]) *)
Module AdvancedWebContentExtractor.

(** An instance: [self.url] and [self.driver].  The driver is the object
    that [__init__] stored; as an object it is true in [if self.driver]. *)
Record extractor := {
  url : str;
  driver : web_driver
}.

Definition chrome_arguments : list str :=
  [lit "--headless"; lit "--disable-gpu"; lit "--no-sandbox";
   lit "--disable-dev-shm-usage"; lit "--window-size=1920,1080";
   lit "user-agent=Mozilla/5.0 (Windows NT 10.0; Win64; x64) AppleWebKit/537.36 (KHTML, like Gecko) Chrome/110.0.0.0 Safari/537.36"].

(** [webdriver.Chrome(options=...)]: a running browser, or the failure to
    start one. *)
Definition chrome := trace -> list str -> exn + web_driver.

Definition setup_webdriver (launch : chrome) : M web_driver :=
  fun t =>
    let t' := t ++ [ChromeStart chrome_arguments] in
    match launch t chrome_arguments with
    | inl e => (Raise e, t')
    | inr d => (Return d, t')
    end.

(** [__init__]. *)
Definition init (launch : chrome) (url : str) : M extractor :=
  d <- setup_webdriver launch ;;
  ret {| url := url; driver := d |}.

Definition expansion_strategies : list str :=
  [lit "//a[@data-toggle='collapse']";
   lit "//a[contains(@class, 'collapsed')]";
   lit "//a[contains(@class, 'icon-angle-right')]";
   lit "//a[@aria-expanded='false']";
   lit "//button[contains(@class, 'accordion-button')]"].

Definition scroll_script : str := lit "arguments[0].scrollIntoView(true);".
Definition click_script : str := lit "arguments[0].click();".

(** The body of [for element in collapsible_elements]. *)
Definition expand_element (self : extractor) (element : web_element) : M unit :=
  try_except
    (driver_execute_script (driver self) scroll_script element ;;
     sleep 0.5 ;;
     driver_execute_script (driver self) click_script element ;;
     sleep 1)
    (fun click_error =>
       print (lit "Click error with element: " ++ exn_str click_error)).

(** The body of [for strategy in expansion_strategies]. *)
Definition run_strategy (self : extractor) (strategy : str) : M unit :=
  try_except
    (collapsible_elements <- driver_find_elements (driver self) strategy ;;
     for_each collapsible_elements (expand_element self))
    (fun strategy_error =>
       print (lit "Strategy failed: " ++ exn_str strategy_error)).

Definition expand_all_collapsible_sections (self : extractor) : M unit :=
  try_except
    (driver_get (driver self) (url self) ;;
     sleep 2 ;;
     for_each expansion_strategies (run_strategy self) ;;
     sleep 3)
    (fun e => print (lit "Expansion error: " ++ exn_str e)).

(** [needle in hay]. *)
Fixpoint contains (needle hay : str) : bool :=
  starts_with needle hay
  || match hay with
     | [] => false
     | _ :: hay' => contains needle hay'
     end.

(** The filter [lambda x: x and any(keyword in str(x) for keyword in
    keywords)]. *)
Definition class_filter (keywords : list str) (x : option str) : bool :=
  match x with
  | Some ((_ :: _) as value) => existsb (fun keyword => contains keyword value) keywords
  | _ => false
  end.

(** [find_all(name, class_=f)]: the filter is tried on each class of the
    tag and then on the whole class list joined by spaces; a tag without
    a class attribute presents [None]. *)
Definition has_class (keywords : list str) (n : node) : bool :=
  match n with
  | Element _ attrs _ =>
      match attr_get attrs (lit "class") with
      | Some value =>
          let classes := split_ws value in
          existsb (fun c => class_filter keywords (Some c)) classes
          || class_filter keywords (Some (join (lit " ") classes))
      | None => class_filter keywords None
      end
  | Text _ => false
  end.

Definition name_in (names : list str) (n : node) : bool :=
  existsb (name_is n) names.

Definition content_selectors (soup : list node) : list (str * list node) :=
  [(lit "Paragraphs", find_all soup (name_in [lit "p"]));
   (lit "Headings",
    find_all soup (name_in [lit "h1"; lit "h2"; lit "h3"; lit "h4"; lit "h5"; lit "h6"]));
   (lit "Divs",
    find_all soup (fun n => name_in [lit "div"] n
                            && has_class [lit "content"; lit "text"; lit "description"] n));
   (lit "Spans",
    find_all soup (fun n => name_in [lit "span"] n
                            && has_class [lit "text"; lit "content"] n));
   (lit "Articles", find_all soup (name_in [lit "article"]));
   (lit "Sections", find_all soup (name_in [lit "section"]))].

(** A category-to-texts mapping, in insertion order. *)
Definition contents := list (str * list str).

Definition extract_comprehensive_contents (parse : html_parser)
           (self : extractor) : M contents :=
  try_except
    (page_source <- driver_page_source (driver self) ;;
     let soup := parse page_source in
     ret (map (fun sel =>
                 (fst sel,
                  filter (fun text => negb (str_eqb text []))
                         (map get_text_strip (snd sel))))
              (content_selectors soup)))
    (fun e =>
       print (lit "Comprehensive extraction error: " ++ exn_str e) ;;
       ret []).

(** The result is [{'contents': extracted_contents}] or [None]. *)
Definition comprehensive_extraction (parse : html_parser) (self : extractor)
  : M (option (list (str * contents))) :=
  try_finally
    (try_except
       (expand_all_collapsible_sections self ;;
        extracted_contents <- extract_comprehensive_contents parse self ;;
        ret (Some [(lit "contents", extracted_contents)]))
       (fun e =>
          print (lit "Comprehensive extraction error: " ++ exn_str e) ;;
          ret None))
    (driver_quit (driver self)).

End AdvancedWebContentExtractor.

(* ================================================================== *)
(** * A float model of unbounded precision

    A finite float is a sign, a decimal mantissa and a decimal exponent;
    nothing is rounded.  It serves to run the code on examples. *)

Inductive decimal :=
| Dec (negative : bool) (mantissa : N) (exponent : Z)
| DecInf
| DecNegInf
| DecNaN.

Definition parse_exponent (s : str) : Z :=
  match s with
  | c :: ds =>
      if Ascii.eqb c "+" then Z.of_N (digits_value ds)
      else if Ascii.eqb c "-" then (- Z.of_N (digits_value ds))%Z
      else Z.of_N (digits_value s)
  | [] => 0%Z
  end.

Definition literal_sign (text : str) : bool * str :=
  match text with
  | c :: t =>
      if Ascii.eqb c "-" then (true, t)
      else if Ascii.eqb c "+" then (false, t)
      else (false, text)
  | [] => (false, [])
  end.

Definition literal_fraction (s2 : str) : str * str :=
  match s2 with
  | c :: t => if Ascii.eqb c "." then span_digits t else ([], s2)
  | [] => ([], [])
  end.

Definition literal_exponent (s3 : str) : Z :=
  match s3 with
  | c :: t => if Ascii.eqb c "e" || Ascii.eqb c "E" then parse_exponent t else 0%Z
  | [] => 0%Z
  end.

Definition decimal_of_literal (text : str) : decimal :=
  let (negative, s1) := literal_sign text in
  let (ip, s2) := span_digits s1 in
  let (fp, s3) := literal_fraction s2 in
  Dec negative (digits_value (ip ++ fp))
      (literal_exponent s3 - Z.of_nat (length fp)).

Definition decimal_repr (d : decimal) : str :=
  match d with
  | Dec negative m e =>
      (if negative then lit "-" else []) ++ N_to_str m ++ lit "e" ++ Z_to_str e
  | DecInf => lit "inf"
  | DecNegInf => lit "-inf"
  | DecNaN => lit "nan"
  end.

Definition decimal_class (d : decimal) : float_class :=
  match d with
  | Dec _ _ _ => FFinite
  | DecInf => FPosInf
  | DecNegInf => FNegInf
  | DecNaN => FNaN
  end.

Definition exact_decimal : FloatModel :=
  {| float := decimal;
     float_of_literal := decimal_of_literal;
     float_repr := decimal_repr;
     float_inf := DecInf;
     float_neg_inf := DecNegInf;
     float_nan := DecNaN;
     classify := decimal_class |}.

(* ================================================================== *)
(** * Observations on traces *)

Definition is_completion_request (ev : event) : bool :=
  match ev with ChatCompletion _ => true | _ => false end.

Definition is_sleep (ev : event) : bool :=
  match ev with Sleep _ => true | _ => false end.

Definition is_quit (ev : event) : bool :=
  match ev with DriverQuit => true | _ => false end.

(** The number of completion requests in a stretch of events. *)
Definition count_requests (evs : list event) : nat :=
  length (filter is_completion_request evs).

(** The locator strategies tried, in order. *)
Definition strategies_tried (evs : list event) : list str :=
  flat_map (fun ev => match ev with FindElements xpath => [xpath] | _ => [] end) evs.

(** The elements on which a given script was run, in order. *)
Definition script_targets (script : str) (evs : list event) : list web_element :=
  flat_map (fun ev =>
              match ev with
              | ExecuteScript s element => if str_eqb s script then [element] else []
              | _ => []
              end) evs.

(** What a stretch of events says about the expand phase. *)
Record expand_view := {
  view_quits : list event;
  view_strategies : list str;
  view_scrolled : list web_element
}.

Definition view (evs : list event) : expand_view :=
  {| view_quits := filter is_quit evs;
     view_strategies := strategies_tried evs;
     view_scrolled := script_targets AdvancedWebContentExtractor.scroll_script evs |}.

(** One failed attempt of the retrying generator, as it shows in the
    trace: the request, the log entry, the wait of two seconds. *)
Definition failed_attempt (evs : list event) : Prop :=
  exists request msg, evs = [ChatCompletion request; LogError msg; Sleep 2].

(** ** The generators, seen from the response *)

Section ResponseHandling.

Context {FM : FloatModel}.

(** The prompt that either generator sends. *)
Definition app_prompt (text_content : str) (user_prompt : option str) : str :=
  if truthy user_prompt
  then user_prompt_template (text_of user_prompt) text_content
  else default_prompt_app text_content.

Definition retry_prompt (text_content : str) (user_prompt : option str) : str :=
  if truthy user_prompt
  then user_prompt_template (text_of user_prompt) text_content
  else default_prompt_retry text_content.

(** What the handling of a response comes to: the exception it raises
    inside the [try], or the value it returns, with the log entries. *)
Definition handle_response (content : option str)
  : result (pyval FM) * list event :=
  match content with
  | None =>
      (Raise (AttributeError (lit "'NoneType' object has no attribute 'find'")), [])
  | Some response =>
      if (find response "{" =? -1)%Z || (rfind response "}" + 1 =? 0)%Z
      then (Raise (ValueError (lit "No valid JSON found in response")), [])
      else
        match json_loads (slice response (find response "{")
                                (rfind response "}" + 1)) with
        | inr schema => (Return schema, [])
        | inl e =>
            (Return (error_marker (lit "Invalid JSON format in response")),
             [LogError (lit "Error parsing JSON: " ++ str_JSONDecodeError e)])
        end
  end.

End ResponseHandling.

(** ** The percentage pattern, stated on its own

    A word of the language of [\d+(\.\d+)?%], and a text that holds one. *)

Definition digits (s : str) : Prop := s <> [] /\ Forall (fun c => is_digit c = true) s.

Inductive percentage_word : str -> Prop :=
| percentage_integer ds :
    digits ds -> percentage_word (ds ++ lit "%")
| percentage_decimal ds fs :
    digits ds -> digits fs -> percentage_word (ds ++ lit "." ++ fs ++ lit "%").

Definition contains_percentage (s : str) : Prop :=
  exists pre word post, s = pre ++ word ++ post /\ percentage_word word.

(** ** Inputs for the examples *)

(** A client whose every request fails in transport. *)
Definition failing_client : llm_client :=
  fun _ _ =>
    RequestFails {| exn_class := lit "APIConnectionError";
                    exn_str := lit "Connection error." |}.

(** A client that answers every request with the same text. *)
Definition replying_client (response : str) : llm_client :=
  fun _ _ => Content (Some response).

Definition quoted (s : str) : str := dquote :: s ++ [dquote].

(** [Sure! {"@context":"https://schema.org"} Hope that helps]. *)
Definition context_member : str :=
  quoted (lit "@context") ++ lit ":" ++ quoted (lit "https://schema.org").

Definition prose_response : str :=
  lit "Sure! " ++ (lit "{" ++ context_member ++ lit "}") ++ lit " Hope that helps".

(** The narrative of the spec's comparison example. *)
Definition narrative_example : str :=
  lit "...87.5% match... Missing fields: author, datePublished Additional fields: None".

Definition WebDriverException (msg : str) : exn :=
  {| exn_class := lit "WebDriverException"; exn_str := msg |}.


(** A browser on a page where the first strategy matches the elements 1
    and 2, the click on element 1 raises, the second strategy is rejected,
    the third and fourth match nothing and the fifth matches element 3; the
    page source cannot be read. *)
Definition flaky_driver : web_driver :=
  {| drv_get := fun _ _ => None;
     drv_find_elements := fun _ xpath =>
       if str_eqb xpath (lit "//a[@data-toggle='collapse']") then inr [1; 2]
       else if str_eqb xpath (lit "//a[contains(@class, 'collapsed')]")
            then inl (WebDriverException (lit "invalid selector"))
       else if str_eqb xpath (lit "//button[contains(@class, 'accordion-button')]")
            then inr [3]
       else inr [];
     drv_execute_script := fun _ script element =>
       if str_eqb script (lit "arguments[0].click();") && (element =? 1)
       then Some (WebDriverException (lit "element not interactable"))
       else None;
     drv_page_source := fun _ => inl (WebDriverException (lit "session deleted"));
     drv_quit := fun _ => None |}.

Definition extractor_on (d : web_driver) : AdvancedWebContentExtractor.extractor :=
  {| AdvancedWebContentExtractor.url := lit "https://example.com/";
     AdvancedWebContentExtractor.driver := d |}.


(** A document on one line:
    [{"a": [1, -2.5e3, "x\u00e9", null], "b": {}}]. *)
Definition compact_document : str :=
  lit "{" ++ quoted (lit "a") ++ lit ": [1, -2.5e3, "
  ++ quoted (lit "x\u00e9") ++ lit ", null], " ++ quoted (lit "b") ++ lit ": {}}".

Definition compact_content : pyval exact_decimal :=
  PyDict [(cps (lit "a"),
           PyList [PyInt 1; PyFloat (FM := exact_decimal) (Dec true 25 2);
                   PyStr [120%N; 233%N]; PyNone]);
          (cps (lit "b"), PyDict [])].

(** A page with two paragraphs and two images, one of them without [src]:
    [<html><body><p>Hello world</p><p>Second  paragraph</p>
    <img src="a.png"><img alt="x"></body></html>]. *)
Definition two_paragraphs : list node :=
  [Element (lit "html") []
     [Element (lit "body") []
        [Element (lit "p") [] [Text (lit "Hello world")];
         Element (lit "p") [] [Text (lit "Second  paragraph")];
         Element (lit "img") [(lit "src", lit "a.png")] [];
         Element (lit "img") [(lit "alt", lit "x")] []]]].

(** A server that answers every request, and a parser that yields the page
    above. *)
Definition serving (body : str) : http_server := fun _ _ => inr body.

Definition parsing_to (soup : list node) : html_parser := fun _ => soup.


(** What the static extractor does with one string: its words, joined by
    single spaces. *)
Definition collapse (s : str) : str := join (lit " ") (split_ws s).

(** ** The decoder and the encoder, seen by the proofs *)

(** One escape sequence, read after its backslash: the character it
    denotes and what follows, or the error [scanstring] reports. *)
Inductive escape :=
| Escaped (cp : N) (rest : str)
| EscapeError (msg : str) (remaining : nat)
| EscapeUnterminated.

Definition scan_escape (s1 : str) : escape :=
  match s1 with
  | [] => EscapeUnterminated
  | esc :: s2 =>
      if negb (Ascii.eqb esc "u") then
        match backslash_escape esc with
        | Some ch => Escaped ch s2
        | None => EscapeError (lit "Invalid \escape") (S (length s1))
        end
      else
        match s2 with
        | h1 :: h2 :: h3 :: h4 :: s3 =>
            match hex4 h1 h2 h3 h4 with
            | None => EscapeError invalid_uXXXX (length s1)
            | Some uni =>
                if is_high_surrogate uni then
                  match s3 with
                  | b :: u :: s4 =>
                      if Ascii.eqb b backslash && Ascii.eqb u "u" then
                        match s4 with
                        | g1 :: g2 :: g3 :: g4 :: s5 =>
                            match hex4 g1 g2 g3 g4 with
                            | None => EscapeError invalid_uXXXX (S (length s4))
                            | Some uni2 =>
                                if is_low_surrogate uni2
                                then Escaped (join_surrogates uni uni2) s5
                                else Escaped uni s3
                            end
                        | _ => EscapeError invalid_uXXXX (S (length s4))
                        end
                      else Escaped uni s3
                  | _ => Escaped uni s3
                  end
                else Escaped uni s3
            end
        | _ => EscapeError invalid_uXXXX (length s1)
        end
  end.

(** Whether the text after a [\uXXXX] escape of a high surrogate makes
    the decoder look for a low one: a second [\u] that is cut short, is
    not hexadecimal, or is a low surrogate. *)
Definition pair_follows (s3 : str) : bool :=
  match s3 with
  | b :: u :: s4 =>
      if Ascii.eqb b backslash && Ascii.eqb u "u" then
        match s4 with
        | g1 :: g2 :: g3 :: g4 :: _ =>
            match hex4 g1 g2 g3 g4 with
            | Some uni2 => is_low_surrogate uni2
            | None => true
            end
        | _ => true
        end
      else false
  | _ => false
  end.

(** The character that [scanstring] would take next from [s], if any. *)
Definition next_cp (s : str) : option N :=
  match s with
  | [] => None
  | c :: s1 =>
      if Ascii.eqb c dquote then None
      else if Ascii.eqb c backslash then
        match scan_escape s1 with
        | Escaped cp _ => Some cp
        | _ => None
        end
      else if (N_of_ascii c <? 32)%N then None
      else Some (N_of_ascii c)
  end.

Definition not_low (x : option N) : Prop :=
  match x with
  | Some cp => is_low_surrogate cp = false
  | None => True
  end.

(** A string as the decoder builds them: code points up to U+10FFFF, and no
    high surrogate directly before a low one (the decoder joins such a
    pair). *)
Fixpoint unpaired (s : list N) : Prop :=
  match s with
  | a :: (b :: _) as s' =>
      (is_high_surrogate a = true -> is_low_surrogate b = false) /\ unpaired s'
  | _ => True
  end.

Definition wf_string (s : list N) : Prop :=
  Forall (fun cp => (cp <= 1114111)%N) s /\ unpaired s.

Section WellFormed.

Context {FM : FloatModel}.

(** A value as the decoder builds them: well-formed strings, and no key
    twice in a dict. *)
Fixpoint wf (v : pyval FM) : Prop :=
  match v with
  | PyStr s => wf_string s
  | PyList items => fold_right (fun x acc => wf x /\ acc) True items
  | PyDict items =>
      NoDup (map fst items)
      /\ fold_right (fun kv acc => wf_string (fst kv) /\ wf (snd kv) /\ acc)
                    True items
  | _ => True
  end.

(** What the round trip needs of the floats: the [repr] of a finite float
    is a JSON number with a fraction or an exponent that reads back as the
    same float, and each non-finite class has one member. *)
Record FloatLaws : Prop := {
  repr_reads_back :
    forall f,
      classify f = FFinite ->
      exists integer frac exp,
        match_number (float_repr f) = Some (integer, frac, exp, [])
        /\ (frac <> [] \/ exp <> [])
        /\ float_of_literal (integer ++ frac ++ exp) = f;
  one_inf : forall f, classify f = FPosInf -> f = float_inf;
  one_neg_inf : forall f, classify f = FNegInf -> f = float_neg_inf;
  one_nan : forall f, classify f = FNaN -> f = float_nan
}.

End WellFormed.

Arguments FloatLaws : clear implicits.

(** What may follow a number without being taken for a part of it. *)
Definition ends_number (rest : str) : Prop :=
  match rest with
  | [] => True
  | c :: _ =>
      is_digit c = false
      /\ Ascii.eqb c "." = false
      /\ (Ascii.eqb c "e" || Ascii.eqb c "E") = false
      /\ (Ascii.eqb c "-" || Ascii.eqb c "+") = false
  end.

(** What may follow a value in the encoder's output: nothing, a comma or a
    newline. *)
Definition delimited (rest : str) : Prop :=
  match rest with
  | [] => True
  | c :: _ => c = ","%char \/ c = newline
  end.

(** What follows the first item of an array or of an object in the
    encoder's output: each further item after the separator, then the
    closing text. *)
Definition items_tail (sep close : str) (items : list str) : str :=
  fold_right (fun item acc => sep ++ item ++ acc) close items.

Section ReadsBack.

Context {FM : FloatModel}.

(** A value that the decoder reads back from its encoding, at any depth of
    indentation and before any delimiter, given fuel enough. *)
Definition reads_back (v : pyval FM) : Prop :=
  forall level rest,
    delimited rest ->
    exists n, forall fuel, n <= fuel ->
      scan_once fuel (iterencode v level ++ rest) = Scanned v rest.

(** One member of an object as the encoder writes it. *)
Definition encode_member (level : nat) (kv : list N * pyval FM) : str :=
  encode_basestring_ascii (fst kv) ++ lit ": " ++ iterencode (snd kv) (S level).

End ReadsBack.

(** ** The retrying generator, attempt by attempt *)

Section Attempts.

Context {FM : FloatModel}.

(** The answer to a request makes the attempt fail with [e]: the request
    itself raises, or the handling of its response does. *)
Definition attempt_raises (answer : completion) (e : exn) : Prop :=
  answer = RequestFails e
  \/ exists content,
       answer = Content content
       /\ fst (handle_response (FM := FM) content) = Raise e.

End Attempts.

(** The events of consecutive failed attempts, the first of them numbered
    [attempt]: each is the request, the log entry with the attempt's number
    and the wait. *)
Fixpoint failed_attempts (request : completion_request) (attempt : Z)
         (failures : list exn) : list event :=
  match failures with
  | [] => []
  | e :: rest =>
      [ChatCompletion request;
       LogError (lit "Attempt " ++ Z_to_str (attempt + 1) ++ lit " failed: "
                 ++ exn_str e);
       Sleep 2]
      ++ failed_attempts request (attempt + 1) rest
  end.


(** ** Time spent waiting *)

(** The seconds of [time.sleep] in a stretch of events. *)
Definition slept (evs : list event) : Q :=
  fold_right (fun ev acc => match ev with Sleep s => (s + acc)%Q | _ => acc end)
             0%Q evs.

(** The number of elements scrolled to, as a number of seconds can be
    compared with it. *)
Definition scrolled (evs : list event) : Q :=
  inject_Z (Z.of_nat (length (script_targets
                                AdvancedWebContentExtractor.scroll_script evs))).

(** What the expand phase keeps to, element after element: it waits at
    most a second and a half for each element it scrolled to, and clicks
    only on elements it scrolled to. *)
Definition paced (evs : list event) : Prop :=
  (0 <= slept evs <= (3 # 2) * scrolled evs)%Q
  /\ incl (script_targets AdvancedWebContentExtractor.click_script evs)
          (script_targets AdvancedWebContentExtractor.scroll_script evs).

(** ** Trimmed texts *)

(** A text without whitespace at either end. *)
Definition trimmed (s : str) : Prop :=
  (forall c rest, s = c :: rest -> py_isspace c = false)
  /\ (forall c rest, s = rest ++ [c] -> py_isspace c = false).

Definition blank (s : str) : Prop := Forall (fun c => py_isspace c = true) s.

(** ** The listed fields *)

(** What [re.findall] collects for a literal followed by [(.+)]. *)
Definition line_rest_after (prefix text field : str) : Prop :=
  field <> []
  /\ ~ In newline field
  /\ exists before after,
      text = before ++ prefix ++ field ++ after
      /\ (after = [] \/ exists after', after = newline :: after').

(* ================================================================== *)
(** * Properties *)

Unset Implicit Arguments.

(** Traces and texts are compared up to the bracketing of [++]. *)
Ltac trace_eq :=
  cbv beta iota zeta; repeat rewrite <- app_assoc; cbn [app]; reflexivity.

Ltac str_eq :=
  cbn [lit list_ascii_of_string];
  repeat (rewrite <- app_assoc || rewrite <- app_comm_cons);
  cbn [app]; reflexivity.

Lemma count_requests_failed (groups : list (list event)) :
  Forall failed_attempt groups ->
  count_requests (concat groups) = length groups.
Proof.
  induction 1 as [|g gs Hg _ IH]; [reflexivity|].
  destruct Hg as [request [msg ->]]. unfold count_requests in *.
  cbn [concat app filter is_completion_request length]. now rewrite IH.
Qed.

Lemma length_range (n : Z) :
  (0 <= n)%Z -> Z.of_nat (length (JsonIdGenerator.range n)) = n.
Proof.
  intros H. unfold JsonIdGenerator.range. rewrite length_map, length_seq. lia.
Qed.

(** ** The retrying generator *)

Section RetryFacts.

Context {FM : FloatModel}.
Variable client : llm_client.
Variables deployment text_content : str.
Variable user_prompt : option str.

Lemma request_and_parse_fails prompt t e :
  client t (make_request deployment schema_system_message prompt) = RequestFails e ->
  request_and_parse client deployment prompt t
  = (Raise e, t ++ [ChatCompletion (make_request deployment schema_system_message prompt)]).
Proof.
  intros H. unfold request_and_parse, bind, chat_completions_create.
  rewrite H. reflexivity.
Qed.

Lemma attempts_loop_all_fail attempts :
  (forall t request, exists e, client t request = RequestFails e) ->
  forall t,
  exists groups,
    JsonIdGenerator.attempts_loop client deployment text_content user_prompt attempts t
    = (Return (error_marker (lit "Failed to generate schema after multiple attempts")),
       t ++ concat groups)
    /\ length groups = length attempts
    /\ Forall failed_attempt groups.
Proof.
  intros Hfail. induction attempts as [|attempt rest IH]; intros t.
  - exists []. simpl. rewrite app_nil_r. repeat split. constructor.
  - set (prompt := if truthy user_prompt
                   then user_prompt_template (text_of user_prompt) text_content
                   else default_prompt_retry text_content).
    destruct (Hfail t (make_request deployment schema_system_message prompt)) as [e He].
    set (t1 := ((t ++ [ChatCompletion (make_request deployment schema_system_message prompt)])
                  ++ [LogError (lit "Attempt " ++ Z_to_str (attempt + 1)
                                ++ lit " failed: " ++ exn_str e)]) ++ [Sleep 2]).
    destruct (IH t1) as [groups [Hrun [Hlen Hall]]].
    exists ([ChatCompletion (make_request deployment schema_system_message prompt);
             LogError (lit "Attempt " ++ Z_to_str (attempt + 1)
                       ++ lit " failed: " ++ exn_str e);
             Sleep 2] :: groups).
    split; [|split].
    + cbn [JsonIdGenerator.attempts_loop]. unfold bind at 1, try_except.
      unfold bind at 1. fold prompt.
      rewrite (request_and_parse_fails prompt t e He).
      unfold bind, logging_error, sleep, emit, ret.
      fold t1. rewrite Hrun. f_equal. subst t1.
      cbn [concat]. rewrite <- !app_assoc. reflexivity.
    + simpl. congruence.
    + constructor; [|assumption]. eexists; eexists; reflexivity.
Qed.

End RetryFacts.

(** C1.  When the completion request raises on every attempt, the retrying
    [generate_schema] run with a retry bound [retries] makes exactly
    [retries] attempts, each of them a request followed by a log entry and
    a wait of two seconds, and then returns the exhaustion error marker. *)
Theorem retry_exhaustion {FM : FloatModel} :
  forall (client : llm_client) (deployment text_content : str)
         (url user_prompt : option str) (retries : Z) (t : trace),
    (0 <= retries)%Z ->
    (forall t' request, exists e, client t' request = RequestFails e) ->
    exists attempts : list (list event),
      JsonIdGenerator.generate_schema client deployment text_content url
                                      user_prompt retries t
      = (Return (error_marker (lit "Failed to generate schema after multiple attempts")),
         t ++ concat attempts)
      /\ Z.of_nat (length attempts) = retries
      /\ Forall failed_attempt attempts
      /\ Z.of_nat (count_requests (concat attempts)) = retries.
Proof.
  intros client deployment text_content url user_prompt retries t Hpos Hfail.
  unfold JsonIdGenerator.generate_schema.
  destruct (attempts_loop_all_fail client deployment text_content user_prompt
              (JsonIdGenerator.range retries) Hfail t) as [groups [Hrun [Hlen Hall]]].
  exists groups. rewrite (count_requests_failed groups Hall), Hlen.
  repeat split; try assumption; apply length_range; assumption.
Qed.

(** ** The two generators on one response *)

Section GeneratorFacts.

Context {FM : FloatModel}.

Lemma request_and_parse_spec client deployment prompt t :
  request_and_parse client deployment prompt t
  = let request := make_request deployment schema_system_message prompt in
    match client t request with
    | RequestFails e => (Raise e, t ++ [ChatCompletion request])
    | Content content =>
        (fst (handle_response content),
         (t ++ [ChatCompletion request]) ++ snd (handle_response content))
    end.
Proof.
  unfold request_and_parse, bind, chat_completions_create. cbv zeta.
  destruct (client t _) as [e|[response|]]; cbn [handle_response].
  - reflexivity.
  - destruct ((find response "{" =? -1)%Z || (rfind response "}" + 1 =? 0)%Z).
    + unfold raise. cbn. rewrite app_nil_r. reflexivity.
    + destruct (json_loads _).
      * unfold logging_error, emit, ret. reflexivity.
      * unfold ret. cbn. rewrite app_nil_r. reflexivity.
  - unfold raise. cbn. rewrite app_nil_r. reflexivity.
Qed.

(** [app.py]: the whole of [generate_schema] as a function of the
    client's answer. *)
Lemma app_generate_schema_spec client deployment text_content url user_prompt t :
  App.generate_schema client deployment text_content url user_prompt t
  = let request := make_request deployment schema_system_message
                                (app_prompt text_content user_prompt) in
    let caught e t' :=
      (Return (error_marker (exn_str e)),
       t' ++ [LogError (lit "Error generating schema: " ++ exn_str e)]) in
    match client t request with
    | RequestFails e => caught e (t ++ [ChatCompletion request])
    | Content content =>
        match handle_response content with
        | (Return schema, log) => (Return schema, (t ++ [ChatCompletion request]) ++ log)
        | (Raise e, log) => caught e ((t ++ [ChatCompletion request]) ++ log)
        end
    end.
Proof.
  unfold App.generate_schema, try_except. fold (app_prompt text_content user_prompt).
  rewrite request_and_parse_spec. cbv zeta.
  destruct (client t _) as [e|content].
  - reflexivity.
  - destruct (handle_response content) as [[schema|e] log]; reflexivity.
Qed.

(** [json-id-generator.py]: one turn of the loop as a function of the
    client's answer. *)
Lemma attempts_loop_step client deployment text_content user_prompt attempt rest t :
  JsonIdGenerator.attempts_loop client deployment text_content user_prompt
                                (attempt :: rest) t
  = let request := make_request deployment schema_system_message
                                (retry_prompt text_content user_prompt) in
    let failed e t' :=
      JsonIdGenerator.attempts_loop client deployment text_content user_prompt rest
        ((t' ++ [LogError (lit "Attempt " ++ Z_to_str (attempt + 1)
                           ++ lit " failed: " ++ exn_str e)]) ++ [Sleep 2]) in
    match client t request with
    | RequestFails e => failed e (t ++ [ChatCompletion request])
    | Content content =>
        match handle_response content with
        | (Return schema, log) => (Return schema, (t ++ [ChatCompletion request]) ++ log)
        | (Raise e, log) => failed e ((t ++ [ChatCompletion request]) ++ log)
        end
    end.
Proof.
  cbn [JsonIdGenerator.attempts_loop]. unfold bind at 1, try_except.
  unfold bind at 1. fold (retry_prompt text_content user_prompt).
  rewrite request_and_parse_spec. cbv zeta.
  destruct (client t _) as [e|content].
  - reflexivity.
  - destruct (handle_response content) as [[schema|e] log]; reflexivity.
Qed.

Lemma range_pos retries :
  (0 < retries)%Z ->
  JsonIdGenerator.range retries
  = 0%Z :: map Z.of_nat (seq 1 (Z.to_nat retries - 1)).
Proof.
  intros H. unfold JsonIdGenerator.range.
  replace (Z.to_nat retries) with (S (Z.to_nat retries - 1)) at 1 by lia.
  reflexivity.
Qed.

End GeneratorFacts.

(** ** Locating the candidate payload *)






(** ** Claims on the schema generator *)




(** ** The claims on the generators at concrete inputs *)

Ltac not_in :=
  let H := fresh in
  intros H; cbn in H;
  repeat (destruct H as [H|H]; [discriminate H|]); exact H.

Lemma retry_exhaustion_witness :
  exists attempts : list (list event),
    JsonIdGenerator.generate_schema (FM := exact_decimal) failing_client
      (lit "gpt-4o") (lit "page text") None None 3 []
    = (Return (error_marker (lit "Failed to generate schema after multiple attempts")),
       [] ++ concat attempts)
    /\ Z.of_nat (length attempts) = 3%Z
    /\ Forall failed_attempt attempts
    /\ Z.of_nat (count_requests (concat attempts)) = 3%Z.
Proof.
  apply (retry_exhaustion (FM := exact_decimal) failing_client).
  - lia.
  - intros t' request. eexists. reflexivity.
Defined.

(** The same run, evaluated: three requests, three waits. *)
Example retry_exhaustion_run :
  let run := JsonIdGenerator.generate_schema (FM := exact_decimal) failing_client
               (lit "gpt-4o") (lit "page text") None None
               JsonIdGenerator.default_retries [] in
  fst run = Return (error_marker (lit "Failed to generate schema after multiple attempts"))
  /\ count_requests (snd run) = 3
  /\ filter is_sleep (snd run) = [Sleep 2; Sleep 2; Sleep 2].
Proof. repeat split; reflexivity. Qed.





(** ** The comparator *)

Lemma span_digits_spec s :
  forall ds r,
    span_digits s = (ds, r) ->
    s = ds ++ r /\ Forall (fun c => is_digit c = true) ds.
Proof.
  induction s as [|c s IH]; intros ds r H; simpl in H.
  - inversion H. split; [reflexivity|constructor].
  - destruct (is_digit c) eqn:Hc.
    + destruct (span_digits s) as [ds' r'] eqn:Hs. inversion H; subst.
      destruct (IH ds' r eq_refl) as [-> Hall].
      split; [reflexivity|]. constructor; assumption.
    + inversion H. split; [reflexivity|constructor].
Qed.

Lemma span_digits_run ds r :
  Forall (fun c => is_digit c = true) ds ->
  match r with c :: _ => is_digit c = false | [] => True end ->
  span_digits (ds ++ r) = (ds, r).
Proof.
  intros Hds Hr. induction Hds as [|c ds Hc _ IH]; simpl.
  - destruct r as [|c r]; [reflexivity|]. simpl. now rewrite Hr.
  - now rewrite Hc, IH.
Qed.

Lemma match_percentage_at_sound s g :
  match_percentage_at s = Some g ->
  exists post, s = (g ++ lit "%") ++ post /\ percentage_word (g ++ lit "%").
Proof.
  unfold match_percentage_at. intros H.
  destruct (span_digits s) as [ds r] eqn:Hs.
  destruct (span_digits_spec s ds r Hs) as [-> Hds].
  destruct ds as [|d ds]; [discriminate|].
  assert (Hdigits : digits (d :: ds)) by (split; [discriminate|assumption]).
  destruct r as [|c r]; [discriminate|].
  destruct (ascii_dec c "%") as [->|Hpct].
  - inversion H; subst. exists r. split.
    + str_eq.
    + now constructor.
  - destruct (ascii_dec c ".") as [->|Hdot].
    + destruct (span_digits r) as [fs r'] eqn:Hr.
      destruct (span_digits_spec r fs r' Hr) as [-> Hfs].
      destruct fs as [|f fs]; [discriminate|].
      destruct r' as [|c' r']; [discriminate|].
      destruct (ascii_dec c' "%") as [->|Hpct'].
      * inversion H; subst. exists r'. split.
        { str_eq. }
        { match goal with
          | |- percentage_word ?w =>
              replace w with ((d :: ds) ++ lit "." ++ (f :: fs) ++ lit "%") by str_eq
          end.
          constructor; [assumption|]. split; [discriminate|assumption]. }
      * exfalso. clear - H Hpct'.
        destruct c' as [[] [] [] [] [] [] [] []]; try discriminate H.
        now apply Hpct'.
    + exfalso. clear - H Hpct Hdot.
      destruct c as [[] [] [] [] [] [] [] []]; try discriminate H.
      * now apply Hdot.
      * now apply Hpct.
Qed.

Lemma re_search_percentage_sound s g :
  re_search_percentage s = Some g -> contains_percentage s.
Proof.
  induction s as [|c s IH]; intros H; [discriminate|].
  cbn [re_search_percentage] in H.
  destruct (match_percentage_at (c :: s)) as [g'|] eqn:Hm.
  - destruct (match_percentage_at_sound _ _ Hm) as [post [Heq Hw]].
    exists [], (g' ++ lit "%"), post. split; [exact Heq|exact Hw].
  - destruct (IH H) as [pre [w [post [-> Hw]]]].
    exists (c :: pre), w, post. split; [reflexivity|exact Hw].
Qed.

Lemma re_search_percentage_none s :
  ~ contains_percentage s -> re_search_percentage s = None.
Proof.
  intros Hno. destruct (re_search_percentage s) as [g|] eqn:H; [|reflexivity].
  exfalso. apply Hno. exact (re_search_percentage_sound s g H).
Qed.

Lemma digit_before_percent_found pre d post :
  is_digit d = true ->
  exists g, re_search_percentage (pre ++ d :: "%"%char :: post) = Some g.
Proof.
  intros Hd. induction pre as [|c pre IH].
  - exists [d]. cbn [app re_search_percentage]. unfold match_percentage_at.
    change (d :: "%"%char :: post) with ([d] ++ "%"%char :: post).
    rewrite (span_digits_run [d] ("%"%char :: post)); [reflexivity| |reflexivity].
    constructor; [assumption|constructor].
  - cbn [app re_search_percentage].
    destruct (match_percentage_at (c :: pre ++ d :: "%"%char :: post)) as [g|].
    + now exists g.
    + exact IH.
Qed.

Lemma digits_last ds :
  digits ds -> exists ds' d, ds = ds' ++ [d] /\ is_digit d = true.
Proof.
  intros [Hne Hall]. destruct (exists_last Hne) as [ds' [d ->]].
  exists ds', d. split; [reflexivity|].
  apply Forall_app in Hall. destruct Hall as [_ Hd]. now inversion Hd.
Qed.

(** The search finds a match exactly when the text holds a word of the
    pattern. *)
Lemma re_search_percentage_complete s :
  contains_percentage s -> exists g, re_search_percentage s = Some g.
Proof.
  intros [pre [w [post [-> Hw]]]]. destruct Hw as [ds Hds|ds fs Hds Hfs].
  - destruct (digits_last ds Hds) as [ds' [d [-> Hd]]].
    replace (pre ++ ((ds' ++ [d]) ++ lit "%") ++ post)
      with ((pre ++ ds') ++ d :: "%"%char :: post) by str_eq.
    now apply digit_before_percent_found.
  - destruct (digits_last fs Hfs) as [fs' [d [-> Hd]]].
    replace (pre ++ (ds ++ lit "." ++ (fs' ++ [d]) ++ lit "%") ++ post)
      with ((pre ++ ds ++ lit "." ++ fs') ++ d :: "%"%char :: post) by str_eq.
    now apply digit_before_percent_found.
Qed.

(** C6.  When the narrative holds no percentage pattern, [compare_schemas]
    of either file returns the error marker, a mapping whose only key is
    [error]; in particular the result has no [accuracy] entry. *)
Theorem missing_percentage_is_an_error {FM : FloatModel} :
  forall (client : llm_client) (deployment user_schema generated_schema : str)
         (t : trace) (response : str),
    ~ contains_percentage response ->
    (forall request, client t request = Content (Some response)) ->
    let message := lit "No valid accuracy score found in response" in
    let logged := LogError (lit "Error comparing schemas: " ++ message) in
    (exists request,
        App.compare_schemas client deployment user_schema generated_schema t
        = (Return (PyDict [(cps (lit "error"), PyStr (cps message))]),
           t ++ [ChatCompletion request; logged]))
    /\ (exists request,
           JsonIdGenerator.compare_schemas client deployment user_schema
                                           generated_schema t
           = (Return (PyDict [(cps (lit "error"), PyStr (cps message))]),
              t ++ [ChatCompletion request; logged]))
    /\ dict_get (FM := FM) [(cps (lit "error"), PyStr (cps message))]
                (cps (lit "accuracy")) = None.
Proof.
  intros client deployment user_schema generated_schema t response Hno Hclient
         message logged.
  assert (Hrun : forall prompt,
             compare_schemas_with prompt client deployment user_schema
                                  generated_schema t
             = (Return (error_marker message),
                t ++ [ChatCompletion
                        (make_request deployment compare_system_message
                                      (prompt user_schema generated_schema));
                      logged])).
  { intros prompt. unfold compare_schemas_with, try_except, bind,
      chat_completions_create.
    rewrite Hclient. cbn [read_comparison].
    rewrite (re_search_percentage_none response Hno).
    unfold raise, logging_error, emit, ret, bind. f_equal. trace_eq. }
  split; [|split].
  - eexists. apply Hrun.
  - eexists. apply Hrun.
  - reflexivity.
Qed.

Lemma missing_percentage_is_an_error_witness :
  let response := lit "The schemas are broadly similar." in
  let message := lit "No valid accuracy score found in response" in
  let logged := LogError (lit "Error comparing schemas: " ++ message) in
  (exists request,
      App.compare_schemas (FM := exact_decimal) (replying_client response)
        (lit "gpt-4o") (lit "{}") (lit "{}") []
      = (Return (PyDict [(cps (lit "error"), PyStr (cps message))]),
         [] ++ [ChatCompletion request; logged]))
  /\ (exists request,
         JsonIdGenerator.compare_schemas (FM := exact_decimal)
           (replying_client response) (lit "gpt-4o") (lit "{}") (lit "{}") []
         = (Return (PyDict [(cps (lit "error"), PyStr (cps message))]),
            [] ++ [ChatCompletion request; logged]))
  /\ dict_get (FM := exact_decimal) [(cps (lit "error"), PyStr (cps message))]
              (cps (lit "accuracy")) = None.
Proof.
  apply (missing_percentage_is_an_error (FM := exact_decimal)
           (replying_client (lit "The schemas are broadly similar."))
           (lit "gpt-4o") (lit "{}") (lit "{}") []
           (lit "The schemas are broadly similar.")).
  - intros Hc. apply re_search_percentage_complete in Hc.
    destruct Hc as [g Hg]. discriminate Hg.
  - intros request. reflexivity.
Defined.

(** The comparison example of the spec: the score 87.5, one line of missing
    fields (it runs to the end of the line) and one of additional ones. *)
Example narrative_example_read :
  fst (App.compare_schemas (FM := exact_decimal) (replying_client narrative_example)
         (lit "gpt-4o") (lit "{}") (lit "{}") [])
  = Return
      (PyDict
         [(cps (lit "accuracy"), PyFloat (FM := exact_decimal) (Dec false 875 (-1)));
          (cps (lit "missing_fields"),
           PyList [PyStr (cps (lit "author, datePublished Additional fields: None"))]);
          (cps (lit "additional_fields"), PyList [PyStr (cps (lit "None"))]);
          (cps (lit "detailed_comparison"), PyStr (cps narrative_example))]).
Proof. reflexivity. Qed.

(** ** The dynamic extractor *)

Module ExtractorFacts.
Import AdvancedWebContentExtractor.

Lemma filter_quit_app a b :
  filter is_quit (a ++ b) = filter is_quit a ++ filter is_quit b.
Proof. apply filter_app. Qed.

Lemma strategies_tried_app a b :
  strategies_tried (a ++ b) = strategies_tried a ++ strategies_tried b.
Proof. apply flat_map_app. Qed.

Lemma script_targets_app script a b :
  script_targets script (a ++ b) = script_targets script a ++ script_targets script b.
Proof. apply flat_map_app. Qed.

(** A click or a scroll that raises is caught: the element is left, the
    loop goes on. *)
Lemma expand_element_spec self element t :
  exists evs,
    expand_element self element t = (Return tt, t ++ evs)
    /\ view evs = {| view_quits := []; view_strategies := [];
                     view_scrolled := [element] |}.
Proof.
  unfold expand_element, try_except, bind, driver_execute_script, sleep,
    print, emit, outcome.
  destruct (drv_execute_script (driver self) t scroll_script element) as [e|].
  - eexists. split; [trace_eq|]. reflexivity.
  - destruct (drv_execute_script (driver self) _ click_script element) as [e|].
    + eexists. split; [trace_eq|]. reflexivity.
    + eexists. split; [trace_eq|]. reflexivity.
Qed.

Lemma expand_elements_spec self elements :
  forall t,
  exists evs,
    for_each elements (expand_element self) t = (Return tt, t ++ evs)
    /\ view evs = {| view_quits := []; view_strategies := [];
                     view_scrolled := elements |}.
Proof.
  induction elements as [|element rest IH]; intros t.
  - exists []. split; [cbn; now rewrite app_nil_r|reflexivity].
  - destruct (expand_element_spec self element t) as [evs1 [H1 V1]].
    destruct (IH (t ++ evs1)) as [evs2 [H2 V2]].
    exists (evs1 ++ evs2). split.
    + cbn [for_each]. unfold bind. rewrite H1, H2. f_equal. trace_eq.
    + unfold view in *. injection V1 as Q1 S1 T1. injection V2 as Q2 S2 T2.
      rewrite filter_quit_app, strategies_tried_app, script_targets_app.
      rewrite Q1, Q2, S1, S2, T1, T2. reflexivity.
Qed.

(** A strategy never raises; it is tried once; when the locator answers,
    each element it found is scrolled to, in order. *)
Lemma run_strategy_spec self strategy t :
  exists evs,
    run_strategy self strategy t = (Return tt, t ++ evs)
    /\ view_quits (view evs) = []
    /\ view_strategies (view evs) = [strategy]
    /\ forall elements,
        drv_find_elements (driver self) t strategy = inr elements ->
        view_scrolled (view evs) = elements.
Proof.
  unfold run_strategy, try_except, bind, driver_find_elements, print, emit.
  destruct (drv_find_elements (driver self) t strategy) as [e|elements].
  - eexists. split; [trace_eq|]. repeat split. discriminate.
  - destruct (expand_elements_spec self elements (t ++ [FindElements strategy]))
      as [evs [H V]].
    rewrite H. exists (FindElements strategy :: evs).
    split; [f_equal; trace_eq|].
    unfold view in *. injection V as Q S T. cbn [view_quits view_strategies view_scrolled].
    change (FindElements strategy :: evs) with ([FindElements strategy] ++ evs).
    rewrite filter_quit_app, strategies_tried_app, script_targets_app, Q, S, T.
    repeat split. intros elements' Heq. now inversion Heq.
Qed.

Lemma run_strategies_spec self strategies :
  forall t,
  exists evs,
    for_each strategies (run_strategy self) t = (Return tt, t ++ evs)
    /\ view_quits (view evs) = []
    /\ view_strategies (view evs) = strategies.
Proof.
  induction strategies as [|strategy rest IH]; intros t.
  - exists []. split; [cbn; now rewrite app_nil_r|]. split; reflexivity.
  - destruct (run_strategy_spec self strategy t) as [evs1 [H1 [Q1 [S1 _]]]].
    destruct (IH (t ++ evs1)) as [evs2 [H2 [Q2 S2]]].
    exists (evs1 ++ evs2). split.
    + cbn [for_each]. unfold bind. rewrite H1, H2. f_equal. trace_eq.
    + cbn [view view_quits view_strategies] in *.
      rewrite filter_quit_app, strategies_tried_app, Q1, Q2, S1, S2.
      split; reflexivity.
Qed.

(** The expand phase never raises and never quits the browser; once the
    page is loaded it tries every strategy. *)
Lemma expand_spec self t :
  exists evs,
    expand_all_collapsible_sections self t = (Return tt, t ++ evs)
    /\ view_quits (view evs) = []
    /\ (drv_get (driver self) t (url self) = None ->
        view_strategies (view evs) = expansion_strategies).
Proof.
  unfold expand_all_collapsible_sections, try_except, bind, driver_get, sleep,
    print, emit, outcome.
  destruct (drv_get (driver self) t (url self)) as [e|].
  - eexists. split; [trace_eq|]. split; [reflexivity|discriminate].
  - destruct (run_strategies_spec self expansion_strategies
                ((t ++ [DriverGet (url self)]) ++ [Sleep 2]))
      as [evs [H [Q S]]].
    rewrite H. exists ([DriverGet (url self); Sleep 2] ++ evs ++ [Sleep 3]).
    split; [f_equal; trace_eq|].
    cbn [view view_quits view_strategies] in *.
    rewrite filter_quit_app, filter_quit_app, strategies_tried_app,
      strategies_tried_app, Q, S.
    split; [reflexivity|]. intros _. cbn. rewrite ?app_nil_r. reflexivity.
Qed.

(** The harvest phase never raises and never quits the browser. *)
Lemma harvest_spec parse self t :
  exists extracted evs,
    extract_comprehensive_contents parse self t = (Return extracted, t ++ evs)
    /\ filter is_quit evs = [].
Proof.
  unfold extract_comprehensive_contents, try_except, bind, driver_page_source,
    print, emit, ret.
  destruct (drv_page_source (driver self) t) as [e|page_source].
  - eexists; eexists. split; [trace_eq|reflexivity].
  - eexists; eexists. split; [reflexivity|reflexivity].
Qed.

End ExtractorFacts.

(** C7.  Whatever the browser does during the expand and the harvest
    phase, and whatever the call returns or raises, the events of
    [comprehensive_extraction] end with the one and only [driver.quit()]. *)
Theorem browser_always_quit :
  forall (parse : html_parser) (self : AdvancedWebContentExtractor.extractor)
         (t : trace),
  exists outcome evs,
    AdvancedWebContentExtractor.comprehensive_extraction parse self t
    = (outcome, t ++ evs ++ [DriverQuit])
    /\ filter is_quit evs = []
    /\ (drv_quit (AdvancedWebContentExtractor.driver self) (t ++ evs) = None ->
        exists extracted,
          outcome = Return (Some [(lit "contents", extracted)])).
Proof.
  intros parse self t.
  unfold AdvancedWebContentExtractor.comprehensive_extraction, try_finally,
    try_except, bind.
  destruct (ExtractorFacts.expand_spec self t) as [evs1 [H1 [Q1 _]]].
  rewrite H1.
  destruct (ExtractorFacts.harvest_spec parse self (t ++ evs1))
    as [extracted [evs2 [H2 Q2]]].
  rewrite H2. unfold ret, driver_quit, outcome.
  exists (match drv_quit (AdvancedWebContentExtractor.driver self)
                         ((t ++ evs1) ++ evs2) with
          | Some e => Raise e
          | None => Return (Some [(lit "contents", extracted)])
          end), (evs1 ++ evs2).
  split; [|split].
  - destruct (drv_quit _ _); f_equal; trace_eq.
  - rewrite ExtractorFacts.filter_quit_app. cbn [view view_quits] in Q1.
    now rewrite Q1, Q2.
  - rewrite app_assoc. intros ->. now exists extracted.
Qed.

Lemma browser_always_quit_witness :
  exists outcome evs,
    AdvancedWebContentExtractor.comprehensive_extraction
      (fun _ => []) (extractor_on flaky_driver) []
    = (outcome, [] ++ evs ++ [DriverQuit])
    /\ filter is_quit evs = []
    /\ (drv_quit flaky_driver ([] ++ evs) = None ->
        exists extracted, outcome = Return (Some [(lit "contents", extracted)])).
Proof.
  exact (browser_always_quit (fun _ => []) (extractor_on flaky_driver) []).
Defined.




(** The run on the flaky page, evaluated: the failed click on element 1 and
    the rejected second strategy stop nothing. *)
Example flaky_page_run :
  let run := AdvancedWebContentExtractor.expand_all_collapsible_sections
               (extractor_on flaky_driver) [] in
  fst run = Return tt
  /\ strategies_tried (snd run) = AdvancedWebContentExtractor.expansion_strategies
  /\ script_targets AdvancedWebContentExtractor.scroll_script (snd run) = [1; 2; 3]
  /\ script_targets AdvancedWebContentExtractor.click_script (snd run) = [1; 2; 3]
  /\ length (filter (fun ev => match ev with Print _ => true | _ => false end)
                    (snd run)) = 2.
Proof. repeat split; reflexivity. Qed.

(** ** The JSON passthrough extractor *)



(** ** The static extractor *)

Lemma decode_utf8_step (c : ascii) (rest : list N) :
  decode_utf8 (encode_utf8_ignore [c] ++ rest)
  = match decode_utf8 rest with
    | inr s => inr (c :: s)
    | inl e => inl e
    end.
Proof.
  destruct c as [[] [] [] [] [] [] [] []]; reflexivity.
Qed.

Lemma decode_encode_utf8 (text : str) :
  decode_utf8 (encode_utf8_ignore text) = inr text.
Proof.
  induction text as [|c text IH]; [reflexivity|].
  replace (encode_utf8_ignore (c :: text))
    with (encode_utf8_ignore [c] ++ encode_utf8_ignore text)
    by (unfold encode_utf8_ignore; cbn [flat_map]; now rewrite app_nil_r).
  now rewrite decode_utf8_step, IH.
Qed.

(** On the modelled texts the sanitizer changes nothing. *)
Lemma sanitize_text_id (text : str) (t : trace) :
  sanitize_text text t = (Return text, t).
Proof.
  unfold sanitize_text. now rewrite decode_encode_utf8.
Qed.

(** Induction on documents: a property of an element may rest on its
    children. *)
Lemma node_ind' (P : node -> Prop) :
  (forall s, P (Text s)) ->
  (forall name attrs children,
      Forall P children -> P (Element name attrs children)) ->
  forall n, P n.
Proof.
  intros HT HE. fix IH 1. intros [s|name attrs children]; [apply HT|].
  apply HE. induction children as [|c cs IHcs]; constructor; [apply IH|exact IHcs].
Qed.





Lemma split_ws_aux_words s :
  forall cur,
    Forall (fun c => py_isspace c = false) cur ->
    Forall (Forall (fun c => py_isspace c = false)) (split_ws_aux s cur).
Proof.
  induction s as [|c s IH]; intros cur Hcur; cbn [split_ws_aux].
  - destruct cur; constructor; [|constructor].
    apply Forall_rev. exact Hcur.
  - destruct (py_isspace c) eqn:Hc.
    + destruct cur.
      * apply IH. constructor.
      * constructor; [apply Forall_rev; exact Hcur|apply IH; constructor].
    + apply IH. constructor; assumption.
Qed.



(** C2, at a page of two paragraphs and two images.  The claim expects each
    paragraph between newlines; the code returns the two texts run together
    (the second with its inner spaces collapsed), then the one image source:
    no newline anywhere. *)
Theorem static_extraction_ignores_paragraphs :
  let run := extract_text_from_web (serving (lit "<html>...</html>"))
               (parsing_to two_paragraphs) (lit "https://example.com/") [] in
  fst run = Return (lit "Hello worldSecond paragrapha.png")
  /\ fst run <> Return ([newline] ++ lit "Hello world" ++ [newline]
                        ++ [newline] ++ lit "Second  paragraph" ++ [newline]
                        ++ lit "a.png")
  /\ exists text, fst run = Return text /\ ~ In newline text.
Proof.
  split; [reflexivity|]. split; [discriminate|].
  exists (lit "Hello worldSecond paragrapha.png"). split; [reflexivity|not_in].
Qed.

(** ** Decimal and hexadecimal digits *)

Lemma digit_char_spec (d : N) :
  (d < 10)%N -> is_digit (digit_char d) = true /\ digit_val (digit_char d) = d.
Proof.
  intros H.
  assert (Hcases : (d = 0 \/ d = 1 \/ d = 2 \/ d = 3 \/ d = 4 \/ d = 5 \/ d = 6
                    \/ d = 7 \/ d = 8 \/ d = 9)%N) by lia.
  repeat (destruct Hcases as [->|Hcases]; [split; reflexivity|]).
  subst. split; reflexivity.
Qed.

Lemma digits_value_snoc (ds : str) (c : ascii) :
  digits_value (ds ++ [c]) = (10 * digits_value ds + digit_val c)%N.
Proof.
  unfold digits_value. now rewrite fold_left_app.
Qed.

(** The digits of a number: digits only, no leading zero unless the number
    is zero, and they denote the number. *)
Lemma N_digits_spec (fuel : nat) :
  forall n,
    (Z.of_N n < 2 ^ Z.of_nat fuel)%Z ->
    Forall (fun c => is_digit c = true) (N_digits fuel n)
    /\ digits_value (N_digits fuel n) = n
    /\ exists c ds, N_digits fuel n = c :: ds
                    /\ (c = "0"%char -> n = 0%N /\ ds = []).
Proof.
  induction fuel as [|fuel IH]; intros n Hn.
  - assert (n = 0%N) by (cbn in Hn; lia). subst. cbn.
    split; [repeat constructor|]. split; [reflexivity|].
    exists "0"%char, []. auto.
  - cbn [N_digits]. destruct (n <? 10)%N eqn:Hlt.
    + apply N.ltb_lt in Hlt. destruct (digit_char_spec n Hlt) as [Hd Hv].
      split; [repeat constructor; exact Hd|].
      split; [unfold digits_value; cbn; rewrite Hv; lia|].
      exists (digit_char n), []. split; [reflexivity|]. intros Hz.
      split; [|reflexivity].
      rewrite <- Hv, Hz. reflexivity.
    + apply N.ltb_ge in Hlt.
      assert (Hq : (Z.of_N (n / 10) < 2 ^ Z.of_nat fuel)%Z).
      { rewrite Nat2Z.inj_succ, Z.pow_succ_r in Hn by lia.
        rewrite N2Z.inj_div. change (Z.of_N 10) with 10%Z.
        apply Z.div_lt_upper_bound; lia. }
      destruct (IH (n / 10)%N Hq) as [Hall [Hval [c [ds [Heq Hzero]]]]].
      assert (Hm : (n mod 10 < 10)%N) by (apply N.mod_lt; lia).
      destruct (digit_char_spec _ Hm) as [Hd Hv].
      split; [apply Forall_app; split; [exact Hall|repeat constructor; exact Hd]|].
      split.
      * rewrite digits_value_snoc, Hval, Hv.
        symmetry. apply N.div_mod. lia.
      * exists c, (ds ++ [digit_char (n mod 10)]). rewrite Heq.
        split; [reflexivity|]. intros Hz. destruct (Hzero Hz) as [Hq0 _].
        exfalso. assert (n < 10)%N; [|lia].
        apply N.div_small_iff in Hq0; lia.
Qed.

Lemma N_to_str_spec (n : N) :
  Forall (fun c => is_digit c = true) (N_to_str n)
  /\ digits_value (N_to_str n) = n
  /\ exists c ds, N_to_str n = c :: ds /\ (c = "0"%char -> n = 0%N /\ ds = []).
Proof.
  apply N_digits_spec. destruct n as [|p]; [cbn; lia|].
  cbn [N.size_nat Z.of_N]. apply Zpower2_Psize. lia.
Qed.

Lemma hex_char_spec (d : N) :
  (d < 16)%N -> hex_val (hex_char d) = Some d.
Proof.
  intros H.
  assert (Hcases : (d = 0 \/ d = 1 \/ d = 2 \/ d = 3 \/ d = 4 \/ d = 5 \/ d = 6
                    \/ d = 7 \/ d = 8 \/ d = 9 \/ d = 10 \/ d = 11 \/ d = 12
                    \/ d = 13 \/ d = 14 \/ d = 15)%N) by lia.
  repeat (destruct Hcases as [->|Hcases]; [reflexivity|]).
  subst. reflexivity.
Qed.

(** Four hexadecimal digits read back as the number they were written
    for. *)
Lemma hex4_digits_spec (n : N) :
  (n < 65536)%N ->
  exists h1 h2 h3 h4,
    hex4_digits n = [h1; h2; h3; h4] /\ hex4 h1 h2 h3 h4 = Some n.
Proof.
  intros Hn. unfold hex4_digits. do 4 eexists. split; [reflexivity|].
  unfold hex4.
  assert (H1 : (n / 4096 < 16)%N) by (apply N.Div0.div_lt_upper_bound; lia).
  assert (H2 : ((n / 256) mod 16 < 16)%N) by (apply N.mod_lt; lia).
  assert (H3 : ((n / 16) mod 16 < 16)%N) by (apply N.mod_lt; lia).
  assert (H4 : (n mod 16 < 16)%N) by (apply N.mod_lt; lia).
  rewrite !hex_char_spec by assumption. f_equal.
  pose proof (N.div_mod n 16) as E1.
  pose proof (N.div_mod (n / 16) 16) as E2.
  pose proof (N.div_mod (n / 256) 16) as E3.
  assert (E4 : (n / 16 / 16 = n / 256)%N) by (rewrite N.Div0.div_div; reflexivity).
  assert (E5 : (n / 256 / 16 = n / 4096)%N) by (rewrite N.Div0.div_div; reflexivity).
  rewrite E4 in E2. rewrite E5 in E3. lia.
Qed.

(** ** Surrogate pairs *)

Lemma lor_low (k y : N) :
  (y < 1024)%N -> N.lor (k * 1024) y = (k * 1024 + y)%N.
Proof.
  intros Hy. rewrite <- N.lxor_lor.
  - symmetry. apply N.add_nocarry_lxor.
    apply N.bits_inj_0. intros i. rewrite N.land_spec.
    destruct (N.lt_ge_cases i 10) as [Hi|Hi].
    + change 1024%N with (2 ^ 10)%N. now rewrite N.mul_pow2_bits_low.
    + rewrite <- (N.mod_small y (2 ^ 10)) by exact Hy.
      rewrite N.mod_pow2_bits_high by exact Hi. apply andb_false_r.
  - apply N.bits_inj_0. intros i. rewrite N.land_spec.
    destruct (N.lt_ge_cases i 10) as [Hi|Hi].
    + change 1024%N with (2 ^ 10)%N. now rewrite N.mul_pow2_bits_low.
    + rewrite <- (N.mod_small y (2 ^ 10)) by exact Hy.
      rewrite N.mod_pow2_bits_high by exact Hi. apply andb_false_r.
Qed.

(** The two halves the encoder writes for a character beyond U+FFFF are a
    high and a low surrogate that the decoder joins back. *)
Lemma surrogate_pair_spec (n : N) :
  (65536 <= n <= 1114111)%N ->
  let s1 := N.lor 55296 (N.land (N.shiftr (n - 65536) 10) 1023) in
  let s2 := N.lor 56320 (N.land (n - 65536) 1023) in
  (s1 < 65536)%N /\ (s2 < 65536)%N
  /\ is_high_surrogate s1 = true
  /\ is_low_surrogate s2 = true
  /\ join_surrogates s1 s2 = n.
Proof.
  intros Hn s1 s2. set (n' := (n - 65536)%N) in *.
  assert (Hhi : (n' / 1024 < 1024)%N) by (apply N.Div0.div_lt_upper_bound; lia).
  assert (Hlo : (n' mod 1024 < 1024)%N) by (apply N.mod_lt; lia).
  assert (E1 : s1 = (55296 + n' / 1024)%N).
  { unfold s1. rewrite N.shiftr_div_pow2. change (2 ^ 10)%N with 1024%N.
    change 1023%N with (N.ones 10). rewrite N.land_ones.
    change (2 ^ 10)%N with 1024%N. rewrite N.mod_small by exact Hhi.
    change 55296%N with (54 * 1024)%N. now apply lor_low. }
  assert (E2 : s2 = (56320 + n' mod 1024)%N).
  { unfold s2. change 1023%N with (N.ones 10). rewrite N.land_ones.
    change (2 ^ 10)%N with 1024%N.
    change 56320%N with (55 * 1024)%N. now apply lor_low. }
  assert (En : n = (65536 + n')%N) by (unfold n'; lia).
  assert (Ediv : (n' = 1024 * (n' / 1024) + n' mod 1024)%N)
    by (apply N.div_mod; lia).
  unfold join_surrogates. clearbody s1 s2 n'. subst s1 s2.
  generalize dependent (n' / 1024)%N. intros hi Hhi.
  generalize dependent (n' mod 1024)%N. intros lo Hlo Ediv.
  split; [lia|]. split; [lia|].
  split; [unfold is_high_surrogate; apply andb_true_iff; split; apply N.leb_le; lia|].
  split; [unfold is_low_surrogate; apply andb_true_iff; split; apply N.leb_le; lia|].
  replace (55296 + hi - 55296)%N with hi by lia.
  replace (56320 + lo - 56320)%N with lo by lia.
  rewrite N.shiftl_mul_pow2. change (2 ^ 10)%N with 1024%N.
  rewrite lor_low by exact Hlo. lia.
Qed.

(** ** The string scanner, one character at a time *)

Lemma scanstring_from_step (c : ascii) (s1 : str) (begin : nat) (chunks : list N) :
  scanstring_from (c :: s1) begin chunks
  = if Ascii.eqb c dquote then Scanned (rev chunks) s1
    else if Ascii.eqb c backslash then
      match scan_escape s1 with
      | Escaped cp rest => scanstring_from rest begin (cp :: chunks)
      | EscapeError msg remaining => DecodeError msg remaining
      | EscapeUnterminated => DecodeError unterminated begin
      end
    else if (N_of_ascii c <? 32)%N then
      DecodeError (lit "Invalid control character at") (S (length s1))
    else scanstring_from s1 begin (N_of_ascii c :: chunks).
Proof.
  cbn [scanstring_from]. unfold scan_escape.
  destruct (Ascii.eqb c dquote); [reflexivity|].
  destruct (Ascii.eqb c backslash); [|reflexivity].
  destruct s1 as [|esc s2]; [reflexivity|].
  destruct (negb (Ascii.eqb esc "u")); [destruct (backslash_escape esc); reflexivity|].
  destruct s2 as [|h1 [|h2 [|h3 [|h4 s3]]]]; try reflexivity.
  destruct (hex4 h1 h2 h3 h4) as [uni|]; [|reflexivity].
  destruct (is_high_surrogate uni); [|reflexivity].
  destruct s3 as [|b [|u s4]]; try reflexivity.
  destruct (Ascii.eqb b backslash && Ascii.eqb u "u"); [|reflexivity].
  destruct s4 as [|g1 [|g2 [|g3 [|g4 s5]]]]; try reflexivity.
  destruct (hex4 g1 g2 g3 g4) as [uni2|]; [|reflexivity].
  destruct (is_low_surrogate uni2); reflexivity.
Qed.

(** Case analysis on the tests that a hypothesis branches on. *)
Ltac break_match H :=
  match type of H with
  | context [match ?x with _ => _ end] => destruct x eqn:?
  | context [if ?x then _ else _] => destruct x eqn:?
  end.

Lemma scan_escape_shorter (s1 : str) (cp : N) (rest : str) :
  scan_escape s1 = Escaped cp rest -> length rest < length s1.
Proof.
  unfold scan_escape. intros H.
  repeat (break_match H; try discriminate H);
    inversion H; subst; cbn [length]; lia.
Qed.

Lemma scanstring_from_shorter (n : nat) :
  forall s begin chunks k rest,
    length s <= n ->
    scanstring_from s begin chunks = Scanned k rest ->
    length rest < length s.
Proof.
  induction n as [|n IH]; intros s begin chunks k rest Hlen H.
  - destruct s; [discriminate H|cbn in Hlen; lia].
  - destruct s as [|c s1]; [discriminate H|].
    rewrite scanstring_from_step in H. cbn [length] in *.
    destruct (Ascii.eqb c dquote); [inversion H; subst; lia|].
    destruct (Ascii.eqb c backslash).
    + destruct (scan_escape s1) as [cp r| |] eqn:He; try discriminate H.
      apply scan_escape_shorter in He. apply IH in H; lia.
    + destruct (N_of_ascii c <? 32)%N; [discriminate H|].
      apply IH in H; lia.
Qed.

(** ** What the scanner consumes *)

Lemma skip_ws_length (s : str) : length (skip_ws s) <= length s.
Proof.
  induction s as [|c s IH]; cbn; [lia|]. destruct (is_json_ws c); cbn; lia.
Qed.

Lemma skip_ws_cons (s : str) (c : ascii) (t : str) :
  skip_ws s = c :: t -> length t < length s.
Proof.
  intros H. pose proof (skip_ws_length s) as Hl. rewrite H in Hl. cbn in Hl. lia.
Qed.

Lemma span_digits_length (s ds r : str) :
  span_digits s = (ds, r) -> length s = length ds + length r.
Proof.
  intros H. destruct (span_digits_spec s ds r H) as [-> _]. apply length_app.
Qed.

Lemma match_unsigned_shorter (sign s integer rest : str) :
  match_unsigned sign s = Some (integer, rest) -> length rest < length s.
Proof.
  unfold match_unsigned. intros H.
  destruct s as [|c t]; [discriminate H|].
  destruct (Ascii.eqb c "0"); [inversion H; subst; cbn; lia|].
  destruct (is_digit c); [|discriminate H].
  destruct (span_digits t) as [ds t'] eqn:Hs. inversion H; subst.
  apply span_digits_length in Hs. cbn [length]. lia.
Qed.

Lemma match_integer_shorter (s integer rest : str) :
  match_integer s = Some (integer, rest) -> length rest < length s.
Proof.
  unfold match_integer. intros H. destruct s as [|c t]; [discriminate H|].
  destruct (Ascii.eqb c "-").
  - apply match_unsigned_shorter in H. cbn [length]. lia.
  - now apply match_unsigned_shorter in H.
Qed.

Lemma match_frac_length (s frac rest : str) :
  match_frac s = (frac, rest) -> length rest <= length s.
Proof.
  unfold match_frac. intros H. destruct s as [|c t]; [inversion H; subst; lia|].
  destruct (Ascii.eqb c "."); [|inversion H; subst; lia].
  destruct (span_digits t) as [[|d ds] t'] eqn:Hs; inversion H; subst; [lia|].
  apply span_digits_length in Hs. cbn [length] in *. lia.
Qed.

Lemma match_exp_length (s exp rest : str) :
  match_exp s = (exp, rest) -> length rest <= length s.
Proof.
  unfold match_exp. intros H. destruct s as [|e t]; [inversion H; subst; lia|].
  destruct (Ascii.eqb e "e" || Ascii.eqb e "E"); [|inversion H; subst; lia].
  destruct t as [|c t1'].
  - cbn in H. inversion H; subst. lia.
  - destruct (Ascii.eqb c "-" || Ascii.eqb c "+").
    + destruct (span_digits t1') as [[|d ds] t2] eqn:Hs; inversion H; subst; [lia|].
      apply span_digits_length in Hs. cbn [length] in *. lia.
    + destruct (span_digits (c :: t1')) as [[|d ds] t2] eqn:Hs;
        inversion H; subst; [lia|].
      apply span_digits_length in Hs. cbn [length] in *. lia.
Qed.

Lemma match_number_shorter (s integer frac exp rest : str) :
  match_number s = Some (integer, frac, exp, rest) -> length rest < length s.
Proof.
  unfold match_number. intros H.
  destruct (match_integer s) as [[i s2]|] eqn:Hi; [|discriminate H].
  destruct (match_frac s2) as [f s3] eqn:Hf.
  destruct (match_exp s3) as [e s4] eqn:He.
  inversion H; subst.
  apply match_integer_shorter in Hi. apply match_frac_length in Hf.
  apply match_exp_length in He. lia.
Qed.

Lemma skipn_shorter (n : nat) (s rest : str) :
  0 < n -> s <> [] -> skipn n s = rest -> length rest < length s.
Proof.
  intros Hn Hs <-. rewrite length_skipn. destruct s; [congruence|cbn [length]; lia].
Qed.

Section ScannerFacts.

Context {FM : FloatModel}.

Lemma scanstring_shorter (s : str) (begin : nat) (k : list N) (rest : str) :
  scanstring s begin = Scanned k rest -> length rest < length s.
Proof.
  apply (scanstring_from_shorter (length s)). lia.
Qed.

(** Every value read takes at least one character. *)
Lemma scan_shorter (fuel : nat) :
  (forall s v rest,
      scan_once fuel s = Scanned v rest -> length rest < length s)
  /\ (forall s values v rest,
         array_items fuel s values = Scanned v rest -> length rest < length s)
  /\ (forall s pairs v rest,
         object_items fuel s pairs = Scanned v rest -> length rest < length s).
Proof.
  induction fuel as [|fuel [IHv [IHa IHo]]].
  - repeat split; intros; discriminate.
  - split; [|split].
    + intros s v rest H. cbn [scan_once] in H.
      destruct s as [|nextchar t]; [discriminate H|].
      destruct (Ascii.eqb nextchar dquote).
      { destruct (scanstring t (length (nextchar :: t))) as [k r| |] eqn:Hs;
          inversion H; subst.
        apply scanstring_shorter in Hs. cbn [length]. lia. }
      destruct (Ascii.eqb nextchar "{").
      { destruct (skip_ws t) as [|c t1] eqn:Hw; [discriminate H|].
        apply skip_ws_cons in Hw.
        destruct (Ascii.eqb c dquote).
        - apply IHo in H. cbn [length]. lia.
        - destruct (Ascii.eqb c "}"); inversion H; subst. cbn [length]. lia. }
      destruct (Ascii.eqb nextchar "[").
      { destruct (skip_ws t) as [|c t1] eqn:Hw.
        - apply IHa in H. cbn [length] in H. lia.
        - pose proof (skip_ws_cons _ _ _ Hw) as Hl.
          destruct (Ascii.eqb c "]").
          + inversion H; subst. cbn [length]. lia.
          + apply IHa in H. cbn [length] in *. lia. }
      destruct (starts_with (lit "null") (nextchar :: t));
        [injection H as _ Hr;
         apply (skipn_shorter 4 (nextchar :: t) rest); [lia|discriminate|exact Hr]|].
      destruct (starts_with (lit "true") (nextchar :: t));
        [injection H as _ Hr;
         apply (skipn_shorter 4 (nextchar :: t) rest); [lia|discriminate|exact Hr]|].
      destruct (starts_with (lit "false") (nextchar :: t));
        [injection H as _ Hr;
         apply (skipn_shorter 5 (nextchar :: t) rest); [lia|discriminate|exact Hr]|].
      destruct (match_number (nextchar :: t)) as [[[[integer frac] exp] r]|] eqn:Hn.
      { apply match_number_shorter in Hn.
        destruct frac, exp; inversion H; subst; exact Hn. }
      destruct (starts_with (lit "NaN") (nextchar :: t));
        [injection H as _ Hr;
         apply (skipn_shorter 3 (nextchar :: t) rest); [lia|discriminate|exact Hr]|].
      destruct (starts_with (lit "Infinity") (nextchar :: t));
        [injection H as _ Hr;
         apply (skipn_shorter 8 (nextchar :: t) rest); [lia|discriminate|exact Hr]|].
      destruct (starts_with (lit "-Infinity") (nextchar :: t));
        [injection H as _ Hr;
         apply (skipn_shorter 9 (nextchar :: t) rest); [lia|discriminate|exact Hr]|].
      discriminate H.
    + intros s values v rest H. cbn [array_items] in H.
      destruct (scan_once fuel s) as [value r| |] eqn:Hv; try discriminate H.
      apply IHv in Hv.
      destruct (skip_ws r) as [|c r1] eqn:Hw; [discriminate H|].
      apply skip_ws_cons in Hw.
      destruct (Ascii.eqb c "]"); [inversion H; subst; lia|].
      destruct (Ascii.eqb c ","); [|discriminate H].
      apply IHa in H. pose proof (skip_ws_length r1). lia.
    + intros s pairs v rest H. cbn [object_items] in H.
      destruct (scanstring s (S (length s))) as [key r| |] eqn:Hk; try discriminate H.
      apply scanstring_shorter in Hk.
      destruct (skip_ws r) as [|c r1] eqn:Hw; [discriminate H|].
      apply skip_ws_cons in Hw.
      destruct (Ascii.eqb c ":"); [|discriminate H].
      destruct (scan_once fuel (skip_ws r1)) as [value r2| |] eqn:Hv;
        try discriminate H.
      apply IHv in Hv. pose proof (skip_ws_length r1).
      destruct (skip_ws r2) as [|c1 r3] eqn:Hw2; [discriminate H|].
      apply skip_ws_cons in Hw2.
      destruct (Ascii.eqb c1 "}"); [inversion H; subst; lia|].
      destruct (Ascii.eqb c1 ","); [|discriminate H].
      destruct (skip_ws r3) as [|c2 r4] eqn:Hw3; [discriminate H|].
      apply skip_ws_cons in Hw3.
      destruct (Ascii.eqb c2 dquote); [|discriminate H].
      apply IHo in H. lia.
Qed.

Lemma scanstring_from_answers (n : nat) :
  forall s begin chunks,
    length s <= n -> scanstring_from s begin chunks <> OutOfFuel.
Proof.
  induction n as [|n IH]; intros s begin chunks Hlen.
  - destruct s; [discriminate|cbn in Hlen; lia].
  - destruct s as [|c s1]; [discriminate|].
    rewrite scanstring_from_step. cbn [length] in Hlen.
    destruct (Ascii.eqb c dquote); [discriminate|].
    destruct (Ascii.eqb c backslash).
    + destruct (scan_escape s1) as [cp r| |] eqn:He; try discriminate.
      apply scan_escape_shorter in He. apply IH. lia.
    + destruct (N_of_ascii c <? 32)%N; [discriminate|]. apply IH. lia.
Qed.

Lemma scanstring_answers (s : str) (begin : nat) :
  scanstring s begin <> OutOfFuel.
Proof.
  apply (scanstring_from_answers (length s)). lia.
Qed.

(** What the equations in the context say about lengths. *)
Ltac length_facts :=
  repeat match goal with
         | H : skip_ws _ = _ :: _ |- _ => apply skip_ws_cons in H
         | H : scan_once _ _ = Scanned _ _ |- _ =>
             apply (proj1 (scan_shorter _)) in H
         | H : scanstring _ _ = Scanned _ _ |- _ => apply scanstring_shorter in H
         end;
  repeat match goal with
         | |- context [skip_ws ?a] =>
             lazymatch goal with
             | _ : length (skip_ws a) <= length a |- _ => fail
             | _ => pose proof (skip_ws_length a)
             end
         | _ : context [skip_ws ?a] |- _ =>
             lazymatch goal with
             | _ : length (skip_ws a) <= length a |- _ => fail
             | _ => pose proof (skip_ws_length a)
             end
         end;
  cbn [length] in *.

(** Case analysis on the tests that the goal branches on. *)
Ltac break_goal :=
  match goal with
  | |- context [match ?x with _ => _ end] => destruct x eqn:?
  | |- context [if ?x then _ else _] => destruct x eqn:?
  end.

(** Two units of fuel for each character are enough: the scanner then
    never stops for want of fuel. *)
Lemma scan_fuel_enough (fuel : nat) :
  (forall s, 2 * length s + 1 <= fuel -> scan_once fuel s <> OutOfFuel)
  /\ (forall s values,
         2 * length s + 2 <= fuel -> array_items fuel s values <> OutOfFuel)
  /\ (forall s pairs,
         2 * length s + 2 <= fuel -> object_items fuel s pairs <> OutOfFuel).
Proof.
  induction fuel as [|fuel [IHv [IHa IHo]]];
    [repeat split; intros; lia|].
  split; [|split]; intros;
    cbn [scan_once array_items object_items];
    repeat (break_goal; try discriminate);
    try match goal with
        | H : scanstring _ _ = OutOfFuel |- _ =>
            exfalso; exact (scanstring_answers _ _ H)
        | H : scan_once fuel _ = OutOfFuel |- _ =>
            exfalso; revert H; apply IHv
        | |- object_items fuel _ _ <> OutOfFuel => apply IHo
        | |- array_items fuel _ _ <> OutOfFuel => apply IHa
        end;
    subst; length_facts; lia.
Qed.

(** More fuel changes no answer. *)
Lemma scan_fuel_mono (fuel : nat) :
  forall fuel',
    fuel <= fuel' ->
    (forall s, scan_once fuel s <> OutOfFuel ->
               scan_once fuel' s = scan_once fuel s)
    /\ (forall s values,
           array_items fuel s values <> OutOfFuel ->
           array_items fuel' s values = array_items fuel s values)
    /\ (forall s pairs,
           object_items fuel s pairs <> OutOfFuel ->
           object_items fuel' s pairs = object_items fuel s pairs).
Proof.
  induction fuel as [|fuel IH]; intros fuel' Hle.
  - repeat split; intros; exfalso; auto.
  - destruct fuel' as [|fuel']; [lia|].
    destruct (IH fuel' ltac:(lia)) as [IHv [IHa IHo]].
    split; [|split]; intros s; intros;
      cbn [scan_once array_items object_items] in *;
      repeat first
        [ match goal with
          | H : context [match scan_once fuel ?a with _ => _ end]
            |- context [scan_once fuel' ?a] =>
              let E := fresh "E" in
              destruct (scan_once fuel a) eqn:E;
              [ rewrite (IHv a) by (rewrite E; discriminate); rewrite E
              | rewrite (IHv a) by (rewrite E; discriminate); rewrite E
              | exfalso; apply H; reflexivity ]
          end
        | match goal with
          | H : _ <> OutOfFuel |- _ => break_match H
          end ];
      try reflexivity;
      try (apply IHo; assumption);
      try (apply IHa; assumption).
Qed.

Lemma json_loads_fuel (s : str) :
  scan_once (decode_fuel s) (skip_ws s) <> OutOfFuel.
Proof.
  apply (proj1 (scan_fuel_enough _)). unfold decode_fuel.
  pose proof (skip_ws_length s). lia.
Qed.

End ScannerFacts.

(** ** Strings: what the encoder writes, the decoder reads *)

Lemma scan_escape_u (h1 h2 h3 h4 : ascii) (s3 : str) (uni : N) :
  hex4 h1 h2 h3 h4 = Some uni ->
  (is_high_surrogate uni = true -> pair_follows s3 = false) ->
  scan_escape ("u"%char :: h1 :: h2 :: h3 :: h4 :: s3) = Escaped uni s3.
Proof.
  intros Hhex Hfollow. unfold scan_escape. cbn [Ascii.eqb negb].
  change (negb (Ascii.eqb "u" "u")) with false. cbv iota. rewrite Hhex.
  destruct (is_high_surrogate uni); [|reflexivity].
  specialize (Hfollow eq_refl). unfold pair_follows in Hfollow.
  destruct s3 as [|b [|u s4]]; try reflexivity.
  destruct (Ascii.eqb b backslash && Ascii.eqb u "u"); [|reflexivity].
  destruct s4 as [|g1 [|g2 [|g3 [|g4 s5]]]]; try discriminate Hfollow.
  destruct (hex4 g1 g2 g3 g4) as [uni2|]; [|discriminate Hfollow].
  now rewrite Hfollow.
Qed.

Lemma scan_escape_pair (h1 h2 h3 h4 g1 g2 g3 g4 : ascii) (s5 : str) (uni uni2 : N) :
  hex4 h1 h2 h3 h4 = Some uni ->
  hex4 g1 g2 g3 g4 = Some uni2 ->
  is_high_surrogate uni = true ->
  is_low_surrogate uni2 = true ->
  scan_escape ("u"%char :: h1 :: h2 :: h3 :: h4
               :: backslash :: "u"%char :: g1 :: g2 :: g3 :: g4 :: s5)
  = Escaped (join_surrogates uni uni2) s5.
Proof.
  intros Hh Hg Hhigh Hlow. unfold scan_escape.
  change (negb (Ascii.eqb "u" "u")) with false. cbv iota.
  rewrite Hh, Hhigh.
  change (Ascii.eqb backslash backslash && Ascii.eqb "u" "u") with true.
  cbv iota. now rewrite Hg, Hlow.
Qed.

Lemma N_of_ascii_of_N (n : N) : (n < 256)%N -> N_of_ascii (ascii_of_N n) = n.
Proof. apply N_ascii_embedding. Qed.

(** How one character is written: as itself, or as an escape that reads
    back as the character. *)
Lemma escape_char_reads (n : N) (x : str) :
  (n <= 1114111)%N ->
  (is_high_surrogate n = true -> pair_follows x = false) ->
  (exists c,
      escape_char n = [c]
      /\ Ascii.eqb c dquote = false /\ Ascii.eqb c backslash = false
      /\ (N_of_ascii c <? 32)%N = false /\ N_of_ascii c = n)
  \/ (exists e,
         escape_char n = backslash :: e
         /\ scan_escape (e ++ x) = Escaped n x).
Proof.
  intros Hmax Hfollow. unfold escape_char.
  destruct (N.eqb_spec n 92) as [->|H92]; [right; eexists; split; reflexivity|].
  destruct (N.eqb_spec n 34) as [->|H34]; [right; eexists; split; reflexivity|].
  destruct (N.eqb_spec n 8) as [->|H8]; [right; eexists; split; reflexivity|].
  destruct (N.eqb_spec n 12) as [->|H12]; [right; eexists; split; reflexivity|].
  destruct (N.eqb_spec n 10) as [->|H10]; [right; eexists; split; reflexivity|].
  destruct (N.eqb_spec n 13) as [->|H13]; [right; eexists; split; reflexivity|].
  destruct (N.eqb_spec n 9) as [->|H9]; [right; eexists; split; reflexivity|].
  destruct ((32 <=? n) && (n <=? 126))%N eqn:Hprint.
  - left. apply andb_true_iff in Hprint. destruct Hprint as [Hlo Hhi].
    apply N.leb_le in Hlo, Hhi.
    assert (Hn : N_of_ascii (ascii_of_N n) = n) by (apply N_of_ascii_of_N; lia).
    exists (ascii_of_N n). split; [reflexivity|].
    repeat split.
    + apply Ascii.eqb_neq. intros E. apply (f_equal N_of_ascii) in E.
      rewrite Hn in E. now apply H34.
    + apply Ascii.eqb_neq. intros E. apply (f_equal N_of_ascii) in E.
      rewrite Hn in E. now apply H92.
    + rewrite Hn. apply N.ltb_ge. exact Hlo.
    + exact Hn.
  - right. destruct (N.ltb_spec n 65536) as [Hsmall|Hbig].
    + destruct (hex4_digits_spec n Hsmall) as [h1 [h2 [h3 [h4 [Hd Hh]]]]].
      eexists. split; [reflexivity|]. rewrite Hd.
      cbn [lit list_ascii_of_string app].
      now apply scan_escape_u.
    + destruct (surrogate_pair_spec n (conj Hbig Hmax))
        as [Hs1 [Hs2 [Hhigh [Hlow Hjoin]]]].
      destruct (hex4_digits_spec _ Hs1) as [h1 [h2 [h3 [h4 [Hd1 Hh1]]]]].
      destruct (hex4_digits_spec _ Hs2) as [g1 [g2 [g3 [g4 [Hd2 Hh2]]]]].
      eexists. split; [reflexivity|]. rewrite Hd1, Hd2.
      cbn [lit list_ascii_of_string app].
      rewrite (scan_escape_pair _ _ _ _ _ _ _ _ _ _ _ Hh1 Hh2 Hhigh Hlow).
      now rewrite Hjoin.
Qed.

Lemma high_not_low (u : N) :
  is_high_surrogate u = true -> is_low_surrogate u = false.
Proof.
  unfold is_high_surrogate, is_low_surrogate. intros H.
  apply andb_true_iff in H. destruct H as [_ H]. apply N.leb_le in H.
  apply andb_false_iff. left. apply N.leb_gt. lia.
Qed.

Lemma pair_follows_other (c : ascii) (y : str) :
  Ascii.eqb c backslash = false -> pair_follows (c :: y) = false.
Proof.
  intros Hc. unfold pair_follows. destruct y; [reflexivity|]. now rewrite Hc.
Qed.

(** After a lone high surrogate the encoder never writes what the decoder
    would take for its other half. *)
Lemma pair_follows_escape (m : N) (y : str) :
  (m <= 1114111)%N ->
  is_low_surrogate m = false ->
  pair_follows (escape_char m ++ y) = false.
Proof.
  intros Hmax Hlow. unfold escape_char.
  destruct (N.eqb_spec m 92); [reflexivity|].
  destruct (N.eqb_spec m 34); [reflexivity|].
  destruct (N.eqb_spec m 8); [reflexivity|].
  destruct (N.eqb_spec m 12); [reflexivity|].
  destruct (N.eqb_spec m 10); [reflexivity|].
  destruct (N.eqb_spec m 13); [reflexivity|].
  destruct (N.eqb_spec m 9); [reflexivity|].
  destruct ((32 <=? m) && (m <=? 126))%N eqn:Hprint.
  - apply andb_true_iff in Hprint. destruct Hprint as [Hlo Hhi].
    apply N.leb_le in Hlo, Hhi. cbn [app]. apply pair_follows_other.
    apply Ascii.eqb_neq. intros E. apply (f_equal N_of_ascii) in E.
    rewrite N_of_ascii_of_N in E by lia. now subst.
  - destruct (N.ltb_spec m 65536) as [Hsmall|Hbig].
    + destruct (hex4_digits_spec m Hsmall) as [h1 [h2 [h3 [h4 [Hd Hh]]]]].
      rewrite Hd. cbn [lit list_ascii_of_string app pair_follows].
      change (Ascii.eqb "\" backslash && Ascii.eqb "u" "u") with true.
      cbv iota. now rewrite Hh.
    + destruct (surrogate_pair_spec m (conj Hbig Hmax))
        as [Hs1 [_ [Hhigh _]]].
      destruct (hex4_digits_spec _ Hs1) as [h1 [h2 [h3 [h4 [Hd Hh]]]]].
      rewrite Hd. cbn [lit list_ascii_of_string app pair_follows].
      change (Ascii.eqb "\" backslash && Ascii.eqb "u" "u") with true.
      cbv iota. rewrite Hh. now apply high_not_low.
Qed.

Lemma wf_string_tail (n : N) (k : list N) :
  wf_string (n :: k) -> wf_string k.
Proof.
  intros [Hall Hun]. split; [now inversion Hall|].
  destruct k as [|m k]; [exact I|]. now destruct Hun.
Qed.

(** The body of an encoded string reads back as the string. *)
Lemma scanstring_reads (k : list N) :
  wf_string k ->
  forall begin chunks rest,
    scanstring_from (flat_map escape_char k ++ dquote :: rest) begin chunks
    = Scanned (rev chunks ++ k) rest.
Proof.
  induction k as [|n k IH]; intros Hwf begin chunks rest.
  - cbn [flat_map app]. rewrite scanstring_from_step, Ascii.eqb_refl.
    now rewrite app_nil_r.
  - pose proof (wf_string_tail n k Hwf) as Htail.
    destruct Hwf as [Hall Hun].
    assert (Hmax : (n <= 1114111)%N) by now inversion Hall.
    assert (Hfollow : is_high_surrogate n = true ->
                      pair_follows (flat_map escape_char k ++ dquote :: rest) = false).
    { intros Hhigh. destruct k as [|m k'].
      - cbn [flat_map app]. now apply pair_follows_other.
      - cbn [flat_map]. rewrite <- app_assoc. apply pair_follows_escape.
        + inversion Hall as [|? ? _ Hrest]. now inversion Hrest.
        + destruct Hun as [Hpair _]. now apply Hpair. }
    cbn [flat_map]. rewrite <- app_assoc.
    destruct (escape_char_reads n (flat_map escape_char k ++ dquote :: rest)
                Hmax Hfollow)
      as [[c [-> [Hq [Hb [Hctl Hn]]]]]|[e [-> He]]].
    + cbn [app]. rewrite scanstring_from_step, Hq, Hb, Hctl, Hn.
      rewrite (IH Htail). cbn [rev]. now rewrite <- app_assoc.
    + cbn [app]. rewrite scanstring_from_step.
      change (Ascii.eqb backslash dquote) with false.
      rewrite Ascii.eqb_refl. cbv iota. rewrite He.
      rewrite (IH Htail). cbn [rev]. now rewrite <- app_assoc.
Qed.

Lemma scanstring_encoded (k : list N) (begin : nat) (rest : str) :
  wf_string k ->
  exists body,
    encode_basestring_ascii k ++ rest = dquote :: body
    /\ scanstring body begin = Scanned k rest.
Proof.
  intros Hwf. exists (flat_map escape_char k ++ dquote :: rest). split.
  - unfold encode_basestring_ascii. cbn [app]. now rewrite <- app_assoc.
  - unfold scanstring. now rewrite (scanstring_reads k Hwf).
Qed.

(** ** Numbers: what the encoder writes, the decoder reads *)

Lemma delimited_ends_number (rest : str) : delimited rest -> ends_number rest.
Proof.
  destruct rest as [|c rest]; [easy|]. intros [->| ->]; repeat split.
Qed.

Lemma span_digits_app (t ds r rest : str) :
  span_digits t = (ds, r) ->
  ends_number rest ->
  span_digits (t ++ rest) = (ds, r ++ rest).
Proof.
  revert ds r. induction t as [|c t IH]; intros ds r H Hrest.
  - inversion H; subst. cbn [app].
    destruct rest as [|c rest]; [reflexivity|].
    destruct Hrest as [Hd _]. cbn [span_digits]. now rewrite Hd.
  - cbn [app span_digits] in *. destruct (is_digit c).
    + destruct (span_digits t) as [ds' r'] eqn:Ht. inversion H; subst.
      now rewrite (IH ds' r eq_refl Hrest).
    + now inversion H.
Qed.

Lemma match_unsigned_app (sign t integer r rest : str) :
  match_unsigned sign t = Some (integer, r) ->
  ends_number rest ->
  match_unsigned sign (t ++ rest) = Some (integer, r ++ rest).
Proof.
  unfold match_unsigned. intros H Hrest. destruct t as [|c t]; [discriminate H|].
  cbn [app]. destruct (Ascii.eqb c "0"); [now inversion H|].
  destruct (is_digit c); [|discriminate H].
  destruct (span_digits t) as [ds t'] eqn:Ht. inversion H; subst.
  now rewrite (span_digits_app t ds r rest Ht Hrest).
Qed.

Lemma match_integer_app (t integer r rest : str) :
  match_integer t = Some (integer, r) ->
  ends_number rest ->
  match_integer (t ++ rest) = Some (integer, r ++ rest).
Proof.
  unfold match_integer. intros H Hrest. destruct t as [|c t]; [discriminate H|].
  cbn [app]. destruct (Ascii.eqb c "-").
  - now apply match_unsigned_app.
  - now apply (match_unsigned_app [] (c :: t)).
Qed.

Lemma match_frac_app (t frac r rest : str) :
  match_frac t = (frac, r) ->
  ends_number rest ->
  match_frac (t ++ rest) = (frac, r ++ rest).
Proof.
  unfold match_frac. intros H Hrest. destruct t as [|c t].
  - inversion H; subst. cbn [app]. destruct rest as [|c rest]; [reflexivity|].
    destruct Hrest as [_ [Hdot _]]. now rewrite Hdot.
  - cbn [app]. destruct (Ascii.eqb c "."); [|now inversion H].
    destruct (span_digits t) as [ds t'] eqn:Ht.
    rewrite (span_digits_app t ds t' rest Ht Hrest).
    destruct ds; now inversion H.
Qed.

Lemma match_exp_app (t exp r rest : str) :
  match_exp t = (exp, r) ->
  ends_number rest ->
  match_exp (t ++ rest) = (exp, r ++ rest).
Proof.
  unfold match_exp. intros H Hrest. destruct t as [|e t].
  - inversion H; subst. cbn [app]. destruct rest as [|c rest]; [reflexivity|].
    destruct Hrest as [_ [_ [He _]]]. now rewrite He.
  - cbn [app]. destruct (Ascii.eqb e "e" || Ascii.eqb e "E"); [|now inversion H].
    destruct t as [|c t1].
    + cbn [app span_digits] in *. inversion H; subst.
      destruct rest as [|c rest]; [reflexivity|].
      destruct Hrest as [Hd [_ [_ Hsign]]].
      rewrite Hsign. cbn [span_digits]. now rewrite Hd.
    + cbn [app]. destruct (Ascii.eqb c "-" || Ascii.eqb c "+").
      * destruct (span_digits t1) as [ds t2] eqn:Ht.
        rewrite (span_digits_app t1 ds t2 rest Ht Hrest).
        destruct ds; now inversion H.
      * destruct (span_digits (c :: t1)) as [ds t2] eqn:Ht.
        change (c :: t1 ++ rest) with ((c :: t1) ++ rest).
        rewrite (span_digits_app (c :: t1) ds t2 rest Ht Hrest).
        destruct ds; now inversion H.
Qed.

(** A number followed by a delimiter is matched as the number alone is. *)
Lemma match_number_app (t integer frac exp r rest : str) :
  match_number t = Some (integer, frac, exp, r) ->
  ends_number rest ->
  match_number (t ++ rest) = Some (integer, frac, exp, r ++ rest).
Proof.
  unfold match_number. intros H Hrest.
  destruct (match_integer t) as [[i s2]|] eqn:Hi; [|discriminate H].
  destruct (match_frac s2) as [f s3] eqn:Hf.
  destruct (match_exp s3) as [e s4] eqn:He.
  inversion H; subst.
  rewrite (match_integer_app _ _ _ _ Hi Hrest).
  rewrite (match_frac_app _ _ _ _ Hf Hrest).
  now rewrite (match_exp_app _ _ _ _ He Hrest).
Qed.

Lemma number_head_tests (c : ascii) :
  is_digit c = true \/ Ascii.eqb c "-" = true ->
  Ascii.eqb c dquote = false /\ Ascii.eqb c "{" = false /\ Ascii.eqb c "[" = false
  /\ Ascii.eqb "n" c = false /\ Ascii.eqb "t" c = false /\ Ascii.eqb "f" c = false
  /\ is_json_ws c = false /\ Ascii.eqb c "]" = false.
Proof.
  destruct c as [[] [] [] [] [] [] [] []]; intros [H|H];
    try discriminate H; repeat split.
Qed.

Lemma match_number_head (t : str) (x : str * str * str * str) :
  match_number t = Some x ->
  exists c t', t = c :: t' /\ (is_digit c = true \/ Ascii.eqb c "-" = true).
Proof.
  unfold match_number, match_integer. intros H.
  destruct t as [|c t']; [discriminate H|]. exists c, t'. split; [reflexivity|].
  destruct (Ascii.eqb c "-"); [now right|]. left.
  unfold match_unsigned in H.
  destruct (Ascii.eqb c "0") eqn:E0; [apply Ascii.eqb_eq in E0; now subst|].
  destruct (is_digit c); [reflexivity|discriminate H].
Qed.

Section NumberFacts.

Context {FM : FloatModel}.

(** A number of the encoder, followed by a delimiter, is read as the int or
    the float it denotes. *)
Lemma scan_once_number (fuel : nat) (t integer frac exp rest : str) :
  match_number t = Some (integer, frac, exp, []) ->
  ends_number rest ->
  scan_once (S fuel) (t ++ rest)
  = Scanned (match frac, exp with
             | [], [] => PyInt (parse_int integer)
             | _, _ => PyFloat (float_of_literal (integer ++ frac ++ exp))
             end) rest.
Proof.
  intros Hm Hrest.
  destruct (match_number_head t _ Hm) as [c [t' [-> Hc]]].
  destruct (number_head_tests c Hc) as [Hq [Ho [Ha [Hn [Ht [Hf _]]]]]].
  pose proof (match_number_app _ _ _ _ _ _ Hm Hrest) as Happ.
  cbn [app] in Happ |- *. cbn [scan_once].
  rewrite Hq, Ho, Ha.
  cbn [starts_with lit list_ascii_of_string]. rewrite Hn, Ht, Hf.
  cbn [andb]. rewrite Happ. destruct frac, exp; reflexivity.
Qed.

Lemma match_number_digits (sign : str) (c : ascii) (ds : str) :
  (sign = [] \/ sign = ["-"%char]) ->
  is_digit c = true ->
  Forall (fun d => is_digit d = true) ds ->
  (c = "0"%char -> ds = []) ->
  match_number (sign ++ c :: ds) = Some (sign ++ c :: ds, [], [], []).
Proof.
  intros Hsign Hc Hds Hzero.
  destruct (number_head_tests c (or_introl Hc)) as [_ _].
  assert (Hminus : Ascii.eqb c "-" = false)
    by (destruct c as [[] [] [] [] [] [] [] []]; try reflexivity; discriminate Hc).
  assert (Hu : match_unsigned sign (c :: ds) = Some (sign ++ c :: ds, [])).
  { unfold match_unsigned. destruct (Ascii.eqb c "0") eqn:E0.
    - apply Ascii.eqb_eq in E0. subst. now rewrite (Hzero eq_refl).
    - rewrite Hc. pose proof (span_digits_run ds [] Hds I) as Hs.
      rewrite app_nil_r in Hs. now rewrite Hs. }
  unfold match_number, match_integer.
  destruct Hsign as [-> | ->]; cbn [app].
  - rewrite Hminus. change (match_unsigned [] (c :: ds)) with (match_unsigned [] (c :: ds)).
    now rewrite Hu.
  - change (Ascii.eqb "-" "-") with true. cbv iota.
    change ["-"%char] with (["-"%char] : str) in Hu. now rewrite Hu.
Qed.

(** The [repr] of an int is matched as an integer and denotes the int. *)
Lemma Z_to_str_reads (z : Z) :
  match_number (Z_to_str z) = Some (Z_to_str z, [], [], [])
  /\ parse_int (Z_to_str z) = z.
Proof.
  destruct z as [|p|p]; [split; reflexivity| |].
  - destruct (N_to_str_spec (Npos p)) as [Hall [Hval [c [ds [Heq Hzero]]]]].
    cbn [Z_to_str]. rewrite Heq in *.
    assert (Hc : is_digit c = true) by now inversion Hall.
    assert (Hds : Forall (fun d => is_digit d = true) ds) by now inversion Hall.
    split.
    + apply (match_number_digits [] c ds); auto.
      intros E. now destruct (Hzero E).
    + unfold parse_int.
      replace (Ascii.eqb c "-") with false
        by (destruct c as [[] [] [] [] [] [] [] []]; try reflexivity; discriminate Hc).
      now rewrite Hval.
  - destruct (N_to_str_spec (Npos p)) as [Hall [Hval [c [ds [Heq Hzero]]]]].
    cbn [Z_to_str]. rewrite Heq in *.
    assert (Hc : is_digit c = true) by now inversion Hall.
    assert (Hds : Forall (fun d => is_digit d = true) ds) by now inversion Hall.
    split.
    + apply (match_number_digits ["-"%char] c ds); auto.
      intros E. now destruct (Hzero E).
    + unfold parse_int. change (Ascii.eqb "-" "-") with true. cbv iota.
      now rewrite Hval.
Qed.

End NumberFacts.

(** ** The strings that the decoder builds *)

Lemma N_of_ascii_bound (c : ascii) : (N_of_ascii c < 256)%N.
Proof. destruct c as [[] [] [] [] [] [] [] []]; reflexivity. Qed.

Lemma not_surrogate_below (n : N) :
  (n < 55296)%N -> is_high_surrogate n = false /\ is_low_surrogate n = false.
Proof.
  intros H. unfold is_high_surrogate, is_low_surrogate.
  split; apply andb_false_iff; left; apply N.leb_gt; lia.
Qed.

Lemma not_surrogate_above (n : N) :
  (57343 < n)%N -> is_high_surrogate n = false /\ is_low_surrogate n = false.
Proof.
  intros H. unfold is_high_surrogate, is_low_surrogate.
  split; apply andb_false_iff; right; apply N.leb_gt; lia.
Qed.

Lemma backslash_escape_bound (esc : ascii) (ch : N) :
  backslash_escape esc = Some ch -> (ch < 256)%N.
Proof.
  destruct esc as [[] [] [] [] [] [] [] []]; cbn; intros H;
    try discriminate H; injection H as <-; reflexivity.
Qed.

Lemma hex_val_bound (c : ascii) (d : N) : hex_val c = Some d -> (d < 16)%N.
Proof.
  unfold hex_val. pose proof (N_of_ascii_bound c) as Hc.
  generalize dependent (N_of_ascii c). intros n Hn H.
  destruct ((48 <=? n) && (n <=? 57))%N eqn:H1.
  { apply andb_true_iff in H1. destruct H1 as [Ha Hb].
    apply N.leb_le in Ha, Hb. injection H as <-. lia. }
  destruct ((97 <=? n) && (n <=? 102))%N eqn:H2.
  { apply andb_true_iff in H2. destruct H2 as [Ha Hb].
    apply N.leb_le in Ha, Hb. injection H as <-. lia. }
  destruct ((65 <=? n) && (n <=? 70))%N eqn:H3; [|discriminate H].
  apply andb_true_iff in H3. destruct H3 as [Ha Hb].
  apply N.leb_le in Ha, Hb. injection H as <-. lia.
Qed.

Lemma hex4_bound (h1 h2 h3 h4 : ascii) (u : N) :
  hex4 h1 h2 h3 h4 = Some u -> (u < 65536)%N.
Proof.
  unfold hex4.
  destruct (hex_val h1) as [a|] eqn:Ha; [|discriminate].
  destruct (hex_val h2) as [b|] eqn:Hb; [|discriminate].
  destruct (hex_val h3) as [c|] eqn:Hc; [|discriminate].
  destruct (hex_val h4) as [d|] eqn:Hd; [|discriminate].
  apply hex_val_bound in Ha, Hb, Hc, Hd. intros H. injection H as <-. lia.
Qed.

Lemma join_surrogates_bound (uni uni2 : N) :
  is_high_surrogate uni = true ->
  is_low_surrogate uni2 = true ->
  (65536 <= join_surrogates uni uni2 <= 1114111)%N.
Proof.
  unfold is_high_surrogate, is_low_surrogate, join_surrogates.
  intros H1 H2. apply andb_true_iff in H1, H2.
  destruct H1 as [Ha Hb], H2 as [Hc Hd]. apply N.leb_le in Ha, Hb, Hc, Hd.
  rewrite N.shiftl_mul_pow2. change (2 ^ 10)%N with 1024%N.
  rewrite lor_low by lia. lia.
Qed.

(** An escape denotes a code point, and only a plain [\uXXXX] denotes a
    low surrogate. *)
Lemma scan_escape_bound (s1 : str) (cp : N) (rest : str) :
  scan_escape s1 = Escaped cp rest -> (cp <= 1114111)%N.
Proof.
  unfold scan_escape. intros H.
  repeat (break_match H; try discriminate H); inversion H; subst;
    repeat match goal with
           | E : backslash_escape _ = Some _ |- _ =>
               apply backslash_escape_bound in E
           | E : hex4 _ _ _ _ = Some _ |- _ => apply hex4_bound in E
           end;
    try lia.
  now apply join_surrogates_bound.
Qed.

Lemma scan_escape_low (s1 : str) (cp : N) (rest : str) :
  scan_escape s1 = Escaped cp rest ->
  is_low_surrogate cp = true ->
  exists g1 g2 g3 g4,
    s1 = "u"%char :: g1 :: g2 :: g3 :: g4 :: rest
    /\ hex4 g1 g2 g3 g4 = Some cp.
Proof.
  unfold scan_escape. intros H Hlow.
  destruct s1 as [|esc s2]; [discriminate H|].
  destruct (Ascii.eqb esc "u") eqn:Hu; cbn [negb] in H.
  - apply Ascii.eqb_eq in Hu. subst esc.
    destruct s2 as [|g1 [|g2 [|g3 [|g4 s3]]]]; try discriminate H.
    destruct (hex4 g1 g2 g3 g4) as [uni|] eqn:Hhex; [|discriminate H].
    assert (Hplain : Escaped uni s3 = Escaped cp rest ->
                     exists g1' g2' g3' g4',
                       "u"%char :: g1 :: g2 :: g3 :: g4 :: s3
                       = "u"%char :: g1' :: g2' :: g3' :: g4' :: rest
                       /\ hex4 g1' g2' g3' g4' = Some cp).
    { intros Heq. injection Heq as <- <-. now exists g1, g2, g3, g4. }
    destruct (is_high_surrogate uni) eqn:Hhigh; [|now apply Hplain].
    destruct s3 as [|b [|u s4]]; try (now apply Hplain).
    destruct (Ascii.eqb b backslash && Ascii.eqb u "u"); [|now apply Hplain].
    destruct s4 as [|h1 [|h2 [|h3 [|h4 s5]]]]; try discriminate H.
    destruct (hex4 h1 h2 h3 h4) as [uni2|]; [|discriminate H].
    destruct (is_low_surrogate uni2) eqn:Hl; [|now apply Hplain].
    injection H as <- <-.
    pose proof (join_surrogates_bound _ _ Hhigh Hl) as Hb.
    destruct (not_surrogate_above (join_surrogates uni uni2)) as [_ Hn]; [lia|].
    congruence.
  - destruct (backslash_escape esc) as [ch|] eqn:Hesc; [|discriminate H].
    injection H as <- <-. apply backslash_escape_bound in Hesc.
    destruct (not_surrogate_below ch) as [_ Hn]; [lia|]. congruence.
Qed.

(** A high surrogate that an escape leaves alone is not followed by the
    escape of a low one. *)
Lemma scan_escape_high (s1 : str) (cp : N) (rest : str) :
  scan_escape s1 = Escaped cp rest ->
  is_high_surrogate cp = true ->
  pair_follows rest = false.
Proof.
  unfold scan_escape. intros H Hhigh.
  destruct s1 as [|esc s2]; [discriminate H|].
  destruct (negb (Ascii.eqb esc "u")).
  - destruct (backslash_escape esc) as [ch|] eqn:Hesc; [|discriminate H].
    injection H as <- <-. apply backslash_escape_bound in Hesc.
    destruct (not_surrogate_below ch) as [Hn _]; [lia|]. congruence.
  - destruct s2 as [|h1 [|h2 [|h3 [|h4 s3]]]]; try discriminate H.
    destruct (hex4 h1 h2 h3 h4) as [uni|] eqn:Hhex; [|discriminate H].
    destruct (is_high_surrogate uni) eqn:Hu;
      [|injection H as <- <-; congruence].
    unfold pair_follows.
    destruct s3 as [|b [|u s4]]; try (injection H as <- <-; reflexivity).
    destruct (Ascii.eqb b backslash && Ascii.eqb u "u") eqn:Hbu.
    + destruct s4 as [|g1 [|g2 [|g3 [|g4 s5]]]]; try discriminate H.
      destruct (hex4 g1 g2 g3 g4) as [uni2|] eqn:Hhex2; [|discriminate H].
      destruct (is_low_surrogate uni2) eqn:Hl.
      * injection H as <- <-.
        pose proof (join_surrogates_bound _ _ Hu Hl) as Hb.
        destruct (not_surrogate_above (join_surrogates uni uni2)) as [Hn _];
          [lia|]. congruence.
      * injection H as <- <-. now rewrite Hbu, Hhex2.
    + injection H as <- <-. now rewrite Hbu.
Qed.

Lemma pair_follows_next (s : str) :
  pair_follows s = false -> not_low (next_cp s).
Proof.
  intros Hpair. destruct s as [|c s1]; [exact I|]. unfold next_cp.
  destruct (Ascii.eqb c dquote); [exact I|].
  destruct (Ascii.eqb c backslash) eqn:Hb.
  - destruct (scan_escape s1) as [cp r| |] eqn:He; try exact I.
    cbn [not_low]. destruct (is_low_surrogate cp) eqn:Hl; [|reflexivity].
    destruct (scan_escape_low _ _ _ He Hl) as [g1 [g2 [g3 [g4 [-> Hhex]]]]].
    unfold pair_follows in Hpair. rewrite Hb in Hpair.
    change (Ascii.eqb "u" "u") with true in Hpair. cbn [andb] in Hpair.
    rewrite Hhex in Hpair. congruence.
  - destruct (N_of_ascii c <? 32)%N; [exact I|]. cbn [not_low].
    apply not_surrogate_below. pose proof (N_of_ascii_bound c). lia.
Qed.

Lemma unpaired_snoc (l : list N) (a x : N) :
  unpaired (l ++ [a]) ->
  (is_high_surrogate a = true -> is_low_surrogate x = false) ->
  unpaired ((l ++ [a]) ++ [x]).
Proof.
  intros Hl Hax. induction l as [|b l IH].
  - cbn. tauto.
  - destruct l as [|c l].
    + cbn in *. tauto.
    + cbn [app unpaired] in *. destruct Hl as [Hbc Hl]. split; [exact Hbc|].
      now apply IH.
Qed.

(** The invariant of the loop of [scanstring]: the characters read so far
    are well formed, and a trailing high surrogate is not followed by a low
    one. *)
Lemma scanstring_from_wf (n : nat) :
  forall s begin chunks k rest,
    length s <= n ->
    scanstring_from s begin chunks = Scanned k rest ->
    wf_string (rev chunks) ->
    match chunks with
    | a :: _ => is_high_surrogate a = true -> not_low (next_cp s)
    | [] => True
    end ->
    wf_string k.
Proof.
  induction n as [|n IH]; intros s begin chunks k rest Hlen H Hwf Hlast.
  - destruct s; [discriminate H|cbn in Hlen; lia].
  - destruct s as [|c s1]; [discriminate H|].
    rewrite scanstring_from_step in H. cbn [length] in Hlen.
    assert (Hpush : forall cp,
               (cp <= 1114111)%N ->
               next_cp (c :: s1) = Some cp ->
               wf_string (rev (cp :: chunks))).
    { intros cp Hmax Hnext. destruct Hwf as [Hall Hun]. split.
      - cbn [rev]. apply Forall_app. split; [exact Hall|]. now repeat constructor.
      - destruct chunks as [|a chunks]; [exact I|].
        cbn [rev] in *. apply unpaired_snoc; [exact Hun|].
        intros Ha. specialize (Hlast Ha). now rewrite Hnext in Hlast. }
    unfold next_cp in Hpush.
    destruct (Ascii.eqb c dquote); [injection H as <- _; exact Hwf|].
    destruct (Ascii.eqb c backslash).
    + destruct (scan_escape s1) as [cp r| |] eqn:He; try discriminate H.
      pose proof (scan_escape_shorter _ _ _ He) as Hshort.
      apply (IH r begin (cp :: chunks) k rest); [lia|exact H| |].
      * apply Hpush; [exact (scan_escape_bound _ _ _ He)|reflexivity].
      * intros Hhigh. apply pair_follows_next.
        exact (scan_escape_high _ _ _ He Hhigh).
    + destruct (N_of_ascii c <? 32)%N; [discriminate H|].
      pose proof (N_of_ascii_bound c) as Hc.
      apply (IH s1 begin (N_of_ascii c :: chunks) k rest); [lia|exact H| |].
      * apply Hpush; [lia|reflexivity].
      * intros Hhigh.
        destruct (not_surrogate_below (N_of_ascii c)) as [Hn _]; [lia|].
        congruence.
Qed.

Lemma scanstring_wf (s : str) (begin : nat) (k : list N) (rest : str) :
  scanstring s begin = Scanned k rest -> wf_string k.
Proof.
  intros H.
  apply (scanstring_from_wf (length s) s begin [] k rest);
    [lia|exact H| |exact I].
  split; [constructor|exact I].
Qed.

(** ** Dicts built from pairs *)

Section DictFacts.

Context {FM : FloatModel}.

Lemma dict_set_fresh (d : list (list N * pyval FM)) (k : list N) (v : pyval FM) :
  ~ In k (map fst d) -> dict_set d k v = d ++ [(k, v)].
Proof.
  induction d as [|[k' v'] d IH]; intros Hfresh; [reflexivity|].
  cbn [dict_set map fst In] in *.
  destruct (list_eq_dec N.eq_dec k k') as [->|_]; [tauto|].
  cbn [app]. f_equal. apply IH. tauto.
Qed.

Lemma dict_set_keys (d : list (list N * pyval FM)) (k : list N) (v : pyval FM) :
  In k (map fst d) -> map fst (dict_set d k v) = map fst d.
Proof.
  induction d as [|[k' v'] d IH]; intros Hin; [destruct Hin|].
  cbn [dict_set map fst In] in *.
  destruct (list_eq_dec N.eq_dec k k') as [->|Hne]; [reflexivity|].
  cbn [map fst]. f_equal. apply IH. destruct Hin; congruence.
Qed.

Lemma dict_set_nodup (d : list (list N * pyval FM)) (k : list N) (v : pyval FM) :
  NoDup (map fst d) -> NoDup (map fst (dict_set d k v)).
Proof.
  intros Hd. destruct (in_dec (list_eq_dec N.eq_dec) k (map fst d)) as [Hin|Hout].
  - now rewrite dict_set_keys.
  - rewrite dict_set_fresh by assumption. rewrite map_app. cbn [map fst].
    apply NoDup_app; [assumption| |].
    + constructor; [intros []|constructor].
    + intros a Ha [<-|[]]. contradiction.
Qed.

Lemma dict_set_Forall (P : list N * pyval FM -> Prop)
      (d : list (list N * pyval FM)) (k : list N) (v : pyval FM) :
  Forall P d -> P (k, v) -> Forall P (dict_set d k v).
Proof.
  induction 1 as [|[k' v'] d Hkv Hd IH]; intros Hnew; cbn [dict_set].
  - now constructor.
  - destruct (list_eq_dec N.eq_dec k k'); constructor; auto.
Qed.

Lemma dict_fold_nodup (pairs d : list (list N * pyval FM)) :
  NoDup (map fst d) ->
  NoDup (map fst (fold_left (fun d kv => dict_set d (fst kv) (snd kv)) pairs d)).
Proof.
  revert d. induction pairs as [|[k v] pairs IH]; intros d Hd; [exact Hd|].
  cbn [fold_left fst snd]. apply IH. now apply dict_set_nodup.
Qed.

Lemma dict_fold_Forall (P : list N * pyval FM -> Prop)
      (pairs d : list (list N * pyval FM)) :
  Forall P d -> Forall P pairs ->
  Forall P (fold_left (fun d kv => dict_set d (fst kv) (snd kv)) pairs d).
Proof.
  revert d. induction pairs as [|[k v] pairs IH]; intros d Hd Hp; [exact Hd|].
  inversion Hp; subst. cbn [fold_left fst snd]. apply IH; [|assumption].
  now apply dict_set_Forall.
Qed.

Lemma dict_fold_fresh (pairs d : list (list N * pyval FM)) :
  NoDup (map fst (d ++ pairs)) ->
  fold_left (fun d kv => dict_set d (fst kv) (snd kv)) pairs d = d ++ pairs.
Proof.
  revert d. induction pairs as [|[k v] pairs IH]; intros d Hd.
  - now rewrite app_nil_r.
  - cbn [fold_left fst snd].
    assert (Hfresh : ~ In k (map fst d)).
    { rewrite map_app in Hd. cbn [map fst] in Hd.
      apply NoDup_remove_2 in Hd. intros Hin. apply Hd.
      apply in_or_app. now left. }
    rewrite (dict_set_fresh d k v Hfresh), IH; rewrite <- app_assoc; [reflexivity|].
    exact Hd.
Qed.

(** A list of pairs with distinct keys is the dict it builds. *)
Lemma dict_of_pairs_nodup (pairs : list (list N * pyval FM)) :
  NoDup (map fst pairs) -> dict_of_pairs pairs = pairs.
Proof. intros H. unfold dict_of_pairs. now rewrite dict_fold_fresh. Qed.

Lemma dict_of_pairs_keys (pairs : list (list N * pyval FM)) :
  NoDup (map fst (dict_of_pairs pairs)).
Proof. apply dict_fold_nodup. constructor. Qed.

Lemma dict_of_pairs_Forall (P : list N * pyval FM -> Prop)
      (pairs : list (list N * pyval FM)) :
  Forall P pairs -> Forall P (dict_of_pairs pairs).
Proof. intros H. apply dict_fold_Forall; [constructor|exact H]. Qed.

End DictFacts.

(** ** Values: what the encoder writes, the decoder reads *)

Lemma skip_ws_head (c : ascii) (t : str) :
  is_json_ws c = false -> skip_ws (c :: t) = c :: t.
Proof. intros H. cbn [skip_ws]. now rewrite H. Qed.

Lemma skip_ws_space (x : str) : skip_ws (" "%char :: x) = skip_ws x.
Proof. reflexivity. Qed.

Lemma skip_ws_indent (level : nat) (x : str) :
  skip_ws (concat (repeat (lit "  ") level) ++ x) = skip_ws x.
Proof.
  induction level as [|level IH]; [reflexivity|].
  cbn [repeat concat]. rewrite <- app_assoc. exact IH.
Qed.

Lemma skip_ws_newline_indent (level : nat) (x : str) :
  skip_ws (newline_indent level ++ x) = skip_ws x.
Proof.
  unfold newline_indent. cbn [app skip_ws].
  change (is_json_ws newline) with true. cbv iota. apply skip_ws_indent.
Qed.

Lemma join_items_tail (sep close x : str) (items : list str) :
  join sep (x :: items) ++ close = x ++ items_tail sep close items.
Proof.
  revert x. induction items as [|y items IH]; intros x; [reflexivity|].
  change (join sep (x :: y :: items)) with (x ++ sep ++ join sep (y :: items)).
  rewrite <- !app_assoc, IH. reflexivity.
Qed.

Lemma items_tail_delimited (level : nat) (close : str) (items : list str) :
  delimited (newline_indent level ++ close) /\
  forall level',
    delimited (items_tail (lit "," ++ newline_indent level')
                          (newline_indent level ++ close) items).
Proof.
  split; [now right|]. intros level'. destruct items; [now right|now left].
Qed.

Section ValueFacts.

Context {FM : FloatModel}.
Hypothesis laws : FloatLaws FM.

(** Induction on values: a property of a list or of a dict may rest on its
    items. *)
Lemma pyval_ind' (P : pyval FM -> Prop) :
  P PyNone ->
  (forall b, P (PyBool b)) ->
  (forall z, P (PyInt z)) ->
  (forall f, P (PyFloat f)) ->
  (forall s, P (PyStr s)) ->
  (forall items, Forall P items -> P (PyList items)) ->
  (forall items, Forall (fun kv => P (snd kv)) items -> P (PyDict items)) ->
  forall v, P v.
Proof.
  intros HN HB HZ HF HS HL HD. fix IH 1. intros [ |b|z|f|s|items|items].
  - exact HN.
  - apply HB.
  - apply HZ.
  - apply HF.
  - apply HS.
  - apply HL. induction items as [|x xs IHxs]; constructor; [apply IH|exact IHxs].
  - apply HD. induction items as [|[k x] xs IHxs]; constructor;
      [apply IH|exact IHxs].
Qed.

Lemma floatstr_head (f : float) :
  exists c t,
    floatstr f = c :: t /\ is_json_ws c = false /\ Ascii.eqb c "]" = false.
Proof.
  unfold floatstr. destruct (classify f) eqn:Hc.
  - destruct (repr_reads_back laws f Hc) as [i [fr [ex [Hm _]]]].
    destruct (match_number_head _ _ Hm) as [c [t [-> Hd]]].
    destruct (number_head_tests c Hd) as [_ [_ [_ [_ [_ [_ [Hw Hb]]]]]]].
    now exists c, t.
  - now exists "I"%char, (lit "nfinity").
  - now exists "-"%char, (lit "Infinity").
  - now exists "N"%char, (lit "aN").
Qed.

(** An encoded value begins with a character that is neither whitespace
    nor a closing bracket. *)
Lemma iterencode_head (v : pyval FM) (level : nat) :
  exists c t,
    iterencode v level = c :: t /\ is_json_ws c = false /\ Ascii.eqb c "]" = false.
Proof.
  destruct v as [ |[|]|z|f|s|[|x items]|[|kv items]];
    try (eexists; eexists; split; [reflexivity|split; reflexivity]).
  - destruct (Z_to_str_reads z) as [Hm _].
    destruct (match_number_head _ _ Hm) as [c [t [Heq Hd]]].
    destruct (number_head_tests c Hd) as [_ [_ [_ [_ [_ [_ [Hw Hb]]]]]]].
    exists c, t. cbn [iterencode]. now rewrite Heq.
  - apply floatstr_head.
Qed.

Lemma skip_ws_encoded (v : pyval FM) (level : nat) (x : str) :
  skip_ws (iterencode v level ++ x) = iterencode v level ++ x.
Proof.
  destruct (iterencode_head v level) as [c [t [-> [Hw _]]]].
  cbn [app]. now apply skip_ws_head.
Qed.

Lemma iterencode_list_cons (x : pyval FM) (xs : list (pyval FM)) (level : nat) :
  iterencode (PyList (x :: xs)) level
  = lit "[" ++ newline_indent (S level)
    ++ join (lit "," ++ newline_indent (S level))
            (map (fun value => iterencode value (S level)) (x :: xs))
    ++ newline_indent level ++ lit "]".
Proof. reflexivity. Qed.

Lemma iterencode_dict_cons (kv : list N * pyval FM) (d : list (list N * pyval FM))
      (level : nat) :
  iterencode (PyDict (kv :: d)) level
  = lit "{" ++ newline_indent (S level)
    ++ join (lit "," ++ newline_indent (S level))
            (map (encode_member level) (kv :: d))
    ++ newline_indent level ++ lit "}".
Proof. reflexivity. Qed.

(** The loop of [JSONArray] on the items of an encoded list. *)
Lemma array_items_reads (level : nat) (rest : str) (vs : list (pyval FM)) :
  Forall reads_back vs ->
  forall v values,
    reads_back v ->
    exists n, forall fuel, n <= fuel ->
      array_items fuel
        (iterencode v (S level)
         ++ items_tail (lit "," ++ newline_indent (S level))
                       (newline_indent level ++ lit "]" ++ rest)
                       (map (fun value => iterencode value (S level)) vs))
        values
      = Scanned (PyList (rev values ++ v :: vs)) rest.
Proof.
  induction 1 as [|v' vs' Hv' _ IH]; intros v values Hv.
  - cbn [map items_tail fold_right].
    destruct (Hv (S level) (newline_indent level ++ lit "]" ++ rest))
      as [n1 Hscan]; [now right|].
    exists (S n1). intros [|fuel] Hle; [lia|].
    cbn [array_items]. rewrite Hscan by lia.
    rewrite skip_ws_newline_indent. cbn [lit list_ascii_of_string app skip_ws].
    change (is_json_ws "]") with false. cbv iota.
    change (Ascii.eqb "]" "]") with true. cbv iota.
    cbn [rev]. reflexivity.
  - cbn [map items_tail fold_right].
    set (tail := fold_right
                   (fun item acc => (lit "," ++ newline_indent (S level)) ++ item ++ acc)
                   (newline_indent level ++ lit "]" ++ rest)
                   (map (fun value => iterencode value (S level)) vs')).
    destruct (Hv (S level)
                ((lit "," ++ newline_indent (S level))
                 ++ iterencode v' (S level) ++ tail))
      as [n1 Hscan]; [now left|].
    destruct (IH v' (v :: values) Hv') as [n2 Hloop].
    exists (S (Nat.max n1 n2)). intros [|fuel] Hle; [lia|].
    cbn [array_items]. rewrite Hscan by lia.
    cbn [lit list_ascii_of_string app skip_ws].
    change (is_json_ws ",") with false. cbv iota.
    change (Ascii.eqb "," "]") with false. cbv iota.
    change (Ascii.eqb "," ",") with true. cbv iota.
    rewrite skip_ws_newline_indent, skip_ws_encoded.
    fold tail in Hloop. unfold items_tail in Hloop. fold tail in Hloop.
    rewrite Hloop by lia. cbn [rev]. rewrite <- app_assoc. reflexivity.
Qed.

(** The loop of [JSONObject] on the members of an encoded dict. *)
Lemma object_items_reads (level : nat) (rest : str)
      (d : list (list N * pyval FM)) :
  Forall (fun kv => wf_string (fst kv) /\ reads_back (snd kv)) d ->
  forall k v pairs,
    wf_string k ->
    reads_back v ->
    exists n, forall fuel, n <= fuel ->
      object_items fuel
        (flat_map escape_char k ++ dquote
         :: lit ": " ++ iterencode v (S level)
         ++ items_tail (lit "," ++ newline_indent (S level))
                       (newline_indent level ++ lit "}" ++ rest)
                       (map (encode_member level) d))
        pairs
      = Scanned (PyDict (dict_of_pairs (rev pairs ++ (k, v) :: d))) rest.
Proof.
  induction 1 as [|[k' v'] d' [Hk' Hv'] _ IH]; intros k v pairs Hk Hv.
  - cbn [map items_tail fold_right].
    destruct (Hv (S level) (newline_indent level ++ lit "}" ++ rest))
      as [n1 Hscan]; [now right|].
    exists (S n1). intros [|fuel] Hle; [lia|].
    cbn [object_items]. unfold scanstring. rewrite (scanstring_reads k Hk).
    cbn [rev app lit list_ascii_of_string skip_ws].
    change (is_json_ws ":") with false. cbv iota.
    change (Ascii.eqb ":" ":") with true. cbv iota.
    rewrite skip_ws_space, skip_ws_encoded.
    cbn [lit list_ascii_of_string app] in Hscan. rewrite Hscan by lia.
    rewrite skip_ws_newline_indent. cbn [skip_ws].
    change (is_json_ws "}") with false. cbv iota.
    change (Ascii.eqb "}" "}") with true. cbv iota.
    cbn [rev]. reflexivity.
  - cbn [map items_tail fold_right].
    set (tail := fold_right
                   (fun item acc => (lit "," ++ newline_indent (S level)) ++ item ++ acc)
                   (newline_indent level ++ lit "}" ++ rest)
                   (map (encode_member level) d')).
    destruct (Hv (S level)
                ((lit "," ++ newline_indent (S level))
                 ++ encode_member level (k', v') ++ tail))
      as [n1 Hscan]; [now left|].
    destruct (IH k' v' ((k, v) :: pairs) Hk' Hv') as [n2 Hloop].
    exists (S (Nat.max n1 n2)). intros [|fuel] Hle; [lia|].
    cbn [object_items]. unfold scanstring. rewrite (scanstring_reads k Hk).
    cbn [rev app lit list_ascii_of_string skip_ws].
    change (is_json_ws ":") with false. cbv iota.
    change (Ascii.eqb ":" ":") with true. cbv iota.
    rewrite skip_ws_space, skip_ws_encoded.
    cbn [lit list_ascii_of_string app] in Hscan. rewrite Hscan by lia.
    cbn [skip_ws].
    change (is_json_ws ",") with false. cbv iota.
    change (Ascii.eqb "," "}") with false. cbv iota.
    change (Ascii.eqb "," ",") with true. cbv iota.
    rewrite skip_ws_newline_indent.
    unfold encode_member at 1, encode_basestring_ascii. cbn [fst snd app skip_ws].
    change (is_json_ws dquote) with false. cbv iota.
    change (Ascii.eqb dquote dquote) with true. cbv iota.
    fold tail in Hloop. unfold items_tail in Hloop. fold tail in Hloop.
    rewrite <- !app_assoc. cbn [app lit list_ascii_of_string] in Hloop |- *.
    rewrite Hloop by lia. cbn [rev]. rewrite <- app_assoc. reflexivity.
Qed.

Lemma wf_list_Forall (items : list (pyval FM)) :
  fold_right (fun x acc => wf x /\ acc) True items <-> Forall wf items.
Proof.
  induction items as [|x xs IH]; cbn [fold_right].
  - split; [constructor|trivial].
  - rewrite Forall_cons_iff, IH. reflexivity.
Qed.

Lemma wf_dict_Forall (items : list (list N * pyval FM)) :
  fold_right (fun kv acc => wf_string (fst kv) /\ wf (snd kv) /\ acc) True items
  <-> Forall (fun kv => wf_string (fst kv) /\ wf (snd kv)) items.
Proof.
  induction items as [|x xs IH]; cbn [fold_right].
  - split; [constructor|trivial].
  - rewrite Forall_cons_iff, IH. tauto.
Qed.

(** The encoding of a well-formed value, followed by a delimiter, is read
    back as that value. *)
Lemma iterencode_reads (v : pyval FM) : wf v -> reads_back v.
Proof.
  induction v as [ |b|z|f|s|items IH|items IH] using pyval_ind';
    intros Hwf level rest Hrest.
  - exists 1. intros [|fuel] Hle; [lia|]. reflexivity.
  - exists 1. intros [|fuel] Hle; [lia|]. now destruct b.
  - exists 1. intros [|fuel] Hle; [lia|].
    destruct (Z_to_str_reads z) as [Hm Hp]. cbn [iterencode].
    rewrite (scan_once_number fuel _ _ _ _ _ Hm (delimited_ends_number _ Hrest)).
    now rewrite Hp.
  - exists 1. intros [|fuel] Hle; [lia|].
    cbn [iterencode]. unfold floatstr. destruct (classify f) eqn:Hc.
    + destruct (repr_reads_back laws f Hc) as [i [fr [ex [Hm [Hne Hf]]]]].
      rewrite (scan_once_number fuel _ _ _ _ _ Hm (delimited_ends_number _ Hrest)).
      rewrite Hf. destruct fr; [destruct ex|]; try reflexivity.
      now destruct Hne.
    + now rewrite (one_inf laws f Hc).
    + now rewrite (one_neg_inf laws f Hc).
    + now rewrite (one_nan laws f Hc).
  - exists 1. intros [|fuel] Hle; [lia|].
    cbn [iterencode]. cbn [wf] in Hwf.
    destruct (scanstring_encoded s (length (encode_basestring_ascii s ++ rest))
                                 rest Hwf) as [body [Heq Hscan]].
    revert Hscan. rewrite Heq. intros Hscan.
    cbn [scan_once]. change (Ascii.eqb dquote dquote) with true. cbv iota.
    now rewrite Hscan.
  - cbn [wf] in Hwf. apply wf_list_Forall in Hwf.
    assert (Hall : Forall reads_back items).
    { clear - IH Hwf. induction IH as [|x xs Hx _ IHxs]; [constructor|].
      inversion Hwf; subst. constructor; auto. }
    clear IH Hwf. destruct Hall as [|x xs Hx Hxs].
    + exists 1. intros [|fuel] Hle; [lia|]. reflexivity.
    + destruct (array_items_reads level rest xs Hxs x [] Hx) as [n Hloop].
      exists (S n). intros [|fuel] Hle; [lia|].
      rewrite iterencode_list_cons. cbn [map].
      rewrite <- !app_assoc, join_items_tail.
      cbn [lit list_ascii_of_string app scan_once].
      change (Ascii.eqb "[" dquote) with false. cbv iota.
      change (Ascii.eqb "[" "{") with false. cbv iota.
      change (Ascii.eqb "[" "[") with true. cbv iota.
      rewrite skip_ws_newline_indent, skip_ws_encoded.
      destruct (iterencode_head x (S level)) as [c [t [Hhead [_ Hclose]]]].
      cbn [lit list_ascii_of_string app] in Hloop.
      specialize (Hloop fuel ltac:(lia)). revert Hloop.
      rewrite Hhead. cbn [app]. rewrite Hclose. now intros ->.
  - cbn [wf] in Hwf. destruct Hwf as [Hkeys Hwf]. apply wf_dict_Forall in Hwf.
    assert (Hall : Forall (fun kv => wf_string (fst kv) /\ reads_back (snd kv))
                          items).
    { clear - IH Hwf. induction IH as [|x xs Hx _ IHxs]; [constructor|].
      inversion Hwf as [|? ? [? ?] ?]; subst. constructor; auto. }
    clear IH Hwf. destruct Hall as [|[k x] xs [Hk Hx] Hxs].
    + exists 1. intros [|fuel] Hle; [lia|]. reflexivity.
    + destruct (object_items_reads level rest xs Hxs k x [] Hk Hx) as [n Hloop].
      exists (S n). intros [|fuel] Hle; [lia|].
      rewrite iterencode_dict_cons. cbn [map].
      rewrite <- !app_assoc, join_items_tail.
      cbn [lit list_ascii_of_string app scan_once].
      change (Ascii.eqb "{" dquote) with false. cbv iota.
      change (Ascii.eqb "{" "{") with true. cbv iota.
      rewrite skip_ws_newline_indent.
      unfold encode_member at 1, encode_basestring_ascii.
      cbn [fst snd app skip_ws].
      change (is_json_ws dquote) with false. cbv iota.
      change (Ascii.eqb dquote dquote) with true. cbv iota.
      rewrite <- !app_assoc.
      cbn [lit list_ascii_of_string app rev] in Hloop |- *.
      rewrite Hloop by lia. now rewrite (dict_of_pairs_nodup _ Hkeys).
Qed.

(** Every value that the decoder builds is well formed. *)
Lemma scan_wf (fuel : nat) :
  (forall s v rest, scan_once fuel s = Scanned v rest -> wf v)
  /\ (forall s values v rest,
         Forall wf values ->
         array_items fuel s values = Scanned v rest -> wf v)
  /\ (forall s pairs v rest,
         Forall (fun kv => wf_string (fst kv) /\ wf (snd kv)) pairs ->
         object_items fuel s pairs = Scanned v rest -> wf v).
Proof.
  induction fuel as [|fuel [IHv [IHa IHo]]].
  - repeat split; intros; discriminate.
  - split; [|split].
    + intros s v rest H. cbn [scan_once] in H.
      destruct s as [|nextchar t]; [discriminate H|].
      destruct (Ascii.eqb nextchar dquote).
      { destruct (scanstring t (length (nextchar :: t))) as [k r| |] eqn:Hs;
          inversion H; subst.
        exact (scanstring_wf _ _ _ _ Hs). }
      destruct (Ascii.eqb nextchar "{").
      { destruct (skip_ws t) as [|c t1]; [discriminate H|].
        destruct (Ascii.eqb c dquote).
        - apply (IHo _ _ _ _ (Forall_nil _) H).
        - destruct (Ascii.eqb c "}"); inversion H; subst.
          split; [constructor|exact I]. }
      destruct (Ascii.eqb nextchar "[").
      { destruct (skip_ws t) as [|c t1].
        - apply (IHa _ _ _ _ (Forall_nil _) H).
        - destruct (Ascii.eqb c "]").
          + inversion H; subst. exact I.
          + apply (IHa _ _ _ _ (Forall_nil _) H). }
      destruct (starts_with (lit "null") (nextchar :: t));
        [injection H as <- _; exact I|].
      destruct (starts_with (lit "true") (nextchar :: t));
        [injection H as <- _; exact I|].
      destruct (starts_with (lit "false") (nextchar :: t));
        [injection H as <- _; exact I|].
      destruct (match_number (nextchar :: t)) as [[[[integer frac] exp] r]|].
      { destruct frac, exp; inversion H; subst; exact I. }
      destruct (starts_with (lit "NaN") (nextchar :: t));
        [injection H as <- _; exact I|].
      destruct (starts_with (lit "Infinity") (nextchar :: t));
        [injection H as <- _; exact I|].
      destruct (starts_with (lit "-Infinity") (nextchar :: t));
        [injection H as <- _; exact I|].
      discriminate H.
    + intros s values v rest Hvalues H. cbn [array_items] in H.
      destruct (scan_once fuel s) as [value r| |] eqn:Hv; try discriminate H.
      apply IHv in Hv.
      assert (Hall : Forall wf (value :: values)) by now constructor.
      destruct (skip_ws r) as [|c r1]; [discriminate H|].
      destruct (Ascii.eqb c "]").
      { injection H as <- _. cbn [wf]. apply wf_list_Forall.
        change (Forall wf (rev (value :: values))).
        apply Forall_rev. exact Hall. }
      destruct (Ascii.eqb c ","); [|discriminate H].
      exact (IHa _ _ _ _ Hall H).
    + intros s pairs v rest Hpairs H. cbn [object_items] in H.
      destruct (scanstring s (S (length s))) as [key r| |] eqn:Hk;
        try discriminate H.
      apply scanstring_wf in Hk.
      destruct (skip_ws r) as [|c r1]; [discriminate H|].
      destruct (Ascii.eqb c ":"); [|discriminate H].
      destruct (scan_once fuel (skip_ws r1)) as [value r2| |] eqn:Hv;
        try discriminate H.
      apply IHv in Hv.
      assert (Hall : Forall (fun kv => wf_string (fst kv) /\ wf (snd kv))
                            ((key, value) :: pairs)) by now constructor.
      destruct (skip_ws r2) as [|c1 r3]; [discriminate H|].
      destruct (Ascii.eqb c1 "}").
      { injection H as <- _. cbn [wf]. split; [apply dict_of_pairs_keys|].
        apply wf_dict_Forall, dict_of_pairs_Forall.
        change (Forall (fun kv => wf_string (fst kv) /\ wf (snd kv))
                       (rev ((key, value) :: pairs))).
        apply Forall_rev. exact Hall. }
      destruct (Ascii.eqb c1 ","); [|discriminate H].
      destruct (skip_ws r3) as [|c2 r4]; [discriminate H|].
      destruct (Ascii.eqb c2 dquote); [|discriminate H].
      exact (IHo _ _ _ _ Hall H).
Qed.

Lemma json_loads_wf (s : str) (v : pyval FM) : json_loads s = inr v -> wf v.
Proof.
  unfold json_loads. intros H.
  destruct (scan_once (decode_fuel s) (skip_ws s)) as [obj rest| |] eqn:Hscan;
    try discriminate H.
  destruct (skip_ws rest); [|discriminate H].
  injection H as <-. exact (proj1 (scan_wf _) _ _ _ Hscan).
Qed.

(** [json.loads(json.dumps(v, indent=2))] is [v], for a well-formed [v]. *)
Lemma json_loads_dumps (v : pyval FM) :
  wf v -> json_loads (json_dumps v) = inr v.
Proof.
  intros Hwf. unfold json_loads, json_dumps.
  set (s := iterencode v 0).
  assert (Hskip : skip_ws s = s).
  { pose proof (skip_ws_encoded v 0 []) as H. now rewrite app_nil_r in H. }
  pose proof (json_loads_fuel s) as Hfuel. rewrite Hskip in *.
  destruct (iterencode_reads v Hwf 0 [] I) as [n Hscan].
  fold s in Hscan. rewrite app_nil_r in Hscan.
  destruct (scan_fuel_mono (decode_fuel s) (Nat.max n (decode_fuel s))
                           ltac:(lia)) as [Hmono _].
  rewrite <- (Hmono s Hfuel), Hscan by lia. reflexivity.
Qed.

End ValueFacts.

(** ** The float model of unbounded precision keeps the laws *)

Lemma digit_not_sign (c : ascii) :
  is_digit c = true ->
  Ascii.eqb c "-" = false /\ Ascii.eqb c "+" = false.
Proof.
  intros Hc. destruct c as [[] [] [] [] [] [] [] []];
    try discriminate Hc; repeat split.
Qed.

Lemma span_digits_all (ds : str) :
  Forall (fun c => is_digit c = true) ds -> span_digits ds = (ds, []).
Proof.
  intros H. pose proof (span_digits_run ds [] H I) as Hs.
  now rewrite app_nil_r in Hs.
Qed.

Lemma parse_exponent_repr (e : Z) : parse_exponent (Z_to_str e) = e.
Proof.
  destruct e as [|p|p]; [reflexivity| |].
  - destruct (N_to_str_spec (Npos p)) as [Hall [Hval [c [ds [Heq _]]]]].
    cbn [Z_to_str]. rewrite Heq in *. unfold parse_exponent.
    assert (Hc : is_digit c = true) by now inversion Hall.
    destruct (digit_not_sign c Hc) as [-> ->]. now rewrite Hval.
  - cbn [Z_to_str]. unfold parse_exponent.
    change (Ascii.eqb "-" "+") with false. change (Ascii.eqb "-" "-") with true.
    cbv iota. destruct (N_to_str_spec (Npos p)) as [_ [-> _]]. reflexivity.
Qed.

Lemma match_exp_repr (e : Z) :
  match_exp ("e"%char :: Z_to_str e) = ("e"%char :: Z_to_str e, []).
Proof.
  unfold match_exp. change (Ascii.eqb "e" "e" || Ascii.eqb "e" "E") with true.
  cbv iota. destruct e as [|p|p]; [reflexivity| |].
  - destruct (N_to_str_spec (Npos p)) as [Hall [_ [c [ds [Heq _]]]]].
    cbn [Z_to_str]. rewrite Heq in *.
    assert (Hc : is_digit c = true) by now inversion Hall.
    destruct (digit_not_sign c Hc) as [-> ->]. cbn [orb].
    now rewrite (span_digits_all _ Hall).
  - destruct (N_to_str_spec (Npos p)) as [Hall [_ [c [ds [Heq _]]]]].
    cbn [Z_to_str]. rewrite Heq in *.
    change (Ascii.eqb "-" "-" || Ascii.eqb "-" "+") with true. cbv iota.
    now rewrite (span_digits_all _ Hall).
Qed.

Lemma exact_decimal_laws : FloatLaws exact_decimal.
Proof.
  split.
  - intros [negative m e| | |] Hc; try discriminate Hc. clear Hc.
    set (sign := if negative then lit "-" else []).
    exists (sign ++ N_to_str m), [], ("e"%char :: Z_to_str e).
    destruct (N_to_str_spec m) as [Hall [Hval [c [ds [Heq Hzero]]]]].
    assert (Hc : is_digit c = true) by (rewrite Heq in Hall; now inversion Hall).
    assert (Hds : Forall (fun d => is_digit d = true) ds)
      by (rewrite Heq in Hall; now inversion Hall).
    destruct (digit_not_sign c Hc) as [Hminus Hplus].
    assert (Hspan : span_digits (ds ++ "e"%char :: Z_to_str e)
                    = (ds, "e"%char :: Z_to_str e))
      by (apply span_digits_run; [exact Hds|reflexivity]).
    assert (Hu : forall sg,
               match_unsigned sg (c :: ds ++ "e"%char :: Z_to_str e)
               = Some (sg ++ c :: ds, "e"%char :: Z_to_str e)).
    { intros sg. unfold match_unsigned. destruct (Ascii.eqb c "0") eqn:E0.
      - apply Ascii.eqb_eq in E0. destruct (Hzero E0) as [_ ->]. reflexivity.
      - now rewrite Hc, Hspan. }
    split; [|split].
    + change (@float_repr exact_decimal (Dec negative m e))
        with (sign ++ N_to_str m ++ lit "e" ++ Z_to_str e).
      rewrite Heq. unfold match_number, match_integer.
      cbn [lit list_ascii_of_string app].
      assert (Hint : match sign ++ c :: ds ++ "e"%char :: Z_to_str e with
                     | [] => None
                     | c0 :: t =>
                         if Ascii.eqb c0 "-" then match_unsigned [c0] t
                         else match_unsigned [] (sign ++ c :: ds ++ "e"%char :: Z_to_str e)
                     end
                     = Some (sign ++ c :: ds, "e"%char :: Z_to_str e)).
      { subst sign. destruct negative; cbn [lit list_ascii_of_string app].
        - change (Ascii.eqb "-" "-") with true. cbv iota. apply (Hu ["-"%char]).
        - rewrite Hminus. apply (Hu []). }
      rewrite Hint. unfold match_frac.
      change (Ascii.eqb "e" ".") with false. cbv iota.
      now rewrite match_exp_repr.
    + right. discriminate.
    + change (@float_of_literal exact_decimal
                ((sign ++ N_to_str m) ++ [] ++ "e"%char :: Z_to_str e))
        with (decimal_of_literal
                ((sign ++ N_to_str m) ++ [] ++ "e"%char :: Z_to_str e)).
      rewrite Heq, <- app_assoc. cbn [app]. unfold decimal_of_literal.
      assert (Hsign : literal_sign (sign ++ c :: ds ++ "e"%char :: Z_to_str e)
                      = (negative, c :: ds ++ "e"%char :: Z_to_str e)).
      { subst sign. destruct negative; cbn [lit list_ascii_of_string app];
          unfold literal_sign; [reflexivity|]. now rewrite Hminus, Hplus. }
      rewrite Hsign. cbn [span_digits]. rewrite Hc, Hspan.
      unfold literal_fraction, literal_exponent.
      change (Ascii.eqb "e" ".") with false.
      change (Ascii.eqb "e" "e" || Ascii.eqb "e" "E") with true. cbv iota.
      rewrite parse_exponent_repr, app_nil_r. cbn [length Z.of_nat].
      rewrite Z.sub_0_r. rewrite <- Heq, Hval. reflexivity.
  - intros [ | | | ] H; try discriminate H; reflexivity.
  - intros [ | | | ] H; try discriminate H; reflexivity.
  - intros [ | | | ] H; try discriminate H; reflexivity.
Qed.

(** ** The JSON passthrough extractor: round trip *)



(* ================================================================== *)
(** * Further properties of the code *)

(** ** The retrying generator, for every client *)

Lemma count_requests_app (a b : list event) :
  count_requests (a ++ b) = count_requests a + count_requests b.
Proof. unfold count_requests. now rewrite filter_app, length_app. Qed.

Lemma filter_sleep_app (a b : list event) :
  length (filter is_sleep (a ++ b))
  = length (filter is_sleep a) + length (filter is_sleep b).
Proof. now rewrite filter_app, length_app. Qed.

Section AttemptFacts.

Context {FM : FloatModel}.

(** The handling of a response logs at most the parse error, and logs
    nothing when it raises. *)
Lemma handle_response_log (content : option str) :
  match handle_response (FM := FM) content with
  | (Return _, log) => log = [] \/ exists msg, log = [LogError msg]
  | (Raise _, log) => log = []
  end.
Proof.
  destruct content as [response|]; cbn [handle_response]; [|reflexivity].
  destruct ((find response "{" =? -1)%Z || (rfind response "}" + 1 =? 0)%Z);
    [reflexivity|].
  destruct (json_loads _) as [e|schema]; [right; eexists; reflexivity|now left].
Qed.

Variable client : llm_client.
Variables deployment text_content : str.
Variable user_prompt : option str.

Let request : completion_request :=
  make_request deployment schema_system_message
               (retry_prompt text_content user_prompt).

Let exhausted : pyval FM :=
  error_marker (lit "Failed to generate schema after multiple attempts").

(** One turn of the loop when the attempt fails. *)
Lemma attempts_loop_failed (attempt : Z) (rest : list Z) (t : trace) (e : exn) :
  attempt_raises (FM := FM) (client t request) e ->
  JsonIdGenerator.attempts_loop client deployment text_content user_prompt
                                (attempt :: rest) t
  = JsonIdGenerator.attempts_loop client deployment text_content user_prompt rest
      (t ++ failed_attempts request attempt [e]).
Proof.
  intros Hraises. rewrite attempts_loop_step. cbv zeta. fold request.
  destruct Hraises as [-> | [content [-> Hraise]]].
  - f_equal. cbn [failed_attempts]. trace_eq.
  - pose proof (handle_response_log content) as Hlog.
    destruct (handle_response content) as [[schema|e'] log];
      cbn [fst] in Hraise; [discriminate Hraise|].
    injection Hraise as ->. subst log. f_equal. cbn [failed_attempts]. trace_eq.
Qed.

Lemma failed_attempts_app (attempt : Z) (a b : list exn) :
  failed_attempts request attempt (a ++ b)
  = failed_attempts request attempt a
    ++ failed_attempts request (attempt + Z.of_nat (length a)) b.
Proof.
  revert attempt. induction a as [|e a IH]; intros attempt.
  - cbn [app failed_attempts length]. now rewrite Z.add_0_r.
  - cbn [app failed_attempts length]. rewrite IH.
    replace (attempt + Z.of_nat (S (length a)))%Z
      with (attempt + 1 + Z.of_nat (length a))%Z by lia.
    reflexivity.
Qed.

(** The loop over a stretch of attempts that all fail. *)
Lemma attempts_loop_failures (failures : list exn) :
  forall (first : nat) (more : list Z) (t : trace),
    (forall done e rest,
        failures = done ++ e :: rest ->
        attempt_raises (FM := FM)
          (client (t ++ failed_attempts request (Z.of_nat first) done) request) e) ->
    JsonIdGenerator.attempts_loop client deployment text_content user_prompt
      (map Z.of_nat (seq first (length failures)) ++ more) t
    = JsonIdGenerator.attempts_loop client deployment text_content user_prompt
        more (t ++ failed_attempts request (Z.of_nat first) failures).
Proof.
  induction failures as [|e failures IH]; intros first more t Hfail.
  - cbn [length seq map app failed_attempts]. now rewrite app_nil_r.
  - cbn [length seq map app].
    rewrite (attempts_loop_failed (Z.of_nat first) _ t e).
    + rewrite (IH (S first) more).
      * f_equal. cbn [failed_attempts app]. rewrite <- app_assoc. cbn [app].
        replace (Z.of_nat (S first)) with (Z.of_nat first + 1)%Z by lia.
        reflexivity.
      * intros done e' rest Heq.
        specialize (Hfail (e :: done) e' rest). cbn [app] in Hfail.
        rewrite Heq in Hfail. specialize (Hfail eq_refl).
        cbn [failed_attempts app] in Hfail |- *. rewrite <- app_assoc.
        cbn [app].
        replace (Z.of_nat (S first)) with (Z.of_nat first + 1)%Z by lia.
        exact Hfail.
    + specialize (Hfail [] e failures eq_refl). cbn [failed_attempts] in Hfail.
      now rewrite app_nil_r in Hfail.
Qed.

(** What every run of the loop comes to. *)
Lemma attempts_loop_budget (attempts : list Z) :
  forall t,
  exists (value : pyval FM) (ext : list event),
    JsonIdGenerator.attempts_loop client deployment text_content user_prompt
                                  attempts t
    = (Return value, t ++ ext)
    /\ Forall (fun ev => is_completion_request ev = true ->
                         ev = ChatCompletion request) ext
    /\ Forall (fun ev => is_sleep ev = true -> ev = Sleep 2) ext
    /\ ((value = exhausted
         /\ count_requests ext = length attempts
         /\ length (filter is_sleep ext) = length attempts)
        \/ (count_requests ext <= length attempts
            /\ S (length (filter is_sleep ext)) = count_requests ext)).
Proof.
  induction attempts as [|attempt rest IH]; intros t.
  - exists exhausted, []. cbn. rewrite app_nil_r. repeat split; auto.
  - rewrite attempts_loop_step. cbv zeta. fold request.
    assert (Hfailed :
              forall e,
              exists (value : pyval FM) (ext : list event),
                JsonIdGenerator.attempts_loop client deployment text_content
                  user_prompt rest
                  (((t ++ [ChatCompletion request])
                    ++ [LogError (lit "Attempt " ++ Z_to_str (attempt + 1)
                                  ++ lit " failed: " ++ exn_str e)]) ++ [Sleep 2])
                = (Return value, t ++ ext)
                /\ Forall (fun ev => is_completion_request ev = true ->
                                     ev = ChatCompletion request) ext
                /\ Forall (fun ev => is_sleep ev = true -> ev = Sleep 2) ext
                /\ ((value = exhausted
                     /\ count_requests ext = length (attempt :: rest)
                     /\ length (filter is_sleep ext) = length (attempt :: rest))
                    \/ (count_requests ext <= length (attempt :: rest)
                        /\ S (length (filter is_sleep ext)) = count_requests ext))).
    { intros e.
      destruct (IH (((t ++ [ChatCompletion request])
                     ++ [LogError (lit "Attempt " ++ Z_to_str (attempt + 1)
                                   ++ lit " failed: " ++ exn_str e)]) ++ [Sleep 2]))
        as [value [ext [Hrun [Hreq [Hsl Hcount]]]]].
      exists value,
        ([ChatCompletion request;
          LogError (lit "Attempt " ++ Z_to_str (attempt + 1)
                    ++ lit " failed: " ++ exn_str e);
          Sleep 2] ++ ext).
      split; [rewrite Hrun; f_equal; trace_eq|].
      split; [repeat constructor; try discriminate; exact Hreq|].
      split; [repeat constructor; try discriminate; exact Hsl|].
      rewrite count_requests_app, filter_sleep_app. cbn [length].
      change (count_requests [ChatCompletion request; LogError _; Sleep 2]) with 1.
      change (length (filter is_sleep [ChatCompletion request; LogError _; Sleep 2]))
        with 1.
      destruct Hcount as [[Hv [Hc Hs]]|[Hc Hs]]; [left|right]; repeat split;
        try assumption; lia. }
    destruct (client t request) as [e|content]; [apply Hfailed|].
    pose proof (handle_response_log content) as Hlog.
    destruct (handle_response content) as [[schema|e] log].
    + exists schema, (ChatCompletion request :: log).
      split; [f_equal; trace_eq|].
      destruct Hlog as [-> | [msg ->]];
        (split; [repeat constructor; discriminate|]);
        (split; [repeat constructor; discriminate|]);
        right; cbn; split; lia.
    + subst log. rewrite app_nil_r. apply Hfailed.
Qed.

End AttemptFacts.

Lemma range_nonpositive (retries : Z) :
  (retries <= 0)%Z -> JsonIdGenerator.range retries = [].
Proof.
  intros H. unfold JsonIdGenerator.range.
  replace (Z.to_nat retries) with 0 by lia. reflexivity.
Qed.


(** X1.  Whatever the client does, the retrying [generate_schema] raises
    nothing and sends at most [retries] requests, every one of them the
    same request; it waits two seconds after each failed attempt and at no
    other time.  Either all [retries] attempts failed and the result is the
    exhaustion marker, or the last request is the one whose handling
    returned, with one wait fewer than requests. *)
Theorem retry_request_budget {FM : FloatModel} :
  forall (client : llm_client) (deployment text_content : str)
         (url user_prompt : option str) (retries : Z) (t : trace),
    let request := make_request deployment schema_system_message
                                (retry_prompt text_content user_prompt) in
    exists (value : pyval FM) (ext : list event),
      JsonIdGenerator.generate_schema client deployment text_content url
                                      user_prompt retries t
      = (Return value, t ++ ext)
      /\ Forall (fun ev => is_completion_request ev = true ->
                           ev = ChatCompletion request) ext
      /\ Forall (fun ev => is_sleep ev = true -> ev = Sleep 2) ext
      /\ ((value = error_marker
                     (lit "Failed to generate schema after multiple attempts")
           /\ count_requests ext = Z.to_nat retries
           /\ length (filter is_sleep ext) = Z.to_nat retries)
          \/ (count_requests ext <= Z.to_nat retries
              /\ S (length (filter is_sleep ext)) = count_requests ext)).
Proof.
  intros client deployment text_content url user_prompt retries t request.
  unfold JsonIdGenerator.generate_schema.
  destruct (attempts_loop_budget client deployment text_content user_prompt
              (JsonIdGenerator.range retries) t)
    as [value [ext [Hrun [Hreq [Hsl Hcount]]]]].
  exists value, ext.
  assert (Hlen : length (JsonIdGenerator.range retries) = Z.to_nat retries)
    by (unfold JsonIdGenerator.range; now rewrite length_map, length_seq).
  rewrite Hlen in Hcount. auto.
Qed.

(** X2.  With a retry bound of zero or less the retrying [generate_schema]
    makes no attempt: it returns the exhaustion marker at once, without a
    request, a log entry or a wait. *)
Theorem no_attempt_without_retries {FM : FloatModel} :
  forall (client : llm_client) (deployment text_content : str)
         (url user_prompt : option str) (retries : Z) (t : trace),
    (retries <= 0)%Z ->
    JsonIdGenerator.generate_schema (FM := FM) client deployment text_content url
                                    user_prompt retries t
    = (Return (error_marker
                 (lit "Failed to generate schema after multiple attempts")),
       t).
Proof.
  intros client deployment text_content url user_prompt retries t H.
  unfold JsonIdGenerator.generate_schema. now rewrite (range_nonpositive _ H).
Qed.

Lemma no_attempt_without_retries_witness :
  JsonIdGenerator.generate_schema (FM := exact_decimal)
    (replying_client prose_response) (lit "gpt-4o") (lit "page text") None None
    (-1) []
  = (Return (error_marker
               (lit "Failed to generate schema after multiple attempts")),
     []).
Proof.
  apply (no_attempt_without_retries (FM := exact_decimal)). lia.
Defined.

(** X3.  A response that the retrying [generate_schema] cannot use, because
    it has no content or lacks an opening or a closing brace, fails the
    attempt like a failed request: under a client that always answers so,
    every one of the [retries] attempts is made, logged under its number
    (from 1) and followed by the wait, and the result is the exhaustion
    marker. *)
Theorem unusable_responses_are_retried {FM : FloatModel} :
  forall (client : llm_client) (deployment text_content : str)
         (url user_prompt : option str) (retries : Z) (t : trace)
         (content : option str) (e : exn),
    (forall t' request, client t' request = Content content) ->
    (content = None
     /\ e = AttributeError (lit "'NoneType' object has no attribute 'find'"))
    \/ (exists response,
           content = Some response
           /\ (find response "{" = (-1)%Z \/ rfind response "}" = (-1)%Z)
           /\ e = ValueError (lit "No valid JSON found in response")) ->
    let request := make_request deployment schema_system_message
                                (retry_prompt text_content user_prompt) in
    JsonIdGenerator.generate_schema (FM := FM) client deployment text_content url
                                    user_prompt retries t
    = (Return (error_marker
                 (lit "Failed to generate schema after multiple attempts")),
       t ++ failed_attempts request 0 (repeat e (Z.to_nat retries))).
Proof.
  intros client deployment text_content url user_prompt retries t content e
         Hanswer Hcontent request.
  assert (Hraise : fst (handle_response (FM := FM) content) = Raise e).
  { destruct Hcontent as [[-> ->]|[response [-> [Hno ->]]]]; [reflexivity|].
    cbn [handle_response].
    replace ((find response "{" =? -1)%Z || (rfind response "}" + 1 =? 0)%Z)
      with true; [reflexivity|].
    symmetry. apply orb_true_iff.
    destruct Hno as [H|H]; rewrite H; [left|right]; reflexivity. }
  unfold JsonIdGenerator.generate_schema, JsonIdGenerator.range.
  pose proof (attempts_loop_failures client deployment text_content user_prompt
                (repeat e (Z.to_nat retries)) 0 [] t) as Hloop.
  rewrite repeat_length, app_nil_r in Hloop. rewrite Hloop; [reflexivity|].
  intros done e' rest Heq.
  assert (He : e' = e).
  { apply (repeat_spec (Z.to_nat retries) e). rewrite Heq.
    apply in_or_app. right. now left. }
  subst e'. right. exists content. split; [apply Hanswer|exact Hraise].
Qed.

Lemma unusable_responses_are_retried_witness :
  let request := make_request (lit "gpt-4o") schema_system_message
                              (retry_prompt (lit "page text") None) in
  JsonIdGenerator.generate_schema (FM := exact_decimal)
    (replying_client (lit "I cannot help with that.")) (lit "gpt-4o")
    (lit "page text") None None 2 []
  = (Return (error_marker
               (lit "Failed to generate schema after multiple attempts")),
     [] ++ [ChatCompletion request;
            LogError (lit "Attempt 1 failed: No valid JSON found in response");
            Sleep 2;
            ChatCompletion request;
            LogError (lit "Attempt 2 failed: No valid JSON found in response");
            Sleep 2]).
Proof.
  apply (unusable_responses_are_retried (FM := exact_decimal)
           (replying_client (lit "I cannot help with that.")) (lit "gpt-4o")
           (lit "page text") None None 2 []
           (Some (lit "I cannot help with that."))
           (ValueError (lit "No valid JSON found in response"))).
  - reflexivity.
  - right. exists (lit "I cannot help with that."). split; [reflexivity|].
    split; [left; reflexivity|reflexivity].
Defined.



(** ** The comparator, for every client *)

(** A word of the pattern at the head of a text is matched there, whole. *)
Lemma match_percentage_at_complete (w post : str) :
  percentage_word w ->
  exists g, match_percentage_at (w ++ post) = Some g /\ w = g ++ lit "%".
Proof.
  intros [ds [Hne Hds]|ds fs [Hne Hds] [Hnf Hfs]].
  - exists ds. split; [|reflexivity]. unfold match_percentage_at.
    rewrite <- app_assoc.
    rewrite (span_digits_run ds (lit "%" ++ post) Hds) by reflexivity.
    destruct ds; [contradiction|reflexivity].
  - exists (ds ++ lit "." ++ fs). split; [|str_eq]. unfold match_percentage_at.
    replace ((ds ++ lit "." ++ fs ++ lit "%") ++ post)
      with (ds ++ "."%char :: fs ++ "%"%char :: post) by str_eq.
    rewrite (span_digits_run ds ("."%char :: fs ++ "%"%char :: post) Hds)
      by reflexivity.
    rewrite (span_digits_run fs ("%"%char :: post) Hfs) by reflexivity.
    destruct ds; [contradiction|]. destruct fs; [contradiction|reflexivity].
Qed.

(** [re.search] returns the leftmost match: no word of the pattern starts
    before it, and it is the word that starts there. *)
Lemma re_search_percentage_first (s : str) :
  forall g,
    re_search_percentage s = Some g ->
    exists pre post,
      s = pre ++ (g ++ lit "%") ++ post
      /\ percentage_word (g ++ lit "%")
      /\ forall a w b,
          s = a ++ w ++ b -> percentage_word w ->
          length pre <= length a
          /\ (length a = length pre -> w = g ++ lit "%").
Proof.
  induction s as [|c s IH]; intros g H; [discriminate H|].
  cbn [re_search_percentage] in H.
  destruct (match_percentage_at (c :: s)) as [g'|] eqn:Hm.
  - injection H as ->.
    destruct (match_percentage_at_sound _ _ Hm) as [post [Heq Hw]].
    exists [], post. split; [exact Heq|]. split; [exact Hw|].
    intros a w b Hs Hword. split; [cbn; lia|].
    intros Hlen. destruct a; [|discriminate Hlen]. cbn [app] in Hs.
    destruct (match_percentage_at_complete w b Hword) as [g2 [Hm2 ->]].
    rewrite <- Hs, Hm in Hm2. now injection Hm2 as ->.
  - destruct (IH g H) as [pre [post [-> [Hw Hfirst]]]].
    exists (c :: pre), post. split; [reflexivity|]. split; [exact Hw|].
    intros a w b Hs Hword. destruct a as [|c' a].
    + exfalso. cbn [app] in Hs.
      destruct (match_percentage_at_complete w b Hword) as [g2 [Hm2 _]].
      rewrite <- Hs, Hm in Hm2. discriminate Hm2.
    + cbn [app] in Hs. injection Hs as _ Hs.
      destruct (Hfirst a w b Hs Hword) as [Hle Heq]. cbn [length].
      split; [lia|]. intros Hlen. apply Heq. lia.
Qed.

Section ComparatorFacts.

Context {FM : FloatModel}.

(** [compare_schemas] as a function of the client's answer. *)
Lemma compare_schemas_with_spec prompt client deployment user_schema
      generated_schema t :
  compare_schemas_with (FM := FM) prompt client deployment user_schema
                       generated_schema t
  = let request := make_request deployment compare_system_message
                                (prompt user_schema generated_schema) in
    let caught e :=
      (Return (error_marker (exn_str e)),
       t ++ [ChatCompletion request;
             LogError (lit "Error comparing schemas: " ++ exn_str e)]) in
    match client t request with
    | RequestFails e => caught e
    | Content None =>
        caught (TypeError
                  (lit "expected string or bytes-like object, got 'NoneType'"))
    | Content (Some response) =>
        match re_search_percentage response with
        | Some group1 =>
            (Return
               (PyDict
                  [(cps (lit "accuracy"), PyFloat (float_of_literal group1));
                   (cps (lit "missing_fields"),
                    str_list (re_findall_line (lit "Missing fields: ") response));
                   (cps (lit "additional_fields"),
                    str_list (re_findall_line (lit "Additional fields: ") response));
                   (cps (lit "detailed_comparison"), PyStr (cps response))]),
             t ++ [ChatCompletion request])
        | None =>
            caught (ValueError (lit "No valid accuracy score found in response"))
        end
    end.
Proof.
  unfold compare_schemas_with, try_except, bind, chat_completions_create.
  cbv zeta. destruct (client t _) as [e|[response|]].
  - unfold logging_error, emit, ret. f_equal. trace_eq.
  - cbn [read_comparison]. destruct (re_search_percentage response).
    + reflexivity.
    + unfold raise, bind, logging_error, emit, ret. f_equal. trace_eq.
  - unfold read_comparison, raise, bind, logging_error, emit, ret.
    f_equal. trace_eq.
Qed.

End ComparatorFacts.

(** X5.  [compare_schemas] of either file raises nothing, whatever the
    client does: it sends one request and returns either the four-entry
    result, logging nothing, or the marker [{"error": msg}] after logging
    [Error comparing schemas: msg]. *)
Theorem compare_schemas_never_raises {FM : FloatModel} :
  forall (client : llm_client) (deployment user_schema generated_schema : str)
         (t : trace),
    let outcome (run : result (pyval FM) * trace) (request : completion_request) :=
      (exists accuracy missing additional response,
          run = (Return
                   (PyDict
                      [(cps (lit "accuracy"), PyFloat accuracy);
                       (cps (lit "missing_fields"), str_list missing);
                       (cps (lit "additional_fields"), str_list additional);
                       (cps (lit "detailed_comparison"), PyStr (cps response))]),
                 t ++ [ChatCompletion request]))
      \/ (exists msg,
             run = (Return (error_marker msg),
                    t ++ [ChatCompletion request;
                          LogError (lit "Error comparing schemas: " ++ msg)])) in
    outcome (App.compare_schemas client deployment user_schema generated_schema t)
            (make_request deployment compare_system_message
                          (compare_prompt_app user_schema generated_schema))
    /\ outcome (JsonIdGenerator.compare_schemas client deployment user_schema
                                                generated_schema t)
               (make_request deployment compare_system_message
                             (compare_prompt_retry user_schema generated_schema)).
Proof.
  intros client deployment user_schema generated_schema t outcome.
  unfold App.compare_schemas, JsonIdGenerator.compare_schemas, outcome.
  split; rewrite compare_schemas_with_spec; cbv zeta;
    (destruct (client t _) as [e|[response|]];
     [right; eexists; reflexivity
     |destruct (re_search_percentage response) as [g|];
      [left; do 4 eexists; reflexivity|right; eexists; reflexivity]
     |right; eexists; reflexivity]).
Qed.

(** X6.  When the narrative holds a percentage, [compare_schemas] of either
    file reads the accuracy from the first one: the digits, with their
    fraction if any, of the leftmost word of the pattern.  The narrative
    itself is returned whole and nothing is logged. *)
Theorem accuracy_is_the_first_percentage {FM : FloatModel} :
  forall (client : llm_client) (deployment user_schema generated_schema : str)
         (t : trace) (response : str),
    contains_percentage response ->
    (forall request, client t request = Content (Some response)) ->
    exists number before after,
      response = before ++ (number ++ lit "%") ++ after
      /\ percentage_word (number ++ lit "%")
      /\ (forall a w b,
             response = a ++ w ++ b -> percentage_word w ->
             length before <= length a)
      /\ let read : pyval FM :=
           PyDict
             [(cps (lit "accuracy"), PyFloat (float_of_literal number));
              (cps (lit "missing_fields"),
               str_list (re_findall_line (lit "Missing fields: ") response));
              (cps (lit "additional_fields"),
               str_list (re_findall_line (lit "Additional fields: ") response));
              (cps (lit "detailed_comparison"), PyStr (cps response))] in
         (exists request,
             App.compare_schemas client deployment user_schema generated_schema t
             = (Return read, t ++ [ChatCompletion request]))
         /\ (exists request,
                JsonIdGenerator.compare_schemas client deployment user_schema
                                                generated_schema t
                = (Return read, t ++ [ChatCompletion request])).
Proof.
  intros client deployment user_schema generated_schema t response Hpct Hanswer.
  destruct (re_search_percentage_complete response Hpct) as [g Hg].
  destruct (re_search_percentage_first response g Hg)
    as [pre [post [Heq [Hw Hfirst]]]].
  exists g, pre, post. split; [exact Heq|]. split; [exact Hw|].
  split; [intros a w b Hs Hword; exact (proj1 (Hfirst a w b Hs Hword))|].
  cbv zeta. unfold App.compare_schemas, JsonIdGenerator.compare_schemas.
  split; eexists; rewrite compare_schemas_with_spec; cbv zeta;
    rewrite Hanswer, Hg; reflexivity.
Qed.

Lemma accuracy_is_the_first_percentage_witness :
  exists number before after,
    narrative_example = before ++ (number ++ lit "%") ++ after
    /\ percentage_word (number ++ lit "%")
    /\ (forall a w b,
           narrative_example = a ++ w ++ b -> percentage_word w ->
           length before <= length a)
    /\ let read : pyval exact_decimal :=
         PyDict
           [(cps (lit "accuracy"), PyFloat (float_of_literal number));
            (cps (lit "missing_fields"),
             str_list (re_findall_line (lit "Missing fields: ") narrative_example));
            (cps (lit "additional_fields"),
             str_list (re_findall_line (lit "Additional fields: ")
                                       narrative_example));
            (cps (lit "detailed_comparison"), PyStr (cps narrative_example))] in
       (exists request,
           App.compare_schemas (replying_client narrative_example) (lit "gpt-4o")
                               (lit "{}") (lit "{}") []
           = (Return read, [] ++ [ChatCompletion request]))
       /\ (exists request,
              JsonIdGenerator.compare_schemas (replying_client narrative_example)
                                              (lit "gpt-4o") (lit "{}") (lit "{}") []
              = (Return read, [] ++ [ChatCompletion request])).
Proof.
  apply (accuracy_is_the_first_percentage (FM := exact_decimal)
           (replying_client narrative_example) (lit "gpt-4o") (lit "{}") (lit "{}")
           [] narrative_example).
  - exists (lit "..."), (lit "87.5%"), (lit " match... Missing fields: author, datePublished Additional fields: None").
    split; [reflexivity|].
    apply (@percentage_decimal (lit "87") (lit "5"));
      (split; [discriminate|repeat constructor]).
  - reflexivity.
Defined.

(** ** The listed fields *)

Lemma starts_with_spec (p s : str) :
  starts_with p s = true -> s = p ++ skipn (length p) s.
Proof.
  revert s. induction p as [|a p IH]; intros s H; [reflexivity|].
  destruct s as [|b s]; [discriminate H|]. cbn [starts_with] in H.
  apply andb_true_iff in H. destruct H as [Hab Hrest].
  apply Ascii.eqb_eq in Hab. subst b. cbn [length skipn app]. f_equal.
  now apply IH.
Qed.

Lemma starts_with_app (p s : str) : starts_with p (p ++ s) = true.
Proof.
  induction p as [|a p IH]; [reflexivity|].
  cbn [app starts_with]. now rewrite Ascii.eqb_refl.
Qed.

(** [.+] stops at the end of the line. *)
Lemma rest_of_line_spec (s : str) :
  ~ In newline (rest_of_line s)
  /\ exists post,
      s = rest_of_line s ++ post
      /\ (post = [] \/ exists post', post = newline :: post').
Proof.
  induction s as [|c s [Hno [post [Heq Hpost]]]].
  - split; [intros []|]. exists []. split; [reflexivity|now left].
  - cbn [rest_of_line]. destruct (Ascii.eqb c newline) eqn:Hc.
    + apply Ascii.eqb_eq in Hc. subst c. split; [intros []|].
      exists (newline :: s). split; [reflexivity|]. right. now exists s.
    + split.
      * intros [->|Hin]; [|now apply Hno]. now rewrite Ascii.eqb_refl in Hc.
      * exists post. split; [|exact Hpost]. cbn [app]. now rewrite <- Heq.
Qed.

Lemma line_rest_after_cons (prefix text field : str) (c : ascii) :
  line_rest_after prefix text field ->
  line_rest_after prefix (c :: text) field.
Proof.
  intros [Hne [Hno [before [after [-> Hafter]]]]]. split; [exact Hne|].
  split; [exact Hno|]. exists (c :: before), after. split; [reflexivity|exact Hafter].
Qed.

Lemma findall_from_fields (prefix : str) (s : str) :
  forall skip,
    Forall (line_rest_after prefix s) (findall_from prefix s skip).
Proof.
  induction s as [|c s IH]; intros skip; [constructor|].
  assert (Htail : forall k, Forall (line_rest_after prefix (c :: s))
                                   (findall_from prefix s k)).
  { intros k. eapply Forall_impl; [|apply IH].
    intros field. apply line_rest_after_cons. }
  cbn [findall_from]. destruct skip as [|k]; [|apply Htail].
  destruct (starts_with prefix (c :: s)) eqn:Hstart; [|apply Htail].
  destruct (rest_of_line (skipn (length prefix) (c :: s))) as [|d line] eqn:Hline;
    [apply Htail|].
  constructor; [|apply Htail].
  destruct (rest_of_line_spec (skipn (length prefix) (c :: s)))
    as [Hno [after [Heq Hafter]]].
  rewrite Hline in Hno, Heq. split; [discriminate|]. split; [exact Hno|].
  exists [], after. split; [|exact Hafter].
  change ([] ++ prefix ++ (d :: line) ++ after)
    with (prefix ++ (d :: line) ++ after).
  rewrite <- Heq. now apply starts_with_spec.
Qed.

(** X7.  Each entry of the field lists that [compare_schemas] returns is
    the rest of a line of the narrative after [Missing fields: ] (or
    [Additional fields: ]): it is not empty, holds no newline and runs to
    the end of its line.  A narrative without the literal gives the empty
    list. *)
Theorem listed_fields_are_line_rests :
  forall (response : str),
    let listed prefix :=
      Forall (line_rest_after prefix response) (re_findall_line prefix response)
      /\ ((forall before after, response <> before ++ prefix ++ after) ->
          re_findall_line prefix response = []) in
    listed (lit "Missing fields: ") /\ listed (lit "Additional fields: ").
Proof.
  intros response listed.
  assert (H : forall prefix, listed prefix).
  { intros prefix. unfold listed, re_findall_line.
    pose proof (findall_from_fields prefix response 0) as Hall.
    split; [exact Hall|]. intros Habsent.
    destruct (findall_from prefix response 0) as [|field fields]; [reflexivity|].
    exfalso. apply Forall_inv in Hall.
    destruct Hall as [_ [_ [before [after [Heq _]]]]].
    exact (Habsent before (field ++ after) Heq). }
  split; apply H.
Qed.

Lemma listed_fields_are_line_rests_witness :
  Forall (line_rest_after (lit "Missing fields: ") narrative_example)
         [lit "author, datePublished Additional fields: None"]
  /\ Forall (line_rest_after (lit "Additional fields: ") narrative_example)
            [lit "None"].
Proof.
  destruct (listed_fields_are_line_rests narrative_example) as [[H1 _] [H2 _]].
  split; [exact H1|exact H2].
Defined.

(** ** The token counter *)

Lemma split_ws_aux_space (a b cur : str) (c : ascii) :
  py_isspace c = true ->
  split_ws_aux (a ++ c :: b) cur = split_ws_aux a cur ++ split_ws_aux b [].
Proof.
  intros Hc. revert cur. induction a as [|x a IH]; intros cur.
  - cbn [app split_ws_aux]. rewrite Hc. now destruct cur.
  - cbn [app split_ws_aux]. destruct (py_isspace x).
    + destruct cur; rewrite IH; reflexivity.
    + apply IH.
Qed.

Lemma split_ws_aux_word (w rest cur : str) :
  Forall (fun c => py_isspace c = false) w ->
  split_ws_aux (w ++ rest) cur = split_ws_aux rest (rev w ++ cur).
Proof.
  intros Hw. revert cur. induction Hw as [|c w Hc _ IH]; intros cur.
  - reflexivity.
  - cbn [app split_ws_aux rev]. rewrite Hc, IH, <- app_assoc. reflexivity.
Qed.

Lemma split_ws_word (w : str) :
  w <> [] -> Forall (fun c => py_isspace c = false) w -> split_ws w = [w].
Proof.
  intros Hne Hw. unfold split_ws.
  rewrite <- (app_nil_r w) at 1. rewrite (split_ws_aux_word w [] [] Hw).
  rewrite app_nil_r. cbn [split_ws_aux].
  destruct (rev w) eqn:Hrev.
  - apply (f_equal (@rev ascii)) in Hrev. rewrite rev_involutive in Hrev.
    contradiction.
  - now rewrite <- Hrev, rev_involutive.
Qed.

Lemma split_ws_aux_nonempty (s : str) :
  forall cur, Forall (fun w => w <> []) (split_ws_aux s cur).
Proof.
  induction s as [|c s IH]; intros cur; cbn [split_ws_aux].
  - destruct cur as [|x cur]; repeat constructor.
    intros H. apply (f_equal (@length ascii)) in H.
    rewrite length_rev in H. discriminate H.
  - destruct (py_isspace c); [|apply IH].
    destruct cur as [|x cur]; [apply IH|]. constructor; [|apply IH].
    intros H. apply (f_equal (@length ascii)) in H.
    rewrite length_rev in H. discriminate H.
Qed.

(** Joining the words of a text by single spaces keeps the words. *)
Lemma split_ws_join (words : list str) :
  Forall (fun w => w <> []) words ->
  Forall (Forall (fun c => py_isspace c = false)) words ->
  split_ws (join (lit " ") words) = words.
Proof.
  intros Hne Hws. induction words as [|w words IH]; [reflexivity|].
  inversion Hne as [|? ? Hw Hne']; subst. inversion Hws as [|? ? Hc Hws']; subst.
  destruct words as [|w2 words]; [now apply split_ws_word|].
  change (join (lit " ") (w :: w2 :: words))
    with (w ++ " "%char :: join (lit " ") (w2 :: words)).
  unfold split_ws. rewrite split_ws_aux_space by reflexivity.
  fold (split_ws w). fold (split_ws (join (lit " ") (w2 :: words))).
  rewrite (split_ws_word w Hw Hc), (IH Hne' Hws'). reflexivity.
Qed.

Lemma split_ws_collapse (text : str) : split_ws (collapse text) = split_ws text.
Proof.
  unfold collapse. apply split_ws_join.
  - apply split_ws_aux_nonempty.
  - apply split_ws_aux_words. constructor.
Qed.

Lemma split_ws_aux_none (s : str) :
  forall cur, split_ws_aux s cur = [] -> cur = [] /\ blank s.
Proof.
  induction s as [|c s IH]; intros cur H; cbn [split_ws_aux] in H.
  - destruct cur; [split; [reflexivity|constructor]|discriminate H].
  - destruct (py_isspace c) eqn:Hc.
    + destruct cur; [|discriminate H].
      destruct (IH [] H) as [_ Hs]. split; [reflexivity|now constructor].
    + destruct (IH _ H) as [Hcur _]. discriminate Hcur.
Qed.

Lemma split_ws_blank (s : str) : blank s -> split_ws s = [].
Proof.
  induction 1 as [|c s Hc _ IH]; [reflexivity|].
  unfold split_ws. cbn [split_ws_aux]. now rewrite Hc.
Qed.

Lemma split_ws_aux_count (s : str) :
  forall cur,
    2 * length (split_ws_aux s cur)
    <= length s + match cur with [] => 1 | _ => 2 end.
Proof.
  induction s as [|c s IH]; intros cur; cbn [split_ws_aux length].
  - destruct cur; cbn [length]; lia.
  - destruct (py_isspace c).
    + destruct cur; [specialize (IH [])|specialize (IH [])];
        cbn [length] in *; lia.
    + specialize (IH (c :: cur)). destruct cur; lia.
Qed.

(** X8.  [calculate_tokens] counts nothing exactly on the texts that are
    empty or made of whitespace only, and never counts more than
    [(len(text) + 1) / 2] tokens. *)
Theorem blank_text_has_no_tokens :
  forall (text : str),
    (calculate_tokens text = 0 <-> blank text)
    /\ 2 * calculate_tokens text <= length text + 1.
Proof.
  intros text. unfold calculate_tokens, split_ws. split; [split|].
  - intros H. apply length_zero_iff_nil in H.
    exact (proj2 (split_ws_aux_none text [] H)).
  - intros H. fold (split_ws text). now rewrite split_ws_blank.
  - exact (split_ws_aux_count text []).
Qed.

(** X9.  [calculate_tokens] adds up across whitespace: the count of two
    texts put together with a whitespace character between them is the sum
    of their counts. *)
Theorem tokens_add_across_whitespace :
  forall (a b : str) (c : ascii),
    py_isspace c = true ->
    calculate_tokens (a ++ c :: b) = calculate_tokens a + calculate_tokens b.
Proof.
  intros a b c Hc. unfold calculate_tokens, split_ws.
  now rewrite split_ws_aux_space, length_app.
Qed.

Lemma tokens_add_across_whitespace_witness :
  calculate_tokens (lit "{" ++ newline :: lit "  x: 1") = 1 + 2.
Proof.
  apply (tokens_add_across_whitespace (lit "{") (lit "  x: 1") newline).
  reflexivity.
Defined.

(** X10.  The count of [calculate_tokens] does not depend on how the words
    are spaced: a text and the same text with every run of whitespace
    replaced by one space (and none at the ends) have the same count, and
    the same words. *)
Theorem tokens_ignore_spacing :
  forall (text : str),
    calculate_tokens (join (lit " ") (split_ws text)) = calculate_tokens text
    /\ split_ws (join (lit " ") (split_ws text)) = split_ws text.
Proof.
  intros text. unfold calculate_tokens.
  pose proof (split_ws_collapse text) as H. unfold collapse in H.
  now rewrite H.
Qed.

(** ** The JSON passthrough extractor, applied again *)

(** X11.  [extract_text_from_json] is idempotent on what it returns: when
    it returns a text, that text is accepted in its turn and comes back
    unchanged, with nothing logged. *)
Theorem passthrough_is_idempotent {FM : FloatModel} :
  FloatLaws FM ->
  forall (json_content text : str) (t t' : trace),
    extract_text_from_json (FM := FM) json_content t = (Return (Some text), t') ->
    extract_text_from_json (FM := FM) text t' = (Return (Some text), t').
Proof.
  intros laws json_content text t t'. unfold extract_text_from_json.
  destruct (json_loads json_content) as [e|content] eqn:Hparse.
  - unfold bind, logging_error, emit, ret. intros H. discriminate H.
  - unfold ret. intros H. injection H as <- <-.
    now rewrite (json_loads_dumps laws content (json_loads_wf _ _ Hparse)).
Qed.

Lemma passthrough_is_idempotent_witness :
  extract_text_from_json (FM := exact_decimal) (json_dumps compact_content) []
  = (Return (Some (json_dumps compact_content)), []).
Proof.
  apply (passthrough_is_idempotent (FM := exact_decimal) exact_decimal_laws
           compact_document (json_dumps compact_content) [] []).
  reflexivity.
Defined.

(** X12.  A text returned by [extract_text_from_json] is never empty: the
    result is false in a test such as [if not text_content] only when it is
    [None]. *)
Theorem passthrough_text_is_not_empty {FM : FloatModel} :
  FloatLaws FM ->
  forall (json_content text : str) (t t' : trace),
    extract_text_from_json (FM := FM) json_content t = (Return (Some text), t') ->
    text <> [].
Proof.
  intros laws json_content text t t'. unfold extract_text_from_json.
  destruct (json_loads json_content) as [e|content].
  - unfold bind, logging_error, emit, ret. intros H. discriminate H.
  - unfold ret, json_dumps. intros H. injection H as <- _.
    destruct (iterencode_head laws content 0) as [c [rest [-> _]]].
    discriminate.
Qed.

Lemma passthrough_text_is_not_empty_witness :
  extract_text_from_json (FM := exact_decimal) (lit "  " ++ quoted []) []
  = (Return (Some (quoted [])), [])
  /\ quoted [] <> [].
Proof.
  split; [reflexivity|].
  apply (passthrough_text_is_not_empty (FM := exact_decimal) exact_decimal_laws
           (lit "  " ++ quoted []) (quoted []) [] []).
  reflexivity.
Defined.

(** ** The static extractor, for every page and every failure *)


(** X14.  [sanitize_text] returns its argument unchanged and raises
    nothing, for every text of the model (code points below 256, all of
    which UTF-8 encodes): the encoding is decoded back to the same text. *)
Theorem sanitize_text_is_identity :
  forall (text : str) (t : trace),
    sanitize_text text t = (Return text, t)
    /\ decode_utf8 (encode_utf8_ignore text) = inr text.
Proof.
  intros text t. split; [apply sanitize_text_id|apply decode_encode_utf8].
Qed.

(** ** Braces in the wrong order *)

Lemma slice_empty (s : str) (a b : Z) :
  (0 <= b <= a)%Z -> slice s a b = [].
Proof.
  intros H. unfold slice, slice_bound. cbv zeta.
  replace (a <? 0)%Z with false by (symmetry; apply Z.ltb_ge; lia).
  replace (b <? 0)%Z with false by (symmetry; apply Z.ltb_ge; lia).
  replace (Z.to_nat (Z.min b (Z.of_nat (length s)) - Z.min a (Z.of_nat (length s))))
    with 0 by lia.
  reflexivity.
Qed.

(** X15.  When the last closing brace of the response comes before its
    first opening brace, the candidate is the empty text: either generator
    then logs the parse error of an empty document and returns the fixed
    marker [Invalid JSON format in response], after one request and, in the
    retrying variant, without a wait or a second attempt. *)
Theorem braces_out_of_order_give_invalid_json {FM : FloatModel} :
  forall (client : llm_client) (deployment text_content : str)
         (url user_prompt : option str) (t : trace) (response : str),
    (forall request, client t request = Content (Some response)) ->
    (0 <= rfind response "}" < find response "{")%Z ->
    let marker : pyval FM := error_marker (lit "Invalid JSON format in response") in
    let logged :=
      LogError (lit "Error parsing JSON: Expecting value: line 1 column 1 (char 0)") in
    slice response (find response "{") (rfind response "}" + 1) = []
    /\ (exists request,
           App.generate_schema client deployment text_content url user_prompt t
           = (Return marker, t ++ [ChatCompletion request; logged]))
    /\ (forall retries,
           (0 < retries)%Z ->
           exists request,
             JsonIdGenerator.generate_schema client deployment text_content url
                                             user_prompt retries t
             = (Return marker, t ++ [ChatCompletion request; logged])).
Proof.
  intros client deployment text_content url user_prompt t response Hanswer Horder
         marker logged.
  assert (Hslice : slice response (find response "{") (rfind response "}" + 1) = [])
    by (apply slice_empty; lia).
  assert (Hhandle : handle_response (FM := FM) (Some response)
                    = (Return marker, [logged])).
  { cbn [handle_response].
    replace ((find response "{" =? -1)%Z || (rfind response "}" + 1 =? 0)%Z)
      with false by (symmetry; apply orb_false_iff; split; apply Z.eqb_neq; lia).
    rewrite Hslice. reflexivity. }
  split; [exact Hslice|]. split.
  - eexists. rewrite app_generate_schema_spec. cbv zeta.
    rewrite Hanswer, Hhandle. f_equal. trace_eq.
  - intros retries Hpos. eexists. unfold JsonIdGenerator.generate_schema.
    rewrite (range_pos retries Hpos), attempts_loop_step. cbv zeta.
    rewrite Hanswer, Hhandle. f_equal. trace_eq.
Qed.

Lemma braces_out_of_order_give_invalid_json_witness :
  let marker : pyval exact_decimal :=
    error_marker (lit "Invalid JSON format in response") in
  let logged :=
    LogError (lit "Error parsing JSON: Expecting value: line 1 column 1 (char 0)") in
  slice (lit "} see {") (find (lit "} see {") "{") (rfind (lit "} see {") "}" + 1) = []
  /\ (exists request,
         App.generate_schema (replying_client (lit "} see {")) (lit "gpt-4o")
                             (lit "page text") None None []
         = (Return marker, [] ++ [ChatCompletion request; logged]))
  /\ (forall retries,
         (0 < retries)%Z ->
         exists request,
           JsonIdGenerator.generate_schema (replying_client (lit "} see {"))
             (lit "gpt-4o") (lit "page text") None None retries []
           = (Return marker, [] ++ [ChatCompletion request; logged])).
Proof.
  apply (braces_out_of_order_give_invalid_json (FM := exact_decimal)
           (replying_client (lit "} see {")) (lit "gpt-4o") (lit "page text")
           None None [] (lit "} see {")).
  - reflexivity.
  - cbv. split; discriminate || reflexivity.
Defined.

(** ** The harvest of the dynamic extractor *)

Lemma lstrip_head (s : str) (c : ascii) (rest : str) :
  lstrip s = c :: rest -> py_isspace c = false.
Proof.
  induction s as [|a s IH]; cbn [lstrip]; [discriminate|].
  destruct (py_isspace a) eqn:Ha; [exact IH|].
  intros H. now injection H as <- _.
Qed.

Lemma lstrip_suffix (s : str) : exists dropped, s = dropped ++ lstrip s.
Proof.
  induction s as [|a s [dropped IH]]; [now exists []|].
  cbn [lstrip]. destruct (py_isspace a).
  - exists (a :: dropped). cbn [app]. now rewrite <- IH.
  - now exists [].
Qed.

Lemma trimmed_nil : trimmed [].
Proof.
  split; intros c rest H; [discriminate H|].
  destruct rest; discriminate H.
Qed.

Lemma trimmed_app (a b : str) : trimmed a -> trimmed b -> trimmed (a ++ b).
Proof.
  intros [Ha1 Ha2] [Hb1 Hb2]. split; intros c rest H.
  - destruct a as [|x a]; [exact (Hb1 c rest H)|].
    injection H as -> _. exact (Ha1 c a eq_refl).
  - destruct b as [|y b].
    + rewrite app_nil_r in H. exact (Ha2 c rest H).
    + destruct (exists_last (l := y :: b)) as [body [z Hb]]; [discriminate|].
      rewrite Hb in H, Hb2. rewrite app_assoc in H. apply app_inj_tail in H.
      destruct H as [_ ->]. exact (Hb2 c body eq_refl).
Qed.

Lemma strip_trimmed (s : str) : trimmed (strip s).
Proof.
  unfold strip. split; intros c rest H.
  - apply (f_equal (@rev ascii)) in H. rewrite rev_involutive in H.
    cbn [rev] in H.
    destruct (lstrip_suffix (rev (lstrip s))) as [dropped Hsuffix].
    rewrite H in Hsuffix. apply (f_equal (@rev ascii)) in Hsuffix.
    rewrite rev_involutive, !rev_app_distr in Hsuffix. cbn [rev app] in Hsuffix.
    exact (lstrip_head s c _ Hsuffix).
  - apply (f_equal (@rev ascii)) in H. rewrite rev_involutive in H.
    rewrite rev_app_distr in H. cbn [rev app] in H.
    exact (lstrip_head _ c _ H).
Qed.

Lemma get_text_strip_trimmed (n : node) : trimmed (get_text_strip n).
Proof.
  induction n as [s|name attrs children IH] using node_ind'.
  - apply strip_trimmed.
  - cbn [get_text_strip]. induction IH as [|child children Hc _ IHc].
    + apply trimmed_nil.
    + cbn [flat_map]. now apply trimmed_app.
Qed.

(** X16.  [extract_comprehensive_contents] raises nothing and reads the page
    source once.  When the source is read, the result has the six
    categories [Paragraphs], [Headings], [Divs], [Spans], [Articles] and
    [Sections], in this order, and every text under them is non-empty and
    has no whitespace at either end.  When reading the source raises, the
    error is printed and the result is the empty mapping. *)
Theorem harvest_outcomes :
  forall (parse : html_parser) (self : AdvancedWebContentExtractor.extractor)
         (t : trace),
    match drv_page_source (AdvancedWebContentExtractor.driver self) t with
    | inr page_source =>
        exists extracted,
          AdvancedWebContentExtractor.extract_comprehensive_contents parse self t
          = (Return extracted, t ++ [PageSource])
          /\ map fst extracted
             = [lit "Paragraphs"; lit "Headings"; lit "Divs"; lit "Spans";
                lit "Articles"; lit "Sections"]
          /\ Forall (fun category =>
                       Forall (fun text => text <> [] /\ trimmed text)
                              (snd category))
                    extracted
    | inl e =>
        AdvancedWebContentExtractor.extract_comprehensive_contents parse self t
        = (Return [],
           t ++ [PageSource;
                 Print (lit "Comprehensive extraction error: " ++ exn_str e)])
    end.
Proof.
  intros parse self t.
  unfold AdvancedWebContentExtractor.extract_comprehensive_contents, try_except,
    bind, driver_page_source, print, emit, ret.
  destruct (drv_page_source (AdvancedWebContentExtractor.driver self) t)
    as [e|page_source].
  - f_equal. trace_eq.
  - eexists. split; [reflexivity|]. split; [reflexivity|].
    apply Forall_map. apply Forall_forall. intros [name elements] _. cbn [snd].
    apply Forall_forall. intros text Hin. apply filter_In in Hin.
    destruct Hin as [Hin Hkeep]. split.
    + intros ->. discriminate Hkeep.
    + apply in_map_iff in Hin. destruct Hin as [elem [<- _]].
      apply get_text_strip_trimmed.
Qed.

(** ** The pace of the expand phase *)

Lemma slept_cons (ev : event) (evs : list event) :
  slept (ev :: evs)
  = match ev with Sleep s => (s + slept evs)%Q | _ => slept evs end.
Proof. reflexivity. Qed.

Lemma slept_app (a b : list event) : (slept (a ++ b) == slept a + slept b)%Q.
Proof.
  induction a as [|ev a IH].
  - change (slept []) with 0%Q. cbn [app]. lra.
  - cbn [app]. rewrite !slept_cons. destruct ev; try exact IH. lra.
Qed.

Lemma scrolled_app (a b : list event) :
  (scrolled (a ++ b) == scrolled a + scrolled b)%Q.
Proof.
  unfold scrolled.
  rewrite ExtractorFacts.script_targets_app, length_app, Nat2Z.inj_add,
    inject_Z_plus.
  reflexivity.
Qed.

Lemma paced_app (a b : list event) : paced a -> paced b -> paced (a ++ b).
Proof.
  intros [Ha Ia] [Hb Ib]. split.
  - rewrite slept_app, scrolled_app. lra.
  - rewrite !ExtractorFacts.script_targets_app.
    apply incl_app; [now apply incl_appl|now apply incl_appr].
Qed.

(** A stretch of events given in full keeps the pace, by evaluation. *)
Ltac paced_now :=
  split;
  [ cbv; split; discriminate
  | let x := fresh "x" in
    let Hx := fresh "Hx" in
    intros x Hx; vm_compute in Hx |- *; tauto ].

Module PaceFacts.
Import AdvancedWebContentExtractor.

Lemma expand_element_paced self element t :
  exists evs,
    expand_element self element t = (Return tt, t ++ evs) /\ paced evs.
Proof.
  unfold expand_element, try_except, bind, driver_execute_script, sleep,
    print, emit, outcome.
  destruct (drv_execute_script (driver self) t scroll_script element) as [e|].
  - eexists. split; [trace_eq|].
    paced_now.
  - destruct (drv_execute_script (driver self) _ click_script element) as [e|].
    + eexists. split; [trace_eq|].
      paced_now.
    + eexists. split; [trace_eq|].
      paced_now.
Qed.

Lemma expand_elements_paced self elements :
  forall t,
  exists evs,
    for_each elements (expand_element self) t = (Return tt, t ++ evs)
    /\ paced evs.
Proof.
  induction elements as [|element rest IH]; intros t.
  - exists []. split; [cbn; now rewrite app_nil_r|].
    paced_now.
  - destruct (expand_element_paced self element t) as [evs1 [H1 P1]].
    destruct (IH (t ++ evs1)) as [evs2 [H2 P2]].
    exists (evs1 ++ evs2). split; [|now apply paced_app].
    cbn [for_each]. unfold bind. rewrite H1, H2. f_equal. trace_eq.
Qed.

Lemma run_strategy_paced self strategy t :
  exists evs,
    run_strategy self strategy t = (Return tt, t ++ evs) /\ paced evs.
Proof.
  unfold run_strategy, try_except, bind, driver_find_elements, print, emit.
  destruct (drv_find_elements (driver self) t strategy) as [e|elements].
  - eexists. split; [trace_eq|].
    paced_now.
  - destruct (expand_elements_paced self elements (t ++ [FindElements strategy]))
      as [evs [H P]].
    rewrite H. exists ([FindElements strategy] ++ evs).
    split; [f_equal; trace_eq|]. apply paced_app; [|exact P].
    paced_now.
Qed.

Lemma run_strategies_paced self strategies :
  forall t,
  exists evs,
    for_each strategies (run_strategy self) t = (Return tt, t ++ evs)
    /\ paced evs.
Proof.
  induction strategies as [|strategy rest IH]; intros t.
  - exists []. split; [cbn; now rewrite app_nil_r|].
    paced_now.
  - destruct (run_strategy_paced self strategy t) as [evs1 [H1 P1]].
    destruct (IH (t ++ evs1)) as [evs2 [H2 P2]].
    exists (evs1 ++ evs2). split; [|now apply paced_app].
    cbn [for_each]. unfold bind. rewrite H1, H2. f_equal. trace_eq.
Qed.

End PaceFacts.

(** X17.  The expand phase raises nothing.  When the navigation raises, it
    prints the error and does nothing else: no wait, no strategy.  Otherwise
    it waits five seconds (two after the navigation, three at the end) and
    at most a second and a half more for each element it scrolled to, and
    it clicks only on elements it scrolled to. *)
Theorem expand_phase_pace :
  forall (self : AdvancedWebContentExtractor.extractor) (t : trace),
    let url := AdvancedWebContentExtractor.url self in
    exists evs,
      AdvancedWebContentExtractor.expand_all_collapsible_sections self t
      = (Return tt, t ++ evs)
      /\ match drv_get (AdvancedWebContentExtractor.driver self) t url with
         | Some e =>
             evs = [DriverGet url; Print (lit "Expansion error: " ++ exn_str e)]
         | None =>
             (5 <= slept evs <= 5 + (3 # 2) * scrolled evs)%Q
             /\ incl (script_targets AdvancedWebContentExtractor.click_script evs)
                     (script_targets AdvancedWebContentExtractor.scroll_script evs)
         end.
Proof.
  intros self t url.
  unfold AdvancedWebContentExtractor.expand_all_collapsible_sections, try_except,
    bind, driver_get, sleep, print, emit, outcome.
  fold url.
  destruct (drv_get (AdvancedWebContentExtractor.driver self) t url) as [e|].
  - eexists. split; [trace_eq|reflexivity].
  - destruct (PaceFacts.run_strategies_paced self
                AdvancedWebContentExtractor.expansion_strategies
                ((t ++ [DriverGet url]) ++ [Sleep 2]))
      as [evs [H [Hslept Hclicks]]].
    rewrite H. exists ([DriverGet url; Sleep 2] ++ evs ++ [Sleep 3]).
    split; [f_equal; trace_eq|]. split.
    + rewrite !slept_app, !scrolled_app.
      change (slept [DriverGet url; Sleep 2]) with (2 + 0)%Q.
      change (slept [Sleep 3]) with (3 + 0)%Q.
      change (scrolled [DriverGet url; Sleep 2]) with (inject_Z 0).
      change (scrolled [Sleep 3]) with (inject_Z 0).
      change (inject_Z 0) with 0%Q. lra.
    + rewrite !ExtractorFacts.script_targets_app. cbn [script_targets flat_map app].
      rewrite !app_nil_r. exact Hclicks.
Qed.

(** ** The class filters of the harvest *)

Lemma contains_spec (needle hay : str) :
  AdvancedWebContentExtractor.contains needle hay = true <-> exists pre post, hay = pre ++ needle ++ post.
Proof.
  split.
  - induction hay as [|c hay IH]; cbn [AdvancedWebContentExtractor.contains]; intros H;
      apply orb_true_iff in H; destruct H as [H|H].
    + exists [], (skipn (length needle) []). now apply starts_with_spec.
    + discriminate H.
    + exists [], (skipn (length needle) (c :: hay)). now apply starts_with_spec.
    + destruct (IH H) as [pre [post ->]]. now exists (c :: pre), post.
  - intros [pre [post ->]]. induction pre as [|c pre IH].
    + cbn [app]. destruct (needle ++ post) eqn:E; cbn [AdvancedWebContentExtractor.contains];
        rewrite <- E, starts_with_app; reflexivity.
    + cbn [app AdvancedWebContentExtractor.contains]. rewrite IH. apply orb_true_r.
Qed.

Lemma join_member (sep : str) (parts : list str) (part : str) :
  In part parts -> exists pre post, join sep parts = pre ++ part ++ post.
Proof.
  induction parts as [|p parts IH]; intros Hin; [destruct Hin|].
  destruct parts as [|q parts].
  - destruct Hin as [->|[]]. exists [], []. cbn [join app]. now rewrite app_nil_r.
  - change (join sep (p :: q :: parts)) with (p ++ sep ++ join sep (q :: parts)).
    destruct Hin as [->|Hin].
    + now exists [], (sep ++ join sep (q :: parts)).
    + destruct (IH Hin) as [pre [post ->]].
      exists (p ++ sep ++ pre), post. now rewrite <- !app_assoc.
Qed.

Lemma class_filter_member (keywords : list str) (classes : list str) (c : str) :
  In c classes ->
  AdvancedWebContentExtractor.class_filter keywords (Some c) = true ->
  AdvancedWebContentExtractor.class_filter keywords
    (Some (join (lit " ") classes)) = true.
Proof.
  intros Hin Hc. destruct (join_member (lit " ") classes c Hin) as [pre [post Hj]].
  unfold AdvancedWebContentExtractor.class_filter in *.
  destruct c as [|x c]; [discriminate Hc|].
  destruct (join (lit " ") classes) as [|y joined] eqn:Hjoined.
  - destruct pre; discriminate Hj.
  - apply existsb_exists in Hc. destruct Hc as [keyword [Hk Hcontains]].
    apply existsb_exists. exists keyword. split; [exact Hk|].
    apply contains_spec in Hcontains.
    destruct Hcontains as [a [b Hab]].
    apply contains_spec.
    exists (pre ++ a), (b ++ post). rewrite Hj, Hab, <- !app_assoc. reflexivity.
Qed.

(** X18.  The class test of the [Divs] and [Spans] selectors passes a tag
    exactly when its [class] attribute, its classes joined by single
    spaces, holds one of the keywords as a substring: testing each class on
    its own adds nothing, a tag without the attribute never passes, and a
    class such as [context] passes for [text]. *)
Theorem class_filter_reads_whole_attribute :
  forall (keywords : list str) (name : str) (attrs : list (str * str))
         (children : list node),
    Forall (fun keyword => keyword <> []) keywords ->
    (AdvancedWebContentExtractor.has_class keywords (Element name attrs children)
     = true
     <-> exists value keyword before after,
          attr_get attrs (lit "class") = Some value
          /\ In keyword keywords
          /\ join (lit " ") (split_ws value) = before ++ keyword ++ after).
Proof.
  intros keywords name attrs children Hkeywords.
  unfold AdvancedWebContentExtractor.has_class.
  destruct (attr_get attrs (lit "class")) as [value|].
  - set (classes := split_ws value).
    assert (Hwhole :
              AdvancedWebContentExtractor.class_filter keywords
                (Some (join (lit " ") classes)) = true
              <-> exists keyword before after,
                   In keyword keywords
                   /\ join (lit " ") classes = before ++ keyword ++ after).
    { unfold AdvancedWebContentExtractor.class_filter. split.
      - destruct (join (lit " ") classes) as [|y joined]; [discriminate|].
        intros H. apply existsb_exists in H. destruct H as [keyword [Hk Hc]].
        apply contains_spec in Hc. destruct Hc as [before [after Heq]].
        now exists keyword, before, after.
      - intros [keyword [before [after [Hk Heq]]]].
        destruct (join (lit " ") classes) as [|y joined] eqn:Hjoined.
        + rewrite Forall_forall in Hkeywords. specialize (Hkeywords keyword Hk).
          destruct before; [destruct keyword; [contradiction|discriminate Heq]
                           |discriminate Heq].
        + apply existsb_exists. exists keyword. split; [exact Hk|].
          apply contains_spec. now exists before, after. }
    split.
    + intros H. apply orb_true_iff in H. destruct H as [H|H].
      * apply existsb_exists in H. destruct H as [c [Hin Hc]].
        pose proof (class_filter_member keywords classes c Hin Hc) as Hjoined.
        apply Hwhole in Hjoined. destruct Hjoined as [keyword [before [after H]]].
        now exists value, keyword, before, after.
      * apply Hwhole in H. destruct H as [keyword [before [after H]]].
        now exists value, keyword, before, after.
    + intros [value' [keyword [before [after [Hv H]]]]]. injection Hv as <-.
      apply orb_true_iff. right. apply Hwhole. now exists keyword, before, after.
  - split; [discriminate|]. intros [value [_ [_ [_ [H _]]]]]. discriminate H.
Qed.

Lemma class_filter_reads_whole_attribute_witness :
  AdvancedWebContentExtractor.has_class
    [lit "content"; lit "text"; lit "description"]
    (Element (lit "div") [(lit "class", lit "wide  context-menu")] [])
  = true
  <-> exists value keyword before after,
       attr_get [(lit "class", lit "wide  context-menu")] (lit "class") = Some value
       /\ In keyword [lit "content"; lit "text"; lit "description"]
       /\ join (lit " ") (split_ws value) = before ++ keyword ++ after.
Proof.
  apply (class_filter_reads_whole_attribute
           [lit "content"; lit "text"; lit "description"] (lit "div")
           [(lit "class", lit "wide  context-menu")] []).
  repeat constructor; discriminate.
Defined.
